(** * noRSI: the activity tracker and the query handler

    A shallow embedding of [safety-tracker.c] and [query-handler.c].

    - C [int] values are integers of [Z] in the range [INT_MIN .. INT_MAX];
      the one arithmetic operation of the tracker, [+=], is written with
      its 32-bit two's-complement result.
    - The global array [periods] is a [list tracking_period]; the loops
      [for (i = 0; i < tracker_count_periods (); i++)] update it by index.
    - [unsigned char] buffers are lists of [ascii] (one [ascii] is one
      byte); C strings are [string]s.
    - A memory access outside an array has no defined result: the
      operations that copy into or out of a buffer return [None] there. *)

From Stdlib Require Import ZArith List String Ascii Lia.
From stdpp Require Import base option list strings.

Open Scope Z_scope.

(** ** C integers *)

Module CInt.

Definition INT_MAX : Z := 2147483647.
Definition INT_MIN : Z := -2147483648.

Definition in_range (z : Z) : Prop := INT_MIN <= z <= INT_MAX.

(** The representative of [z] modulo 2^32 in [INT_MIN .. INT_MAX]. *)
Definition wrap (z : Z) : Z := (z + 2147483648) mod 4294967296 - 2147483648.

(** [a + b] on [int]. *)
Definition add (a b : Z) : Z := wrap (a + b).

(** The character of the decimal digit [d]. *)
Definition digit_char (d : Z) : ascii := ascii_of_nat (48 + Z.to_nat d).

(** The decimal digits of [n] put in front of [acc], the most significant
    first; an [int] has at most ten of them, which [fuel] counts down. *)
Fixpoint decimal (fuel : nat) (n : Z) (acc : string) : string :=
  match fuel with
  | O => acc
  | S fuel' =>
      let acc' := String (digit_char (n mod 10)) acc in
      if n <? 10 then acc' else decimal fuel' (n / 10) acc'
  end.

(** [sprintf (readout, "%i", z)]: the decimal digits of [z], after a
    minus sign when [z] is negative. *)
Definition sprintf_i (z : Z) : string :=
  if z <? 0 then String "-" (decimal 10 (- z) EmptyString)
  else decimal 10 z EmptyString.

(** The value of a run of decimal digits read after the value [k], as
    [atoi] reads them. *)
Fixpoint digits_value (k : Z) (s : string) : Z :=
  match s with
  | EmptyString => k
  | String c r => digits_value (k * 10 + (Z.of_nat (nat_of_ascii c) - 48)) r
  end.

(** The integer that a decimal readout denotes. *)
Definition read_int (s : string) : Z :=
  match s with
  | String "-" r => - digits_value 0 r
  | _ => digits_value 0 s
  end.

End CInt.

(** ** Text helpers *)

Module Text.

(** The double quote and the line feed. *)
Definition dquote : ascii := "034"%char.
Definition newline : ascii := "010"%char.
Definition NUL : ascii := "000"%char.

Definition nl : string := String newline EmptyString.

(** Literals of the source that hold double quotes are written here with
    apostrophes: [lit] puts the double quotes back. *)
Fixpoint lit (s : string) : string :=
  match s with
  | EmptyString => EmptyString
  | String c r => String (if Ascii.eqb c "'"%char then dquote else c) (lit r)
  end.

(** [strlen] as a C [int]. *)
Definition strlen (s : string) : Z := Z.of_nat (String.length s).

(** [buff[strlen (buff) - 1] = 0]: the string loses its last character. *)
Fixpoint chop_last (s : string) : string :=
  match s with
  | EmptyString => EmptyString
  | String c EmptyString => EmptyString
  | String c r => String c (chop_last r)
  end.

(** The bytes of a string, and the C string held at the front of a byte
    array (the bytes before the first NUL). *)
Definition bytes_of (s : string) : list ascii := list_ascii_of_string s.

Fixpoint c_str (l : list ascii) : list ascii :=
  match l with
  | [] => []
  | c :: r => if Ascii.eqb c NUL then [] else c :: c_str r
  end.

(** [strcmp (a, b) == 0]. *)
Definition strcmp_eq (a : list ascii) (b : string) : bool :=
  bool_decide (c_str a = c_str (bytes_of b)).

End Text.

(** ** safety-tracker.c *)

Module SafetyTracker.
Import CInt Text.

Record tracking_period_config := {
  name : string;
  limit_seconds : Z;
  reset_seconds : Z;
  break_seconds : Z
}.

Record tracking_period := {
  config : tracking_period_config;
  active_seconds : Z
}.

Definition set_active_seconds (p : tracking_period) (a : Z) : tracking_period :=
  {| config := config p; active_seconds := a |}.

(** The static configuration. *)
Definition micro_config : tracking_period_config :=
  {| name := "micro"; limit_seconds := 3 * 60;
     reset_seconds := 15; break_seconds := 30 |}.
Definition normal_config : tracking_period_config :=
  {| name := "normal"; limit_seconds := 45 * 60;
     reset_seconds := 0; break_seconds := 10 * 60 |}.
Definition workday_config : tracking_period_config :=
  {| name := "workday"; limit_seconds := 4 * 60 * 60;
     reset_seconds := 0; break_seconds := 8 * 60 * 60 |}.

(** The array [periods] at start-up. *)
Definition periods : list tracking_period :=
  [ {| config := micro_config; active_seconds := 0 |};
    {| config := normal_config; active_seconds := 0 |};
    {| config := workday_config; active_seconds := 0 |} ].

Definition tracker_count_periods (ps : list tracking_period) : nat := length ps.

(** [for (int i = from; i < from + n; i++) periods[i] = body (periods[i])] *)
Fixpoint for_periods (body : tracking_period -> tracking_period)
    (from n : nat) (ps : list tracking_period) : list tracking_period :=
  match n with
  | O => ps
  | S n' => for_periods body (S from) n' (alter body from ps)
  end.

(** The body of the loop of [tracker_provide_idle_seconds]. *)
Definition idle_period (idle_seconds : Z) (period : tracking_period)
    : tracking_period :=
  let cfg := config period in
  if 0 <? active_seconds period then
    if (active_seconds period <? limit_seconds cfg)
       && (0 <? reset_seconds cfg)
       && (reset_seconds cfg <? idle_seconds)
    then set_active_seconds period 0
    else if break_seconds cfg <? idle_seconds
    then set_active_seconds period 0
    else period
  else period.

Definition tracker_provide_idle_seconds (idle_seconds : Z)
    (ps : list tracking_period) : list tracking_period :=
  for_periods (idle_period idle_seconds) 0 (tracker_count_periods ps) ps.

(** The body of the loop of [tracker_provide_active_seconds]. *)
Definition active_period (seconds : Z) (period : tracking_period)
    : tracking_period :=
  set_active_seconds period (add (active_seconds period) seconds).

Definition tracker_provide_active_seconds (seconds : Z)
    (ps : list tracking_period) : list tracking_period :=
  for_periods (active_period seconds) 0 (tracker_count_periods ps) ps.

(** What one pass of the loop of [tracker_get_status_json] appends. *)
Definition status_entry (period : tracking_period) : string :=
  lit "{'name':'" +:+ name (config period) +:+ lit "','safe':"
  +:+ (if limit_seconds (config period) <? active_seconds period
       then "false" else "true")
  +:+ lit ",'accumulated_seconds':" +:+ sprintf_i (active_seconds period)
  +:+ lit ",'break_at':" +:+ sprintf_i (limit_seconds (config period))
  +:+ "},".

Fixpoint status_entries (buff : string) (ps : list tracking_period) : string :=
  match ps with
  | [] => buff
  | period :: rest => status_entries (buff +:+ status_entry period) rest
  end.

(** The size of the block that [tracker_get_status_json] allocates. *)
Definition STATUS_BUFFER : Z := 512.

(** The text that [tracker_get_status_json] builds, before any check of
    the room it takes. *)
Definition status_text (ps : list tracking_period) : string :=
  chop_last (status_entries (lit "{'periods':[") ps) +:+ "]}" +:+ nl.

(** [tracker_get_status_json]: the text, when it and its final NUL fit
    the block of [STATUS_BUFFER] bytes. *)
Definition tracker_get_status_json (ps : list tracking_period)
    : option string :=
  let buff := status_text ps in
  if strlen buff <? STATUS_BUFFER then Some buff else None.

End SafetyTracker.

(** ** query-handler.c *)

Module QueryHandler.
Import CInt Text SafetyTracker.

Definition QUERY_HANDLER_MAX_CONNECTION_BACKLOG : Z := 1.
Definition QUERY_HANDLER_MAX_CLIENTS : nat := 16.
Definition QUERY_HANDLER_MAX_CLIENT_BUFFER : Z := 1024.

(** The event bits of [<poll.h>]. *)
Definition POLLIN : Z := 1.
Definition POLLOUT : Z := 4.

(** [struct client_state]; its field [in] is [in_buf] here. *)
Record client_state := {
  in_buf : list ascii;
  in_len : Z;
  in_ready : Z;
  out : list ascii;
  out_len : Z
}.

Record pollfd := {
  fd : Z;
  events : Z;
  revents : Z
}.

(** [memset (&client_state[i], 0, sizeof (struct client_state))] *)
Definition zero_client : client_state :=
  {| in_buf := replicate (Z.to_nat QUERY_HANDLER_MAX_CLIENT_BUFFER) NUL;
     in_len := 0; in_ready := 0;
     out := replicate (Z.to_nat QUERY_HANDLER_MAX_CLIENT_BUFFER) NUL;
     out_len := 0 |}.

(** *** Memory *)

(** [n] bytes of [buf] from index [off]; nothing is defined outside [buf]. *)
Definition load_bytes (buf : list ascii) (off n : Z) : option (list ascii) :=
  if (0 <=? off) && (0 <=? n) && (off + n <=? Z.of_nat (length buf))
  then Some (take (Z.to_nat n) (drop (Z.to_nat off) buf))
  else None.

(** [buf] after the bytes [src] are copied to index [off]. *)
Definition store_bytes (buf : list ascii) (off : Z) (src : list ascii)
    : option (list ascii) :=
  if (0 <=? off) && (off + Z.of_nat (length src) <=? Z.of_nat (length buf))
  then Some (take (Z.to_nat off) buf ++ src
             ++ drop (Z.to_nat off + length src) buf)
  else None.

(** [memmove (&buf[dst], &buf[src], n)].  The handler's one [memcpy]
    inside a single buffer copies towards the front, where a forward
    copy gives the same bytes. *)
Definition memmove (buf : list ascii) (dst src n : Z) : option (list ascii) :=
  bytes ← load_bytes buf src n; store_bytes buf dst bytes.

(** *** Messages *)

(** The index of the first line feed of [l]. *)
Fixpoint newline_index (l : list ascii) : option nat :=
  match l with
  | [] => None
  | c :: r => if Ascii.eqb c newline then Some O else S <$> newline_index r
  end.

(** The bytes [in[0] .. in[in_len - 1]] that the scans go over. *)
Definition filled (cs : client_state) : list ascii :=
  take (Z.to_nat (in_len cs)) (in_buf cs).

Definition query_handler_message_ready (cs : client_state) : bool :=
  match newline_index (filled cs) with
  | Some _ => true
  | None => false
  end.

Definition query_handler_handle_message (ps : list tracking_period)
    (cs : client_state) : option client_state :=
  let msg_len :=
    match newline_index (filled cs) with
    | Some i => Z.of_nat i
    | None => 0
    end in
  parse_buff ← load_bytes (in_buf cs) 0 msg_len;
  cs1 ←
    (if strcmp_eq parse_buff "status" then
       status ← tracker_get_status_json ps;
       out' ← store_bytes (out cs) 0 (bytes_of status);
       Some {| in_buf := in_buf cs; in_len := in_len cs;
               in_ready := in_ready cs;
               out := out'; out_len := strlen status |}
     else if strcmp_eq parse_buff "info" then Some cs
     else Some cs);
  in' ← memmove (in_buf cs1) 0 (msg_len + 1) (in_len cs1 - (msg_len + 1));
  Some {| in_buf := in'; in_len := in_len cs1 - (msg_len + 1);
          in_ready := in_ready cs1;
          out := out cs1; out_len := out_len cs1 |}.

(** [while (query_handler_message_ready (i)) query_handler_handle_message (i);]
    with a bound on the number of passes. *)
Fixpoint handle_ready_messages (fuel : nat) (ps : list tracking_period)
    (cs : client_state) : option client_state :=
  if query_handler_message_ready cs then
    match fuel with
    | O => None
    | S fuel' =>
        cs' ← query_handler_handle_message ps cs;
        handle_ready_messages fuel' ps cs'
    end
  else Some cs.

(** No pass of the loop leaves [in_len] where it was, so [in_len]
    passes are enough. *)
Definition handle_fuel (cs : client_state) : nat := Z.to_nat (in_len cs).

(** *** The operating system *)

(** What a [read] on a client socket meets: an error, or the bytes that
    wait there (none when the peer has closed). *)
Inductive socket_input :=
  | sock_error
  | sock_data (avail : list ascii).

(** [read (fd, &buf[off], max_read)]: the buffer afterwards and the
    value returned. *)
Definition sys_read (buf : list ascii) (off max_read : Z) (s : socket_input)
    : option (list ascii * Z) :=
  match s with
  | sock_error => Some (buf, -1)
  | sock_data avail =>
      let got := take (Z.to_nat max_read) avail in
      buf' ← store_bytes buf off got;
      Some (buf', Z.of_nat (length got))
  end.

(** What a [write] meets: an error, or room for some bytes. *)
Inductive socket_output :=
  | sock_refuses
  | sock_takes (room : nat).

(** [write (fd, out, out_len)]: the value returned. *)
Definition sys_write (len : Z) (s : socket_output) : Z :=
  match s with
  | sock_refuses => -1
  | sock_takes room => Z.min len (Z.of_nat room)
  end.

(** *** One client in the loop of [query_handler_run] *)

Definition flag_set (word bits : Z) : bool := negb (Z.land word bits =? 0).
Definition clear_flag (word bit : Z) : Z := Z.land word (Z.lnot bit).

(** A stage of the loop body either falls through to the next stage or
    leaves the body ([continue]). *)
Inductive flow (A : Type) :=
  | Next (a : A)
  | Continue (a : A).
Arguments Next {A} a.
Arguments Continue {A} a.

(** What a stage hands on, either way. *)
Definition payload {A : Type} (r : flow A) : A :=
  match r with
  | Next a => a
  | Continue a => a
  end.

(** "receive incoming data" *)
Definition receive_incoming (pfd : pollfd) (cs : client_state)
    (rd : socket_input) : option (flow (pollfd * client_state)) :=
  if flag_set (revents pfd) POLLIN then
    let read_to := in_len cs in
    let max_read := QUERY_HANDLER_MAX_CLIENT_BUFFER - in_len cs in
    '(in', read_count) ← sys_read (in_buf cs) read_to max_read rd;
    let cs := {| in_buf := in'; in_len := read_count;
                 in_ready := in_ready cs;
                 out := out cs; out_len := out_len cs |} in
    if read_count =? 0 then
      Some (Next ({| fd := -1; events := events pfd;
                     revents := clear_flag (revents pfd) POLLIN |}, cs))
    else if read_count =? -1 then
      Some (Continue (pfd, cs))
    else
      let pfd := {| fd := fd pfd; events := events pfd;
                    revents := clear_flag (revents pfd) POLLIN |} in
      Some (Next (pfd,
                  if query_handler_message_ready cs
                  then {| in_buf := in_buf cs; in_len := in_len cs;
                          in_ready := 1;
                          out := out cs; out_len := out_len cs |}
                  else cs))
  else Some (Next (pfd, cs)).

(** "send outgoing data" *)
Definition send_outgoing (pfd : pollfd) (cs : client_state)
    (wr : socket_output) : option (flow (pollfd * client_state)) :=
  if flag_set (revents pfd) POLLOUT then
    let write_count := sys_write (out_len cs) wr in
    if write_count =? -1 then Some (Continue (pfd, cs))
    else if write_count =? out_len cs then
      Some (Next ({| fd := fd pfd; events := clear_flag (events pfd) POLLOUT;
                     revents := revents pfd |},
                  {| in_buf := in_buf cs; in_len := in_len cs;
                     in_ready := in_ready cs;
                     out := out cs; out_len := 0 |}))
    else if write_count <? out_len cs then
      out' ← memmove (out cs) 0 write_count (out_len cs - write_count);
      Some (Next (pfd,
                  {| in_buf := in_buf cs; in_len := in_len cs;
                     in_ready := in_ready cs;
                     out := out'; out_len := out_len cs - write_count |}))
    else Some (Next (pfd, cs))
  else Some (Next (pfd, cs)).

(** "handle any complete messages in, queueing responses" *)
Definition handle_complete (ps : list tracking_period) (pfd : pollfd)
    (cs : client_state) : option (pollfd * client_state) :=
  if query_handler_message_ready cs then
    cs' ← handle_ready_messages (handle_fuel cs) ps cs;
    Some (if 0 <? out_len cs'
          then {| fd := fd pfd; events := Z.lor (events pfd) POLLOUT;
                  revents := revents pfd |}
          else pfd,
          cs')
  else Some (pfd, cs).

(** The body of the loop over the clients. *)
Definition serve_client (ps : list tracking_period) (pfd : pollfd)
    (cs : client_state) (rd : socket_input) (wr : socket_output)
    : option (pollfd * client_state) :=
  if negb (flag_set (revents pfd) (Z.lor POLLIN POLLOUT)) then Some (pfd, cs)
  else
    r ← receive_incoming pfd cs rd;
    match r with
    | Continue x => Some x
    | Next (pfd, cs) =>
        w ← send_outgoing pfd cs wr;
        match w with
        | Continue x => Some x
        | Next (pfd, cs) => handle_complete ps pfd cs
        end
    end.

(** *** The table of connections *)

(** The arrays [conn_poll_fds] and [client_state]. *)
Record server := {
  conn_poll_fds : list pollfd;
  client_states : list client_state
}.

(** The state that [query_handler_init_server] leaves: every slot free. *)
Definition init_server : server :=
  {| conn_poll_fds :=
       replicate QUERY_HANDLER_MAX_CLIENTS {| fd := -1; events := 0; revents := 0 |};
     client_states := replicate QUERY_HANDLER_MAX_CLIENTS zero_client |}.

(** The loop of [query_handler_current_client_count], [count] being the
    counter so far. *)
Fixpoint count_clients (fds : list pollfd) (count : Z) : Z :=
  match fds with
  | [] => count
  | pfd :: rest => count_clients rest (if 0 <=? fd pfd then count + 1 else count)
  end.

Definition query_handler_current_client_count (s : server) : Z :=
  count_clients (conn_poll_fds s) 0.

(** The first index at or after [i] whose slot is free, as the loop of
    [query_handler_store_connection] finds it. *)
Fixpoint free_slot (fds : list pollfd) (i : nat) : option nat :=
  match fds with
  | [] => None
  | pfd :: rest => if fd pfd =? -1 then Some i else free_slot rest (S i)
  end.

Definition query_handler_store_connection (new_fd : Z) (s : server) : server :=
  match free_slot (conn_poll_fds s) 0 with
  | Some i =>
      {| conn_poll_fds :=
           <[i := {| fd := new_fd; events := POLLIN; revents := 0 |}]>
             (conn_poll_fds s);
         client_states := <[i := zero_client]> (client_states s) |}
  | None => s
  end.

(** The connections that wait at the listening socket, oldest first,
    each one given by the value that [accept] returns for it: a new
    descriptor, or [-1] when the connection is lost while it is taken. *)
Definition backlog := list Z.

(** "Handle any new incoming connections": the table and the backlog
    afterwards.  [poll] reports the listener readable when a connection
    waits. *)
Definition accept_incoming (s : server) (waiting : backlog)
    : server * backlog :=
  match waiting with
  | [] => (s, waiting)
  | new_conn_fd :: rest =>
      if query_handler_current_client_count s
         <? Z.of_nat QUERY_HANDLER_MAX_CLIENTS
      then (if new_conn_fd =? -1 then s
            else query_handler_store_connection new_conn_fd s, rest)
      else (s, waiting)
  end.

(** What the tick finds at one client: the events that [poll] reports
    and what its socket then does. *)
Record client_io := {
  polled : Z;
  incoming : socket_input;
  outgoing : socket_output
}.

(** [poll (conn_poll_fds, QUERY_HANDLER_MAX_CLIENTS, 0)]: the [revents]
    of every slot are set, to nothing where the descriptor is negative. *)
Definition sys_poll (fds : list pollfd) (io : list client_io) : list pollfd :=
  imap (fun i pfd =>
          {| fd := fd pfd; events := events pfd;
             revents := if fd pfd <? 0 then 0
                        else from_option polled 0 (io !! i) |})
       fds.

(** The loop over the clients, from slot [from], [n] slots. *)
Fixpoint serve_clients (ps : list tracking_period) (io : list client_io)
    (from n : nat) (s : server) : option server :=
  match n with
  | O => Some s
  | S n' =>
      pfd ← conn_poll_fds s !! from;
      cs ← client_states s !! from;
      '(pfd', cs') ← serve_client ps pfd cs
                       (from_option incoming sock_error (io !! from))
                       (from_option outgoing sock_refuses (io !! from));
      serve_clients ps io (S from) n'
        {| conn_poll_fds := <[from := pfd']> (conn_poll_fds s);
           client_states := <[from := cs']> (client_states s) |}
  end.

(** One call of [query_handler_run]. *)
Definition query_handler_run (ps : list tracking_period) (s : server)
    (waiting : backlog) (io : list client_io) : option (server * backlog) :=
  let '(s, waiting) := accept_incoming s waiting in
  let s := {| conn_poll_fds := sys_poll (conn_poll_fds s) io;
              client_states := client_states s |} in
  if existsb (fun pfd => negb (revents pfd =? 0)) (conn_poll_fds s) then
    s' ← serve_clients ps io 0 QUERY_HANDLER_MAX_CLIENTS s;
    Some (s', waiting)
  else Some (s, waiting).

End QueryHandler.

(** ** The specification's wording *)

Module Spec.
Import CInt Text SafetyTracker.

(** One element of the status snapshot: name, accumulated seconds, limit
    and safety of a window. *)
Record snapshot_entry := {
  snap_name : string;
  snap_active_seconds : Z;
  snap_limit_seconds : Z;
  snap_is_safe : bool
}.

(** The snapshot: one element per window, in the order of the
    configuration; a window is safe when its accumulated seconds are at
    most its limit. *)
Definition get_status_snapshot (ps : list tracking_period)
    : list snapshot_entry :=
  map (fun p =>
         {| snap_name := name (config p);
            snap_active_seconds := active_seconds p;
            snap_limit_seconds := limit_seconds (config p);
            snap_is_safe := active_seconds p <=? limit_seconds (config p) |})
      ps.

Definition wire_bool (b : bool) : string := if b then "true" else "false".

(** One object of the array ["periods"] of the wire format. *)
Definition wire_entry (e : snapshot_entry) : string :=
  lit "{'name':'" +:+ snap_name e
  +:+ lit "','safe':" +:+ wire_bool (snap_is_safe e)
  +:+ lit ",'accumulated_seconds':" +:+ sprintf_i (snap_active_seconds e)
  +:+ lit ",'break_at':" +:+ sprintf_i (snap_limit_seconds e)
  +:+ "}".

(** The response to [status] without its final line feed, and with it. *)
Definition wire_object (es : list snapshot_entry) : string :=
  lit "{'periods':[" +:+ String.concat "," (map wire_entry es) +:+ "]}".

Definition wire_line (es : list snapshot_entry) : string :=
  wire_object es +:+ nl.

(** The early reset of a window by an idle time, in the specification's
    words. *)
Definition early_reset (idle_seconds : Z) (p : tracking_period) : Prop :=
  0 < active_seconds p
  /\ active_seconds p < limit_seconds (config p)
  /\ 0 < reset_seconds (config p)
  /\ reset_seconds (config p) < idle_seconds.

(** The break reset. *)
Definition break_reset (idle_seconds : Z) (p : tracking_period) : Prop :=
  break_seconds (config p) < idle_seconds.

End Spec.

(** ** States and runs that the statements speak of *)

Module States.
Import CInt Text SafetyTracker QueryHandler.

(** The configured windows with given accumulators. *)
Definition windows (micro normal workday : Z) : list tracking_period :=
  [ {| config := micro_config; active_seconds := micro |};
    {| config := normal_config; active_seconds := normal |};
    {| config := workday_config; active_seconds := workday |} ].

(** A state of the array [periods]: the static configuration, and
    accumulators that are [int]s. *)
Definition tracker_state (ps : list tracking_period) : Prop :=
  map config ps = map config periods
  /\ Forall (fun p => in_range (active_seconds p)) ps.

(** Successive calls of [tracker_provide_active_seconds] and of
    [tracker_provide_idle_seconds], one per element. *)
Definition provide_active_run (deltas : list Z) (ps : list tracking_period)
    : list tracking_period :=
  fold_left (fun ps n => tracker_provide_active_seconds n ps) deltas ps.

Definition provide_idle_run (idles : list Z) (ps : list tracking_period)
    : list tracking_period :=
  fold_left (fun ps s => tracker_provide_idle_seconds s ps) idles ps.

(** The total of a run of deltas. *)
Definition sum_list (l : list Z) : Z := fold_right Z.add 0 l.

(** The idle times of a run never go down. *)
Fixpoint non_decreasing (l : list Z) : Prop :=
  match l with
  | [] => True
  | x :: r => match r with [] => True | y :: _ => x <= y end /\ non_decreasing r
  end.

(** Both buffers of a client have their declared size. *)
Definition client_sized (cs : client_state) : Prop :=
  length (in_buf cs) = Z.to_nat QUERY_HANDLER_MAX_CLIENT_BUFFER
  /\ length (out cs) = Z.to_nat QUERY_HANDLER_MAX_CLIENT_BUFFER.

(** The bounds on the lengths of a client. *)
Definition lengths_bounded (cs : client_state) : Prop :=
  0 <= in_len cs <= QUERY_HANDLER_MAX_CLIENT_BUFFER
  /\ 0 <= out_len cs <= QUERY_HANDLER_MAX_CLIENT_BUFFER.

(** The table has its declared size and every descriptor is an open one
    or [-1]. *)
Definition table_ok (s : server) : Prop :=
  length (conn_poll_fds s) = QUERY_HANDLER_MAX_CLIENTS
  /\ length (client_states s) = QUERY_HANDLER_MAX_CLIENTS
  /\ Forall (fun pfd => -1 <= fd pfd) (conn_poll_fds s).

(** A client whose input buffer holds the bytes of [s] and whose output
    buffer is empty. *)
Definition client_holding (s : string) : client_state :=
  {| in_buf := bytes_of s ++ drop (String.length s) (in_buf zero_client);
     in_len := strlen s; in_ready := 0;
     out := out zero_client; out_len := 0 |}.

(** The bytes that wait in the output buffer. *)
Definition queued (cs : client_state) : list ascii :=
  take (Z.to_nat (out_len cs)) (out cs).

(** A connected client that [poll] reports readable. *)
Definition readable_pfd : pollfd :=
  {| fd := 7; events := POLLIN; revents := POLLIN |}.

(** A table whose sixteen slots hold the descriptors 4 .. 19. *)
Definition full_table : server :=
  {| conn_poll_fds :=
       map (fun n => {| fd := Z.of_nat n + 4; events := POLLIN; revents := 0 |})
           (seq 0 QUERY_HANDLER_MAX_CLIENTS);
     client_states := replicate QUERY_HANDLER_MAX_CLIENTS zero_client |}.

(** The slot [i] after its connection is shut down and closed. *)
Definition close_slot (i : nat) (s : server) : server :=
  {| conn_poll_fds :=
       alter (fun pfd => {| fd := -1; events := events pfd;
                            revents := clear_flag (revents pfd) POLLIN |})
             i (conn_poll_fds s);
     client_states := client_states s |}.

End States.

(** ** query-handler.c: the socket path, start-up and shutdown *)

Module Lifecycle.
Import Text QueryHandler.

(** [PATH_MAX] of [<linux/limits.h>], and the size of [sun_path] in
    [struct sockaddr_un] of [<sys/un.h>]. *)
Definition PATH_MAX : nat := 4096.
Definition SUN_PATH_SIZE : nat := 108.

(** The first [n] characters of [s]. *)
Fixpoint prefix_str (n : nat) (s : string) : string :=
  match n, s with
  | S n', String c r => String c (prefix_str n' r)
  | _, _ => EmptyString
  end.

(** The C string that a zeroed array of [n] bytes holds after
    [strncpy (array, src, n)]: [src] when its NUL is copied too.  When
    [src] has [n] characters or more the array holds no NUL, and what
    is read from it as a string is not defined. *)
Definition strncpy (src : string) (n : nat) : option string :=
  if (String.length src <? n)%nat then Some src else None.

(** [strncat (dst, src, n)]: at most [n] characters of [src] appended. *)
Definition strncat (dst src : string) (n : nat) : string :=
  dst +:+ prefix_str n src.

(** The static arrays [socket_folder] and [socket_path_full], by the C
    strings they hold. *)
Record paths := {
  socket_folder : string;
  socket_path_full : string
}.

Definition no_paths : paths :=
  {| socket_folder := EmptyString; socket_path_full := EmptyString |}.

(** [query_handler_get_socket_folder]; [env] is what
    [getenv ("XDG_RUNTIME_DIR")] returns.  The result is the pointer
    returned ([None] for [NULL]) and the arrays afterwards. *)
Definition query_handler_get_socket_folder (env : option string) (st : paths)
    : option (option string * paths) :=
  match socket_folder st with
  | EmptyString =>
      match env with
      | Some xdg_path =>
          copied ← strncpy xdg_path PATH_MAX;
          let curr_path_len := String.length copied in
          let folder := strncat copied "/norsi" (PATH_MAX - 1 - curr_path_len) in
          Some (Some folder,
                {| socket_folder := folder;
                   socket_path_full := socket_path_full st |})
      | None => Some (None, st)
      end
  | _ => Some (Some (socket_folder st), st)
  end.

(** [query_handler_get_full_socket_path] *)
Definition query_handler_get_full_socket_path (env : option string)
    (st : paths) : option (option string * paths) :=
  match socket_path_full st with
  | EmptyString =>
      '(folder, st) ← query_handler_get_socket_folder env st;
      match folder with
      | Some folder =>
          copied ← strncpy folder PATH_MAX;
          let curr_path_len := String.length copied in
          let path :=
            strncat copied "/socket.sock" (PATH_MAX - 1 - curr_path_len) in
          Some (Some path,
                {| socket_folder := socket_folder st;
                   socket_path_full := path |})
      | None => Some (None, st)
      end
  | _ => Some (Some (socket_path_full st), st)
  end.

(** What [query_handler_init_server] leaves and asks of the system: the
    arrays of the paths, the table, the listening descriptor, the folder
    given to [mkdir] and the address given to [bind]. *)
Record started := {
  started_paths : paths;
  started_table : server;
  socket_listener_fd : Z;
  made_folder : option string;
  bound_path : string
}.

(** [query_handler_init_server]; [socket_fd] is what [socket] returns.
    Every slot of [conn_poll_fds] is zeroed and its descriptor set to
    [-1]; the array [client_state] is not touched.  Without a socket
    path [strncpy] is given [NULL] to copy from, which is not defined. *)
Definition query_handler_init_server (env : option string) (socket_fd : Z)
    (st : paths) (s : server) : option started :=
  '(sock_folder, st) ← query_handler_get_socket_folder env st;
  '(sock_path, st) ← query_handler_get_full_socket_path env st;
  let fds :=
    map (fun _ => {| fd := -1; events := 0; revents := 0 |}) (conn_poll_fds s) in
  sock_path ← sock_path;
  Some {| started_paths := st;
          started_table := {| conn_poll_fds := fds;
                              client_states := client_states s |};
          socket_listener_fd := socket_fd;
          made_folder := sock_folder;
          bound_path := prefix_str (SUN_PATH_SIZE - 1) sock_path |}.

(** What [query_handler_cleanup] leaves and asks of the system: the
    table, the path given to [unlink] if any, and the folder given to
    [rmdir]. *)
Record stopped := {
  stopped_table : server;
  unlinked_path : option string;
  removed_folder : string
}.

(** [query_handler_cleanup]: every descriptor other than [-1] is closed
    and its slot set to [-1]; the socket file is unlinked when there is
    a listening descriptor; the folder is removed. *)
Definition query_handler_cleanup (st : paths) (listener_fd : Z) (s : server)
    : stopped :=
  {| stopped_table :=
       {| conn_poll_fds :=
            map (fun pfd =>
                   if fd pfd =? -1 then pfd
                   else {| fd := -1; events := events pfd;
                           revents := revents pfd |})
                (conn_poll_fds s);
          client_states := client_states s |};
     unlinked_path :=
       if listener_fd =? -1 then None else Some (socket_path_full st);
     removed_folder := socket_folder st |}.

End Lifecycle.

(** ** main.c: the user's state and what is reported to the tracker *)

Module MainLoop.
Import CInt SafetyTracker.

Inductive user_activity_state :=
  | USER_UNKNOWN
  | USER_IDLE
  | USER_ACTIVE.

(** The fields of [struct norsi_state] that the loop reads; of the
    timestamp only [tv_sec] is used. *)
Record norsi_state := {
  check_user_state : Z;
  user_state : user_activity_state;
  user_state_timestamp : Z
}.

Definition main_state : norsi_state :=
  {| check_user_state := 1; user_state := USER_UNKNOWN;
     user_state_timestamp := 0 |}.

(** An event of the idle timeout, with the seconds of the monotonic
    clock when its handler runs. *)
Inductive idle_event :=
  | idle_at (tv_sec : Z)
  | resumed_at (tv_sec : Z).

(** [idle_timer_idle] and [idle_timer_resumed] *)
Definition idle_timer_idle (tv_sec : Z) (state : norsi_state) : norsi_state :=
  {| check_user_state := 1; user_state := USER_IDLE;
     user_state_timestamp := tv_sec |}.

Definition idle_timer_resumed (tv_sec : Z) (state : norsi_state) : norsi_state :=
  {| check_user_state := 1; user_state := USER_ACTIVE;
     user_state_timestamp := tv_sec |}.

(** [wl_display_dispatch]: the handlers of the events that wait, in
    their order. *)
Definition dispatch_events (events : list idle_event) (state : norsi_state)
    : norsi_state :=
  fold_left (fun state e =>
               match e with
               | idle_at t => idle_timer_idle t state
               | resumed_at t => idle_timer_resumed t state
               end)
            events state.

(** A call that the loop makes to the tracker. *)
Inductive tracker_call :=
  | call_idle (idle_seconds : Z)
  | call_active (active_seconds : Z).

Definition apply_call (c : option tracker_call) (ps : list tracking_period)
    : list tracking_period :=
  match c with
  | Some (call_idle s) => tracker_provide_idle_seconds s ps
  | Some (call_active n) => tracker_provide_active_seconds n ps
  | None => ps
  end.

(** The variables of the loop of [main]: the global state, the local
    [last_active_update] and the tracker's array. *)
Record loop_state := {
  state : norsi_state;
  last_active_update : Z;
  tracked : list tracking_period
}.

Definition loop_start : loop_state :=
  {| state := main_state; last_active_update := -1; tracked := periods |}.

(** "Take note if the timeouts indicate a change in the user's state" *)
Definition note_change (st : norsi_state) (last_active_update : Z)
    : norsi_state * Z :=
  if check_user_state st =? 0 then (st, last_active_update)
  else
    ({| check_user_state := 0; user_state := user_state st;
        user_state_timestamp := user_state_timestamp st |},
     match user_state st with
     | USER_ACTIVE => -1
     | _ => last_active_update
     end).

(** The [if (main_state.user_state != USER_UNKNOWN)] block: the new
    [last_active_update] and the call made, if any.  [now] is [tv_sec]
    of the clock; values stored in an [int] are converted to it. *)
Definition report (st : norsi_state) (last_active_update now : Z)
    : Z * option tracker_call :=
  match user_state st with
  | USER_UNKNOWN => (last_active_update, None)
  | USER_IDLE =>
      let elapsed_s := wrap (1 + now - user_state_timestamp st) in
      (last_active_update, Some (call_idle elapsed_s))
  | USER_ACTIVE =>
      let elapsed_s := wrap (0 + now - user_state_timestamp st) in
      if (0 <? elapsed_s) && (last_active_update <? now) then
        let last_active_update :=
          if last_active_update =? -1 then wrap (user_state_timestamp st)
          else last_active_update in
        (wrap now, Some (call_active (wrap (now - last_active_update))))
      else (last_active_update, None)
  end.

(** One pass of the loop of [main], up to the call of
    [query_handler_run]: the variables afterwards and the call made to
    the tracker. *)
Definition loop_pass (events : list idle_event) (now : Z) (l : loop_state)
    : loop_state * option tracker_call :=
  let st := dispatch_events events (state l) in
  let '(st, lau) := note_change st (last_active_update l) in
  let '(lau, call) := report st lau now in
  ({| state := st; last_active_update := lau;
      tracked := apply_call call (tracked l) |}, call).

(** Successive passes, each with the events that it dispatches and the
    clock that it reads: the variables at the end and the calls made,
    the first one first. *)
Fixpoint loop_passes (passes : list (list idle_event * Z)) (l : loop_state)
    : loop_state * list tracker_call :=
  match passes with
  | [] => (l, [])
  | (events, now) :: rest =>
      let '(l, call) := loop_pass events now l in
      let '(l, calls) := loop_passes rest l in
      (l, match call with Some c => c :: calls | None => calls end)
  end.

(** The clock of the last pass, [prev] being the clock before the
    passes. *)
Fixpoint last_reading (prev : Z) (nows : list Z) : Z :=
  match nows with
  | [] => prev
  | now :: rest => last_reading now rest
  end.

(** The seconds that a list of calls reports as active. *)
Fixpoint active_total (calls : list tracker_call) : Z :=
  match calls with
  | [] => 0
  | call_active n :: rest => n + active_total rest
  | call_idle _ :: rest => active_total rest
  end.

End MainLoop.

(** ** Successive calls of [query_handler_run] *)

Module Ticks.
Import SafetyTracker QueryHandler.

(** What one call of [query_handler_run] meets: the array of the tracker
    at that time, the connections that have arrived at the listening
    socket since the call before, and what [poll] and the sockets of
    the clients do. *)
Record tick := {
  tick_periods : list tracking_period;
  arrivals : backlog;
  tick_io : list client_io
}.

(** The calls of the main loop, one per tick: the table and the backlog
    at the end. *)
Fixpoint run_ticks (ticks : list tick) (s : server) (waiting : backlog)
    : option (server * backlog) :=
  match ticks with
  | [] => Some (s, waiting)
  | t :: rest =>
      '(s', waiting') ← query_handler_run (tick_periods t) s
                           (waiting ++ arrivals t) (tick_io t);
      run_ticks rest s' waiting'
  end.

(** Every client of the table has buffers of the declared size and
    lengths within them. *)
Definition clients_ok (s : server) : Prop :=
  Forall (fun cs =>
            (length (in_buf cs) = Z.to_nat QUERY_HANDLER_MAX_CLIENT_BUFFER
             /\ length (out cs) = Z.to_nat QUERY_HANDLER_MAX_CLIENT_BUFFER)
            /\ (0 <= in_len cs <= QUERY_HANDLER_MAX_CLIENT_BUFFER
                /\ 0 <= out_len cs <= QUERY_HANDLER_MAX_CLIENT_BUFFER))
         (client_states s).

(** The tick says what happens at each of the slots, and no [read] of
    it fails. *)
Definition reads_succeed (t : tick) : Prop :=
  length (tick_io t) = QUERY_HANDLER_MAX_CLIENTS
  /\ Forall (fun e => incoming e <> sock_error) (tick_io t).

(** Every [write] of the tick fails or has room for half a buffer, so
    that what a partial write leaves is no longer than what it sent:
    the [memcpy] that moves the rest to the front is then between
    ranges that do not overlap. *)
Definition writes_apart (t : tick) : Prop :=
  Forall (fun e => match outgoing e with
                   | sock_refuses => True
                   | sock_takes room =>
                       (Z.to_nat QUERY_HANDLER_MAX_CLIENT_BUFFER <= 2 * room)%nat
                   end) (tick_io t).

End Ticks.

(** * Properties *)

(** ** Strings *)

Module TextFacts.
Import Text.

Lemma append_cons (x : ascii) (a b : string) :
  String x a +:+ b = String x (a +:+ b).
Proof. reflexivity. Qed.

Lemma append_empty_l (b : string) : EmptyString +:+ b = b.
Proof. reflexivity. Qed.

Lemma append_assoc (a b c : string) : (a +:+ b) +:+ c = a +:+ (b +:+ c).
Proof.
  induction a as [|x a IH]; [done|]. by rewrite !append_cons, IH.
Qed.

Lemma append_empty_r (a : string) : a +:+ EmptyString = a.
Proof.
  induction a as [|x a IH]; [done|]. by rewrite append_cons, IH.
Qed.

Lemma length_append (a b : string) :
  String.length (a +:+ b) = (String.length a + String.length b)%nat.
Proof.
  induction a as [|x a IH]; [done|]. rewrite append_cons. simpl. by rewrite IH.
Qed.

Lemma bytes_of_append (a b : string) :
  bytes_of (a +:+ b) = bytes_of a ++ bytes_of b.
Proof.
  induction a as [|x a IH]; [done|].
  rewrite append_cons. unfold bytes_of in *. simpl. by rewrite IH.
Qed.

Lemma length_bytes_of (a : string) : length (bytes_of a) = String.length a.
Proof.
  induction a as [|x a IH]; [done|]. unfold bytes_of in *. simpl. by rewrite IH.
Qed.

(** Chopping the last character undoes the appending of one. *)
Lemma chop_last_snoc (a : string) (c : ascii) :
  chop_last (a +:+ String c EmptyString) = a.
Proof.
  induction a as [|x a IH]; [done|].
  rewrite append_cons. cbn [chop_last]. rewrite IH.
  destruct a; [done|]. by rewrite append_cons.
Qed.

End TextFacts.

(** ** Integers and their readout *)

Module CIntFacts.
Import CInt TextFacts.

Lemma wrap_in_range z : in_range z -> wrap z = z.
Proof.
  unfold in_range, wrap, INT_MIN, INT_MAX. intros H.
  rewrite Z.mod_small; lia.
Qed.

Lemma add_exact a b : in_range (a + b) -> add a b = a + b.
Proof. apply wrap_in_range. Qed.

Lemma wrap_range z : in_range (wrap z).
Proof.
  unfold in_range, wrap, INT_MIN, INT_MAX.
  pose proof (Z.mod_pos_bound (z + 2147483648) 4294967296). lia.
Qed.

Lemma decimal_length fuel : forall n acc,
  (String.length (decimal fuel n acc) <= fuel + String.length acc)%nat.
Proof.
  induction fuel as [|fuel IH]; intros n acc; simpl; [lia|].
  destruct (n <? 10); simpl; [lia|].
  etrans; [apply IH|]. simpl. lia.
Qed.

Lemma decimal_app fuel : forall n acc,
  decimal fuel n acc = decimal fuel n EmptyString +:+ acc.
Proof.
  induction fuel as [|fuel IH]; intros n acc; simpl; [done|].
  destruct (n <? 10); [done|].
  rewrite IH. rewrite (IH _ (String _ EmptyString)).
  by rewrite append_assoc, append_cons, append_empty_l.
Qed.

Lemma sprintf_i_length z : (String.length (sprintf_i z) <= 11)%nat.
Proof.
  unfold sprintf_i. destruct (z <? 0); simpl.
  - pose proof (decimal_length 10 (- z) EmptyString). simpl in *. lia.
  - pose proof (decimal_length 10 z EmptyString). simpl in *. lia.
Qed.

(** The digits read back: [decimal] puts the number [n] after whatever
    was read so far. *)
Lemma digits_value_decimal fuel : forall n,
  0 <= n < 10 ^ Z.of_nat fuel ->
  exists e, forall k acc,
    digits_value k (decimal fuel n acc) = digits_value (k * e + n) acc.
Proof.
  induction fuel as [|fuel IH]; intros n Hn.
  - exists 1. intros k acc. simpl in *. f_equal. lia.
  - cbn [decimal]. destruct (Z.ltb_spec n 10) as [Hlt|Hge].
    + exists 10. intros k acc. cbn [digits_value]. f_equal.
      rewrite Z.mod_small by lia. unfold digit_char.
      rewrite nat_ascii_embedding by lia. lia.
    + destruct (IH (n / 10)) as [e He].
      { split; [apply Z.div_pos; lia|].
        apply Z.div_lt_upper_bound; [lia|].
        rewrite Nat2Z.inj_succ, Z.pow_succ_r in Hn by lia. lia. }
      exists (e * 10). intros k acc. rewrite He. cbn [digits_value]. f_equal.
      pose proof (Z.mod_pos_bound n 10). unfold digit_char.
      rewrite nat_ascii_embedding by lia.
      pose proof (Z.div_mod n 10). lia.
Qed.

Lemma digit_char_not_minus n : digit_char (n mod 10) <> "-"%char.
Proof.
  pose proof (Z.mod_pos_bound n 10). unfold digit_char. intros E.
  apply (f_equal nat_of_ascii) in E.
  rewrite nat_ascii_embedding in E by lia.
  change (nat_of_ascii "-") with 45%nat in E. lia.
Qed.

Lemma decimal_head fuel : forall n acc,
  exists c r, decimal (S fuel) n acc = String c r /\ c <> "-"%char.
Proof.
  induction fuel as [|fuel IH]; intros n acc.
  - cbn [decimal]. pose proof (digit_char_not_minus n).
    destruct (n <? 10); eauto.
  - pose proof (digit_char_not_minus n).
    change (decimal (S (S fuel)) n acc)
      with (if n <? 10 then String (digit_char (n mod 10)) acc
            else decimal (S fuel) (n / 10) (String (digit_char (n mod 10)) acc)).
    destruct (n <? 10); [eauto|]. apply IH.
Qed.

(** The readout of an [int] denotes it. *)
Lemma read_sprintf_i z : in_range z -> read_int (sprintf_i z) = z.
Proof.
  unfold in_range, INT_MIN, INT_MAX. intros Hz. unfold sprintf_i.
  destruct (Z.ltb_spec z 0) as [Hneg|Hpos].
  - cbn [read_int]. destruct (digits_value_decimal 10 (- z)) as [e He]; [simpl; lia|].
    rewrite He. simpl. lia.
  - destruct (decimal_head 9 z EmptyString) as (c & r & E & Hc).
    destruct (digits_value_decimal 10 z) as [e He]; [simpl; lia|].
    unfold read_int. rewrite E.
    destruct (Ascii.eqb_spec c "-"%char) as [->|_]; [done|].
    assert (Hgo : digits_value 0 (String c r) = z).
    { rewrite <- E, He. simpl. lia. }
    destruct c as [[] [] [] [] [] [] [] []]; try exact Hgo. done.
Qed.

Lemma sprintf_i_inj a b :
  in_range a -> in_range b -> sprintf_i a = sprintf_i b -> a = b.
Proof.
  intros Ha Hb E.
  rewrite <- (read_sprintf_i a Ha), <- (read_sprintf_i b Hb). by rewrite E.
Qed.

End CIntFacts.

(** ** The tracker *)

Module SafetyTrackerFacts.
Import CInt Text SafetyTracker Spec States CIntFacts TextFacts.

(** The loop by index does what a map over the array does. *)
Lemma for_periods_lookup body n : forall from ps j,
  for_periods body from n ps !! j =
    if bool_decide (from <= j < from + n)%nat then body <$> ps !! j else ps !! j.
Proof.
  induction n as [|n IH]; intros from ps j; cbn [for_periods].
  - case_bool_decide; [lia|done].
  - rewrite IH. destruct (decide (j = from)) as [->|Hne].
    + rewrite (bool_decide_eq_false_2 (S from <= from < _)%nat) by lia.
      rewrite (bool_decide_eq_true_2 (from <= from < _)%nat) by lia.
      apply list_lookup_alter_eq.
    + rewrite list_lookup_alter_ne by done.
      repeat case_bool_decide; (done || lia).
Qed.

Lemma for_periods_map body ps :
  for_periods body 0 (length ps) ps = map body ps.
Proof.
  apply list_eq. intros j. rewrite for_periods_lookup, list_lookup_fmap.
  case_bool_decide as Hj; [done|].
  rewrite (lookup_ge_None_2 ps j) by lia. done.
Qed.

Lemma provide_idle_map idle ps :
  tracker_provide_idle_seconds idle ps = map (idle_period idle) ps.
Proof. apply for_periods_map. Qed.

Lemma provide_active_map n ps :
  tracker_provide_active_seconds n ps = map (active_period n) ps.
Proof. apply for_periods_map. Qed.

Lemma provide_idle_lookup idle ps i :
  tracker_provide_idle_seconds idle ps !! i = idle_period idle <$> ps !! i.
Proof. rewrite provide_idle_map. apply list_lookup_fmap. Qed.

Lemma provide_active_lookup n ps i :
  tracker_provide_active_seconds n ps !! i = active_period n <$> ps !! i.
Proof. rewrite provide_active_map. apply list_lookup_fmap. Qed.

(** What the idle rule does to one window, case by case. *)
Lemma idle_period_config idle p : config (idle_period idle p) = config p.
Proof.
  unfold idle_period.
  repeat match goal with |- context [if ?b then _ else _] => destruct b end; done.
Qed.

Lemma idle_period_cases idle p :
  (active_seconds (idle_period idle p) = 0
   /\ 0 < active_seconds p
   /\ (early_reset idle p \/ break_reset idle p))
  \/ (idle_period idle p = p
      /\ ~ early_reset idle p
      /\ (0 < active_seconds p -> ~ break_reset idle p)).
Proof.
  unfold idle_period, early_reset, break_reset.
  destruct (Z.ltb_spec 0 (active_seconds p)); [|right; split_and!; [done|lia|lia]].
  destruct (Z.ltb_spec (active_seconds p) (limit_seconds (config p)));
    destruct (Z.ltb_spec 0 (reset_seconds (config p)));
    destruct (Z.ltb_spec (reset_seconds (config p)) idle);
    destruct (Z.ltb_spec (break_seconds (config p)) idle);
    cbn [andb set_active_seconds active_seconds];
    first [ left; split_and!; [done|done|lia]
          | right; split_and!; [done|lia|lia] ].
Qed.

Lemma idle_period_never_up idle p :
  (active_seconds (idle_period idle p) = active_seconds p
   \/ active_seconds (idle_period idle p) = 0)
  /\ active_seconds (idle_period idle p) <= active_seconds p.
Proof.
  destruct (idle_period_cases idle p) as [(E & Hpos & _)|(E & _)].
  - rewrite E. split; [by right|lia].
  - rewrite E. split; [by left|lia].
Qed.

Lemma active_period_exact n p :
  in_range (active_seconds p + n) ->
  active_period n p = set_active_seconds p (active_seconds p + n).
Proof. intros H. unfold active_period. by rewrite add_exact. Qed.

(** Runs, one call at a time. *)
Lemma provide_active_run_snoc ns n ps :
  provide_active_run (ns ++ [n]) ps =
    tracker_provide_active_seconds n (provide_active_run ns ps).
Proof. unfold provide_active_run. by rewrite fold_left_app. Qed.

Lemma provide_idle_run_snoc ss s ps :
  provide_idle_run (ss ++ [s]) ps =
    tracker_provide_idle_seconds s (provide_idle_run ss ps).
Proof. unfold provide_idle_run. by rewrite fold_left_app. Qed.

Lemma sum_list_app a b : sum_list (a ++ b) = sum_list a + sum_list b.
Proof. induction a as [|x a IH]; simpl; [done|]. rewrite IH. lia. Qed.

Lemma sum_list_snoc a n : sum_list (a ++ [n]) = sum_list a + n.
Proof. rewrite sum_list_app. unfold sum_list at 2. simpl. lia. Qed.

Lemma sum_list_nonneg l : Forall (fun n => 0 < n) l -> 0 <= sum_list l.
Proof. induction 1; simpl; lia. Qed.

(** While the running total stays an [int], a run of active seconds adds
    up exactly. *)
Lemma provide_active_run_exact ns : forall ps,
  Forall (fun n => 0 < n) ns ->
  Forall (fun p => in_range (active_seconds p)
                   /\ active_seconds p + sum_list ns <= INT_MAX) ps ->
  provide_active_run ns ps =
    map (fun p => set_active_seconds p (active_seconds p + sum_list ns)) ps.
Proof.
  induction ns as [|n ns IH] using rev_ind; intros ps Hns Hps.
  - simpl. symmetry. etrans; [|apply map_id]. apply map_ext.
    intros [c a]. unfold set_active_seconds. simpl. f_equal. lia.
  - apply Forall_app in Hns as [Hns Hn]. apply Forall_inv in Hn.
    pose proof (sum_list_nonneg ns Hns) as Hsum.
    rewrite provide_active_run_snoc, provide_active_map, IH; [|done|].
    + rewrite map_map. apply map_ext_Forall.
      eapply Forall_impl; [exact Hps|]. intros p [[Hlo Hhi] Hmax].
      rewrite sum_list_snoc in *. unfold in_range, INT_MIN, INT_MAX in *.
      rewrite active_period_exact.
      * unfold set_active_seconds. cbn [config active_seconds]. f_equal. lia.
      * unfold in_range, INT_MIN, INT_MAX, set_active_seconds.
        cbn [active_seconds]. lia.
    + eapply Forall_impl; [exact Hps|]. intros p [Hr Hmax]. split; [done|].
      rewrite sum_list_snoc in Hmax. lia.
Qed.

(** *** The status line *)

Lemma status_entry_wire p :
  status_entry p =
    wire_entry {| snap_name := name (config p);
                  snap_active_seconds := active_seconds p;
                  snap_limit_seconds := limit_seconds (config p);
                  snap_is_safe := active_seconds p <=? limit_seconds (config p) |}
    +:+ ",".
Proof.
  unfold status_entry, wire_entry, wire_bool.
  cbn [snap_name snap_active_seconds snap_limit_seconds snap_is_safe].
  rewrite !append_assoc. do 3 f_equal.
  destruct (Z.ltb_spec (limit_seconds (config p)) (active_seconds p)),
           (Z.leb_spec (active_seconds p) (limit_seconds (config p)));
    (done || lia).
Qed.

(** The loop leaves every entry followed by a comma; with the last comma
    chopped the entries are separated by commas. *)
Lemma status_entries_concat ps : forall buff,
  ps <> [] ->
  status_entries buff ps =
    buff +:+ String.concat "," (map wire_entry (get_status_snapshot ps)) +:+ ",".
Proof.
  induction ps as [|p ps IH]; intros buff Hne; [done|].
  cbn [status_entries]. destruct ps as [|q ps].
  - cbn [status_entries get_status_snapshot map String.concat].
    by rewrite status_entry_wire.
  - rewrite IH by done. rewrite status_entry_wire.
    cbn [get_status_snapshot map String.concat].
    by rewrite !append_assoc.
Qed.

Lemma status_text_wire ps :
  ps <> [] -> status_text ps = wire_line (get_status_snapshot ps).
Proof.
  intros Hne. unfold status_text, wire_line, wire_object.
  rewrite status_entries_concat by done.
  rewrite <- (append_assoc (lit _)), chop_last_snoc.
  by rewrite !append_assoc.
Qed.

(** A state of the tracker is the three configured windows. *)
Lemma tracker_state_windows ps :
  tracker_state ps ->
  exists a b c, ps = windows a b c /\ in_range a /\ in_range b /\ in_range c.
Proof.
  intros [Hcfg Hr].
  destruct ps as [|[c1 a1] [|[c2 a2] [|[c3 a3] [|? ?]]]]; try discriminate.
  cbn in Hcfg. injection Hcfg as -> -> ->.
  exists a1, a2, a3. split; [done|].
  apply Forall_cons in Hr as [H1 Hr]. apply Forall_cons in Hr as [H2 Hr].
  apply Forall_cons in Hr as [H3 _]. done.
Qed.

Lemma windows_state a b c :
  in_range a -> in_range b -> in_range c -> tracker_state (windows a b c).
Proof.
  intros. split; [done|]. unfold windows.
  repeat (apply Forall_cons_2; [done|]). apply Forall_nil_2.
Qed.

(** The operations keep the configuration. *)
Lemma provide_idle_state idle ps :
  tracker_state ps -> tracker_state (tracker_provide_idle_seconds idle ps).
Proof.
  intros [Hcfg Hr]. rewrite provide_idle_map. split.
  - rewrite <- Hcfg, map_map. apply map_ext. intros p. apply idle_period_config.
  - apply Forall_fmap. eapply Forall_impl; [exact Hr|]. intros p Hp. simpl.
    destruct (idle_period_never_up idle p) as [[E|E] _]; rewrite E; [done|].
    unfold in_range, INT_MIN, INT_MAX. lia.
Qed.

Lemma provide_active_state n ps :
  tracker_state ps -> tracker_state (tracker_provide_active_seconds n ps).
Proof.
  intros [Hcfg Hr]. rewrite provide_active_map. split.
  - rewrite <- Hcfg, map_map. by apply map_ext.
  - apply Forall_fmap. apply Forall_forall. intros p _. apply wrap_range.
Qed.

(** The text of a state fits the block of 512 bytes with room to spare. *)
Lemma status_text_length ps :
  tracker_state ps -> (String.length (status_text ps) <= 267)%nat.
Proof.
  intros (a & b & c & -> & _)%tracker_state_windows.
  rewrite status_text_wire by done.
  unfold wire_line, wire_object, windows.
  cbn [get_status_snapshot map String.concat]. unfold wire_entry.
  cbn [snap_name snap_active_seconds snap_limit_seconds snap_is_safe
       config name limit_seconds active_seconds
       micro_config normal_config workday_config].
  rewrite !length_append.
  pose proof (sprintf_i_length a). pose proof (sprintf_i_length b).
  pose proof (sprintf_i_length c).
  assert (Hb : forall x, (String.length (wire_bool x) <= 5)%nat)
    by (intros []; simpl; lia).
  pose proof (Hb (a <=? 3 * 60)). pose proof (Hb (b <=? 45 * 60)).
  pose proof (Hb (c <=? 4 * 60 * 60)).
  change (String.length (lit "{'periods':[")) with 12%nat.
  change (String.length (lit "{'name':'")) with 9%nat.
  change (String.length (lit "','safe':")) with 9%nat.
  change (String.length (lit ",'accumulated_seconds':")) with 23%nat.
  change (String.length (lit ",'break_at':")) with 12%nat.
  change (String.length (sprintf_i (3 * 60))) with 3%nat.
  change (String.length (sprintf_i (45 * 60))) with 4%nat.
  change (String.length (sprintf_i (4 * 60 * 60))) with 5%nat.
  change (String.length "micro") with 5%nat.
  change (String.length "normal") with 6%nat.
  change (String.length "workday") with 7%nat.
  change (String.length "}") with 1%nat.
  change (String.length ",") with 1%nat.
  change (String.length "]}") with 2%nat.
  change (String.length nl) with 1%nat.
  lia.
Qed.

Lemma tracker_get_status_json_state ps :
  tracker_state ps ->
  tracker_get_status_json ps = Some (wire_line (get_status_snapshot ps)).
Proof.
  intros Hps. unfold tracker_get_status_json.
  pose proof (status_text_length ps Hps) as Hlen.
  destruct (tracker_state_windows ps Hps) as (a & b & c & E & _).
  rewrite <- status_text_wire by (by rewrite E).
  unfold strlen, STATUS_BUFFER.
  destruct (Z.ltb_spec (Z.of_nat (String.length (status_text ps))) 512); [done|lia].
Qed.

(** No line feed inside a readout. *)
Lemma digit_char_not_newline n : digit_char (n mod 10) <> newline.
Proof.
  pose proof (Z.mod_pos_bound n 10). unfold digit_char. intros E.
  apply (f_equal nat_of_ascii) in E.
  rewrite nat_ascii_embedding in E by lia.
  change (nat_of_ascii newline) with 10%nat in E. lia.
Qed.

Lemma decimal_no_newline fuel : forall n acc,
  newline ∉ bytes_of acc -> newline ∉ bytes_of (decimal fuel n acc).
Proof.
  induction fuel as [|fuel IH]; intros n acc Hacc; cbn [decimal]; [done|].
  assert (newline ∉ bytes_of (String (digit_char (n mod 10)) acc)).
  { unfold bytes_of in *. cbn [list_ascii_of_string]. apply not_elem_of_cons.
    split; [|done]. intros E. by apply (digit_char_not_newline n). }
  destruct (n <? 10); [done|]. by apply IH.
Qed.

Lemma sprintf_i_no_newline z : newline ∉ bytes_of (sprintf_i z).
Proof.
  unfold sprintf_i. destruct (z <? 0).
  - unfold bytes_of. cbn [list_ascii_of_string]. apply not_elem_of_cons.
    split; [done|]. apply decimal_no_newline. unfold bytes_of. simpl.
    apply not_elem_of_nil.
  - apply decimal_no_newline. unfold bytes_of. simpl. apply not_elem_of_nil.
Qed.

Lemma wire_object_one_line ps :
  tracker_state ps -> newline ∉ bytes_of (wire_object (get_status_snapshot ps)).
Proof.
  intros (a & b & c & -> & _)%tracker_state_windows.
  unfold wire_object, windows.
  cbn [get_status_snapshot map String.concat]. unfold wire_entry.
  cbn [snap_name snap_active_seconds snap_limit_seconds snap_is_safe
       config name limit_seconds active_seconds
       micro_config normal_config workday_config].
  assert (Hb : forall x, newline ∉ bytes_of (wire_bool x)).
  { intros []; vm_compute; intros H; repeat (inversion H as [|? ? ? H']; clear H; rename H' into H). }
  rewrite !bytes_of_append, !not_elem_of_app.
  pose proof sprintf_i_no_newline.
  split_and!; try done;
    vm_compute; intros H'; repeat (inversion_clear H' as [|? ? ? H'']; rename H'' into H').
Qed.

End SafetyTrackerFacts.

(** ** The query handler *)

Module QueryHandlerFacts.
Import CInt Text SafetyTracker QueryHandler Spec States.
Import CIntFacts TextFacts SafetyTrackerFacts.

(** *** Memory *)

Lemma load_bytes_Some buf off n :
  0 <= off -> 0 <= n -> off + n <= Z.of_nat (length buf) ->
  load_bytes buf off n = Some (take (Z.to_nat n) (drop (Z.to_nat off) buf)).
Proof.
  intros. unfold load_bytes.
  destruct (Z.leb_spec 0 off); [|lia]. destruct (Z.leb_spec 0 n); [|lia].
  destruct (Z.leb_spec (off + n) (Z.of_nat (length buf))); [done|lia].
Qed.

Lemma store_bytes_Some buf off src :
  0 <= off -> off + Z.of_nat (length src) <= Z.of_nat (length buf) ->
  store_bytes buf off src =
    Some (take (Z.to_nat off) buf ++ src ++ drop (Z.to_nat off + length src) buf).
Proof.
  intros. unfold store_bytes.
  destruct (Z.leb_spec 0 off); [|lia].
  destruct (Z.leb_spec (off + Z.of_nat (length src)) (Z.of_nat (length buf)));
    [done|lia].
Qed.

Lemma store_bytes_length buf off src buf' :
  store_bytes buf off src = Some buf' -> length buf' = length buf.
Proof.
  unfold store_bytes.
  destruct (Z.leb_spec 0 off); [|done].
  destruct (Z.leb_spec (off + Z.of_nat (length src)) (Z.of_nat (length buf)));
    [|done].
  intros [= <-]. rewrite !length_app, length_take, length_drop. lia.
Qed.

(** *** Finding the line feed *)

Lemma newline_index_app msg rest :
  newline ∉ msg -> newline_index (msg ++ newline :: rest) = Some (length msg).
Proof.
  induction msg as [|c msg IH]; intros Hno; [done|].
  apply not_elem_of_cons in Hno as [Hc Hno]. cbn [app newline_index].
  destruct (Ascii.eqb_spec c newline) as [->|_]; [done|].
  by rewrite IH.
Qed.

Lemma newline_index_split l i :
  newline_index l = Some i ->
  exists msg rest,
    l = msg ++ newline :: rest /\ (newline ∉ msg) /\ length msg = i.
Proof.
  revert i. induction l as [|c l IH]; intros i; [done|]. cbn [newline_index].
  destruct (Ascii.eqb_spec c newline) as [->|Hc].
  - intros [= <-]. exists [], l. split_and!; [done|apply not_elem_of_nil|done].
  - destruct (newline_index l) as [j|] eqn:E; [|done]. intros [= <-].
    destruct (IH j eq_refl) as (msg & rest & -> & Hno & <-).
    exists (c :: msg), rest. split_and!; [done| |done].
    apply not_elem_of_cons. split; [congruence|done].
Qed.

Lemma newline_index_None l : newline_index l = None -> newline ∉ l.
Proof.
  induction l as [|c l IH]; [intros _; apply not_elem_of_nil|].
  cbn [newline_index]. destruct (Ascii.eqb_spec c newline) as [->|Hc]; [done|].
  destruct (newline_index l); [done|]. intros _.
  apply not_elem_of_cons. split; [congruence|by apply IH].
Qed.

(** A message is ready exactly when the filled part of the input buffer
    holds a line feed. *)
Lemma message_ready_true cs :
  query_handler_message_ready cs = true <->
  exists msg rest, filled cs = msg ++ newline :: rest /\ (newline ∉ msg).
Proof.
  unfold query_handler_message_ready. split.
  - destruct (newline_index (filled cs)) as [i|] eqn:E; [|done]. intros _.
    destruct (newline_index_split _ _ E) as (msg & rest & ? & ? & _). eauto.
  - intros (msg & rest & -> & Hno). by rewrite newline_index_app.
Qed.

Lemma message_ready_false cs :
  query_handler_message_ready cs = false <-> newline ∉ filled cs.
Proof.
  unfold query_handler_message_ready. split.
  - destruct (newline_index (filled cs)) eqn:E; [done|]. intros _.
    by apply newline_index_None.
  - intros Hno. destruct (newline_index (filled cs)) as [i|] eqn:E; [|done].
    destruct (newline_index_split _ _ E) as (msg & rest & Hf & _).
    exfalso. apply Hno. rewrite Hf. apply elem_of_app. right. apply elem_of_cons. by left.
Qed.

(** *** One message *)

(** The response that a message with the bytes [msg] asks for. *)
Lemma strcmp_status_info msg :
  strcmp_eq msg "status" = true -> strcmp_eq msg "info" = false.
Proof.
  unfold strcmp_eq. intros H%bool_decide_eq_true.
  apply bool_decide_eq_false. rewrite H. done.
Qed.

Lemma status_response_fits ps :
  tracker_state ps ->
  exists status, tracker_get_status_json ps = Some status
    /\ status = wire_line (get_status_snapshot ps)
    /\ (0 < String.length status <= 267)%nat.
Proof.
  intros Hps. eexists. split; [by apply tracker_get_status_json_state|].
  split; [done|]. pose proof (status_text_length ps Hps) as Hlen.
  destruct (tracker_state_windows ps Hps) as (a & b & c & E & _).
  rewrite status_text_wire in Hlen by (by rewrite E). split; [|done].
  unfold wire_line. rewrite length_append. change (String.length nl) with 1%nat. lia.
Qed.

(** The handling of the first message of a buffer: the rest of the
    filled bytes moves to the front, and the output buffer changes only
    for [status], which puts its response at the start of it. *)
Lemma handle_message_framed ps cs msg rest :
  tracker_state ps -> client_sized cs ->
  in_len cs <= QUERY_HANDLER_MAX_CLIENT_BUFFER ->
  filled cs = msg ++ newline :: rest -> newline ∉ msg ->
  exists cs',
    query_handler_handle_message ps cs = Some cs'
    /\ in_len cs' = Z.of_nat (length rest)
    /\ in_buf cs' = rest ++ drop (length rest) (in_buf cs)
    /\ in_ready cs' = in_ready cs
    /\ client_sized cs'
    /\ (if strcmp_eq msg "status"
        then exists status,
               tracker_get_status_json ps = Some status
               /\ out_len cs' = strlen status
               /\ out cs' =
                    bytes_of status ++ drop (String.length status) (out cs)
        else out_len cs' = out_len cs /\ out cs' = out cs).
Proof.
  intros Hps [Hin Hout] Hmax Hfilled Hno.
  unfold QUERY_HANDLER_MAX_CLIENT_BUFFER in *.
  assert (Hlen : length (filled cs) = (length msg + S (length rest))%nat).
  { rewrite Hfilled, length_app. done. }
  unfold filled in Hlen, Hfilled. rewrite length_take in Hlen.
  assert (Hinlen : in_len cs = Z.of_nat (length msg) + 1 + Z.of_nat (length rest)) by lia.
  assert (Hmsg : take (length msg) (in_buf cs) = msg).
  { pose proof (take_app_length msg (newline :: rest)) as E.
    rewrite <- Hfilled, take_take, Nat.min_l in E by lia. done. }
  assert (Hrest : take (length rest) (drop (length msg + 1) (in_buf cs)) = rest).
  { rewrite take_drop_commute.
    replace (length msg + 1 + length rest)%nat with (Z.to_nat (in_len cs)) by lia.
    rewrite Hfilled, (cons_middle newline msg rest), (assoc_L app).
    apply drop_app_length'. rewrite length_app. simpl. lia. }
  unfold query_handler_handle_message, filled.
  rewrite Hfilled, newline_index_app by done.
  rewrite load_bytes_Some by lia.
  rewrite Nat2Z.id, drop_0, Hmsg. cbn [mbind option_bind].
  destruct (strcmp_eq msg "status") eqn:Hstatus.
  - destruct (status_response_fits ps Hps) as (status & Hjson & _ & Hslen).
    rewrite Hjson. cbn [mbind option_bind].
    rewrite store_bytes_Some by (rewrite ?length_bytes_of; lia).
    cbn [mbind option_bind in_buf in_len Z.to_nat take app].
    unfold memmove. rewrite load_bytes_Some by lia.
    replace (Z.to_nat (in_len cs - (Z.of_nat (length msg) + 1))) with (length rest) by lia.
    replace (Z.to_nat (Z.of_nat (length msg) + 1)) with (length msg + 1)%nat by lia.
    rewrite Hrest. cbn [mbind option_bind].
    rewrite store_bytes_Some by lia.
    cbn [mbind option_bind Z.to_nat take app].
    eexists. split; [done|]. cbn [in_len in_buf in_ready out_len out].
    split_and!; try done; try lia.
    + split; cbn [in_buf out]; unfold QUERY_HANDLER_MAX_CLIENT_BUFFER.
      * rewrite !length_app, length_take, length_drop. lia.
      * rewrite !length_app, length_take, length_bytes_of, length_drop. lia.
    + exists status. by rewrite length_bytes_of.
  - assert (Hcs1 : (if strcmp_eq msg "info" then Some cs else Some cs) = Some cs)
      by (by destruct (strcmp_eq msg "info")).
    rewrite Hcs1. cbn [mbind option_bind].
    unfold memmove. rewrite load_bytes_Some by lia.
    replace (Z.to_nat (in_len cs - (Z.of_nat (length msg) + 1))) with (length rest) by lia.
    replace (Z.to_nat (Z.of_nat (length msg) + 1)) with (length msg + 1)%nat by lia.
    rewrite Hrest. cbn [mbind option_bind].
    rewrite store_bytes_Some by lia.
    cbn [mbind option_bind Z.to_nat take app].
    eexists. split; [done|]. cbn [in_len in_buf in_ready out_len out].
    split_and!; try done; try lia.
    split; cbn [in_buf out]; [|done]. unfold QUERY_HANDLER_MAX_CLIENT_BUFFER.
    rewrite !length_app, length_take, length_drop. lia.
Qed.

Lemma filled_front (rest tail : list ascii) len :
  len = Z.of_nat (length rest) -> take (Z.to_nat len) (rest ++ tail) = rest.
Proof. intros ->. rewrite Nat2Z.id. apply take_app_length. Qed.

(** *** Every message that is ready *)

(** The loop ends when [in_len] passes are allowed.  Afterwards no line
    feed is left among the filled bytes, which are the end of what was
    there; and the output buffer is as it was, or holds one response to
    [status] at its start, however many were asked for. *)
Lemma handle_ready_messages_drains ps fuel : forall cs,
  tracker_state ps -> client_sized cs ->
  in_len cs <= QUERY_HANDLER_MAX_CLIENT_BUFFER ->
  (Z.to_nat (in_len cs) <= fuel)%nat ->
  exists cs',
    handle_ready_messages fuel ps cs = Some cs'
    /\ query_handler_message_ready cs' = false
    /\ client_sized cs'
    /\ in_len cs' <= in_len cs
    /\ (query_handler_message_ready cs = true -> 0 <= in_len cs')
    /\ (exists handled, filled cs = handled ++ filled cs')
    /\ ((out_len cs' = out_len cs /\ out cs' = out cs)
        \/ (exists status,
              tracker_get_status_json ps = Some status
              /\ out_len cs' = strlen status
              /\ out cs' =
                   bytes_of status ++ drop (String.length status) (out cs))).
Proof.
  induction fuel as [|fuel IH]; intros cs Hps Hsz Hmax Hfuel;
    cbn [handle_ready_messages];
    destruct (query_handler_message_ready cs) eqn:Hready.
  - apply message_ready_true in Hready as (msg & rest & Hf & _).
    apply (f_equal length) in Hf. unfold filled in Hf.
    rewrite length_take, length_app in Hf. simpl in Hf. exfalso. lia.
  - exists cs. split_and!; try done; try lia; [by exists []|by left].
  - apply message_ready_true in Hready as (msg & rest & Hf & Hno).
    destruct (handle_message_framed ps cs msg rest Hps Hsz Hmax Hf Hno)
      as (cs1 & E1 & Hlen1 & Hbuf1 & _ & Hsz1 & Hout1).
    rewrite E1. cbn [mbind option_bind].
    assert (Hin : in_len cs = Z.of_nat (length msg) + 1 + Z.of_nat (length rest)).
    { pose proof (f_equal length Hf) as Hl. unfold filled in Hl.
      rewrite length_take, length_app in Hl. simpl in Hl.
      destruct Hsz as [Hsz _]. unfold QUERY_HANDLER_MAX_CLIENT_BUFFER in *. lia. }
    assert (Hf1 : filled cs1 = rest).
    { unfold filled. rewrite Hbuf1. by apply filled_front. }
    destruct (IH cs1 Hps Hsz1) as (cs' & E & Hnr & Hsz' & Hle & Hnn & [h Hh] & Hout');
      [lia|lia|].
    exists cs'. rewrite E. split_and!; try done.
    + lia.
    + intros _. destruct (query_handler_message_ready cs1) eqn:Hr1; [by apply Hnn|].
      revert E. destruct fuel; cbn [handle_ready_messages]; rewrite Hr1;
        intros [= <-]; lia.
    + exists (msg ++ newline :: h). rewrite Hf, <- Hf1, Hh.
      by rewrite <- (assoc_L app), <- app_comm_cons.
    + destruct (strcmp_eq msg "status").
      * destruct Hout1 as (status & Hjson & Hl1 & Hb1). right. exists status.
        split; [done|].
        destruct Hout' as [[-> ->]|(status' & Hjson' & -> & ->)]; [done|].
        rewrite Hjson in Hjson'. injection Hjson' as <-. split; [done|].
        rewrite Hb1. f_equal.
        by rewrite drop_app_length' by (by rewrite length_bytes_of).
      * destruct Hout1 as [<- <-]. done.
  - exists cs. split_and!; try done; try lia; [by exists []|by left].
Qed.

(** *** Reading, writing and handling for one client *)

Lemma receive_incoming_skipped pfd cs rd :
  flag_set (revents pfd) POLLIN = false ->
  receive_incoming pfd cs rd = Some (Next (pfd, cs)).
Proof. unfold receive_incoming. by intros ->. Qed.

(** A failed [read] leaves [-1] in [in_len]. *)
Lemma receive_incoming_error pfd cs :
  flag_set (revents pfd) POLLIN = true ->
  receive_incoming pfd cs sock_error =
    Some (Continue (pfd, {| in_buf := in_buf cs; in_len := -1;
                            in_ready := in_ready cs;
                            out := out cs; out_len := out_len cs |})).
Proof. unfold receive_incoming. by intros ->. Qed.

(** A [read] that meets bytes copies them after the bytes already
    buffered, and stores the number read in [in_len]. *)
Lemma receive_incoming_data pfd cs avail :
  client_sized cs -> 0 <= in_len cs <= QUERY_HANDLER_MAX_CLIENT_BUFFER ->
  flag_set (revents pfd) POLLIN = true ->
  let got := take (Z.to_nat (QUERY_HANDLER_MAX_CLIENT_BUFFER - in_len cs)) avail in
  exists pfd' cs',
    receive_incoming pfd cs (sock_data avail) = Some (Next (pfd', cs'))
    /\ in_len cs' = Z.of_nat (length got)
    /\ in_buf cs' = filled cs ++ got
                      ++ drop (Z.to_nat (in_len cs) + length got) (in_buf cs)
    /\ out cs' = out cs /\ out_len cs' = out_len cs
    /\ client_sized cs'
    /\ fd pfd' = (if decide (got = []) then -1 else fd pfd).
Proof.
  intros [Hin Hout] Hlen Hflag got. unfold QUERY_HANDLER_MAX_CLIENT_BUFFER in *.
  assert (Hgot : Z.of_nat (length got) <= 1024 - in_len cs).
  { subst got. rewrite length_take. lia. }
  unfold receive_incoming. rewrite Hflag. cbn [sys_read].
  unfold QUERY_HANDLER_MAX_CLIENT_BUFFER. fold got.
  rewrite store_bytes_Some by lia. cbn [mbind option_bind].
  assert (Hsz : length (take (Z.to_nat (in_len cs)) (in_buf cs) ++ got
                        ++ drop (Z.to_nat (in_len cs) + length got) (in_buf cs))
                = Z.to_nat 1024).
  { rewrite !length_app, length_take, length_drop. lia. }
  destruct (Z.eqb_spec (Z.of_nat (length got)) 0) as [H0|H0].
  - do 2 eexists. split; [done|]. cbn [in_len in_buf out out_len fd].
    split_and!; try done.
    destruct (decide (got = [])) as [_|Hne]; [done|].
    destruct got; [done|simpl in H0; lia].
  - destruct (Z.eqb_spec (Z.of_nat (length got)) (-1)); [lia|].
    do 2 eexists. split; [done|].
    destruct (query_handler_message_ready _);
      cbn [in_len in_buf out out_len fd];
      (split_and!; try done;
       destruct (decide (got = [])) as [E|_]; [rewrite E in H0; done|done]).
Qed.

(** Writing keeps the bounds. *)
Lemma send_outgoing_bounds pfd cs wr :
  client_sized cs -> 0 <= out_len cs <= QUERY_HANDLER_MAX_CLIENT_BUFFER ->
  exists r pfd' cs',
    send_outgoing pfd cs wr = Some r
    /\ (r = Next (pfd', cs') \/ r = Continue (pfd', cs'))
    /\ in_len cs' = in_len cs /\ in_buf cs' = in_buf cs
    /\ client_sized cs'
    /\ 0 <= out_len cs' <= out_len cs
    /\ fd pfd' = fd pfd.
Proof.
  intros [Hin Hout] Hlen. unfold QUERY_HANDLER_MAX_CLIENT_BUFFER in *.
  unfold send_outgoing. destruct (flag_set (revents pfd) POLLOUT).
  2:{ do 3 eexists. split; [done|]. split; [by left|]. split_and!; try done; lia. }
  assert (Hw : sys_write (out_len cs) wr = -1
               \/ 0 <= sys_write (out_len cs) wr <= out_len cs).
  { destruct wr; cbn [sys_write]; [by left|right; lia]. }
  destruct (Z.eqb_spec (sys_write (out_len cs) wr) (-1)).
  { do 3 eexists. split; [done|]. split; [by right|]. split_and!; try done; lia. }
  destruct Hw as [?|Hw]; [done|].
  destruct (Z.eqb_spec (sys_write (out_len cs) wr) (out_len cs)).
  { do 3 eexists. split; [done|]. split; [by left|].
    cbn [in_len in_buf out_len fd]. split_and!; try done; lia. }
  destruct (Z.ltb_spec (sys_write (out_len cs) wr) (out_len cs)); [|lia].
  unfold memmove. rewrite load_bytes_Some by lia. cbn [mbind option_bind].
  rewrite store_bytes_Some by (rewrite ?length_take, ?length_drop; lia).
  cbn [mbind option_bind].
  do 3 eexists. split; [done|]. split; [by left|].
  cbn [in_len in_buf out_len out fd]. split_and!; try done; try lia.
  split; cbn [in_buf out]; [done|]. unfold QUERY_HANDLER_MAX_CLIENT_BUFFER.
  rewrite !length_app, !length_take, !length_drop. lia.
Qed.

(** The handling of what is ready keeps the bounds. *)
Lemma handle_complete_bounds ps pfd cs :
  tracker_state ps -> client_sized cs -> lengths_bounded cs ->
  exists pfd' cs',
    handle_complete ps pfd cs = Some (pfd', cs')
    /\ client_sized cs' /\ lengths_bounded cs'
    /\ query_handler_message_ready cs' = false
    /\ fd pfd' = fd pfd.
Proof.
  intros Hps Hsz [Hil Hol]. unfold handle_complete.
  destruct (query_handler_message_ready cs) eqn:Hready.
  - destruct (handle_ready_messages_drains ps (handle_fuel cs) cs Hps Hsz)
      as (cs' & E & Hnr & Hsz' & Hle & Hnn & _ & Hout); [lia|done|].
    rewrite E. cbn [mbind option_bind]. do 2 eexists. split; [done|].
    split_and!; [done| |done|by destruct (0 <? out_len cs')].
    split; [specialize (Hnn Hready); lia|].
    destruct Hout as [[-> _]|(status & Hjson & -> & _)]; [done|].
    destruct (status_response_fits ps Hps) as (status' & Hjson' & _ & Hl).
    rewrite Hjson in Hjson'. injection Hjson' as <-.
    unfold strlen, QUERY_HANDLER_MAX_CLIENT_BUFFER. lia.
  - do 2 eexists. split; [done|]. done.
Qed.

(** One pass of the loop body keeps the sizes and the bounds when its
    [read], if any, does not fail. *)
Lemma serve_client_bounds ps pfd cs rd wr :
  tracker_state ps -> client_sized cs -> lengths_bounded cs ->
  rd <> sock_error ->
  exists pfd' cs',
    serve_client ps pfd cs rd wr = Some (pfd', cs')
    /\ client_sized cs' /\ lengths_bounded cs'
    /\ (fd pfd' = fd pfd \/ fd pfd' = -1).
Proof.
  intros Hps Hsz [Hil Hol] Hrd. unfold serve_client.
  destruct (flag_set (revents pfd) (Z.lor POLLIN POLLOUT)); cbn [negb].
  2:{ do 2 eexists. split; [done|]. split_and!; try done. by left. }
  assert (Hrecv : exists pfd1 cs1,
             receive_incoming pfd cs rd = Some (Next (pfd1, cs1))
             /\ client_sized cs1 /\ lengths_bounded cs1
             /\ (fd pfd1 = fd pfd \/ fd pfd1 = -1)).
  { destruct (flag_set (revents pfd) POLLIN) eqn:Hflag.
    - destruct rd as [|avail]; [done|].
      destruct (receive_incoming_data pfd cs avail Hsz Hil Hflag)
        as (pfd1 & cs1 & E & Hl1 & _ & _ & Ho1 & Hsz1 & Hfd1).
      exists pfd1, cs1. split; [done|]. split; [done|]. split.
      + split; [|by rewrite Ho1]. rewrite Hl1, length_take.
        unfold QUERY_HANDLER_MAX_CLIENT_BUFFER in *. lia.
      + rewrite Hfd1. destruct (decide _); [by right|by left].
    - exists pfd, cs. split; [by apply receive_incoming_skipped|].
      split_and!; try done. by left. }
  destruct Hrecv as (pfd1 & cs1 & -> & Hsz1 & [Hil1 Hol1] & Hfd1).
  cbn [mbind option_bind].
  destruct (send_outgoing_bounds pfd1 cs1 wr Hsz1 Hol1)
    as (r & pfd2 & cs2 & -> & Hr & Hl2 & _ & Hsz2 & Ho2 & Hfd2).
  cbn [mbind option_bind].
  assert (Hb2 : lengths_bounded cs2) by (split; [by rewrite Hl2|lia]).
  destruct Hr as [->| ->].
  - destruct (handle_complete_bounds ps pfd2 cs2 Hps Hsz2 Hb2)
      as (pfd3 & cs3 & -> & Hsz3 & Hb3 & _ & Hfd3).
    do 2 eexists. split; [done|]. split_and!; try done.
    rewrite Hfd3, Hfd2. done.
  - do 2 eexists. split; [done|]. split_and!; try done. by rewrite Hfd2.
Qed.

(** *** The table of connections *)

Lemma count_clients_shift fds : forall c,
  count_clients fds c = c + count_clients fds 0.
Proof.
  induction fds as [|pfd fds IH]; intros c; cbn [count_clients]; [lia|].
  rewrite (IH (if 0 <=? fd pfd then c + 1 else c)).
  rewrite (IH (if 0 <=? fd pfd then 0 + 1 else 0)).
  destruct (0 <=? fd pfd); lia.
Qed.

Lemma count_clients_cons pfd fds :
  count_clients (pfd :: fds) 0 =
    (if 0 <=? fd pfd then 1 else 0) + count_clients fds 0.
Proof.
  cbn [count_clients]. rewrite count_clients_shift.
  destruct (0 <=? fd pfd); lia.
Qed.

Lemma count_clients_bounds fds :
  0 <= count_clients fds 0 <= Z.of_nat (length fds).
Proof.
  induction fds as [|pfd fds IH]; [simpl; lia|].
  rewrite count_clients_cons. cbn [length].
  destruct (0 <=? fd pfd); lia.
Qed.

(** Every slot is taken exactly when the count is the size of the table. *)
Lemma count_clients_full fds :
  Forall (fun pfd => -1 <= fd pfd) fds ->
  count_clients fds 0 = Z.of_nat (length fds) ->
  Forall (fun pfd => 0 <= fd pfd) fds.
Proof.
  induction fds as [|pfd fds IH]; intros Hok Hc; [constructor|].
  apply Forall_cons in Hok as [Hp Hok].
  rewrite count_clients_cons in Hc. cbn [length] in Hc.
  pose proof (count_clients_bounds fds).
  destruct (Z.leb_spec 0 (fd pfd)); [|lia].
  apply Forall_cons_2; [done|]. apply IH; [done|lia].
Qed.

(** Putting a descriptor into a slot changes the count by the slot's
    share of it. *)
Lemma count_clients_insert fds i old new :
  fds !! i = Some old ->
  count_clients (<[i := new]> fds) 0 =
    count_clients fds 0
    - (if 0 <=? fd old then 1 else 0) + (if 0 <=? fd new then 1 else 0).
Proof.
  revert i. induction fds as [|pfd fds IH]; intros i Hi; [done|].
  destruct i as [|i]; cbn in Hi.
  - injection Hi as ->. cbn [insert list_insert]. rewrite !count_clients_cons. lia.
  - change (<[S i := new]> (pfd :: fds)) with (pfd :: <[i := new]> fds).
    rewrite !count_clients_cons, (IH i Hi). lia.
Qed.

Lemma free_slot_Some fds : forall from i,
  free_slot fds from = Some i ->
  exists k pfd, i = (from + k)%nat /\ fds !! k = Some pfd /\ fd pfd = -1.
Proof.
  induction fds as [|pfd fds IH]; intros from i; [done|]. cbn [free_slot].
  destruct (Z.eqb_spec (fd pfd) (-1)) as [E|_].
  - intros [= <-]. exists O, pfd. split_and!; [lia|done|done].
  - intros (k & q & -> & Hk & Hq)%IH. exists (S k), q. split_and!; [lia|done|done].
Qed.

Lemma free_slot_None fds : forall from,
  free_slot fds from = None -> Forall (fun pfd => fd pfd <> -1) fds.
Proof.
  induction fds as [|pfd fds IH]; intros from; [constructor|]. cbn [free_slot].
  destruct (Z.eqb_spec (fd pfd) (-1)) as [E|Hne]; [done|].
  intros H. apply Forall_cons_2; [done|]. by apply (IH (S from)).
Qed.

(** Below capacity there is a free slot, and the new connection goes
    into it. *)
Lemma store_connection_below s c :
  table_ok s -> 0 <= c ->
  query_handler_current_client_count s < Z.of_nat QUERY_HANDLER_MAX_CLIENTS ->
  exists i pfd,
    conn_poll_fds s !! i = Some pfd /\ fd pfd = -1
    /\ query_handler_store_connection c s =
         {| conn_poll_fds :=
              <[i := {| fd := c; events := POLLIN; revents := 0 |}]>
                (conn_poll_fds s);
            client_states := <[i := zero_client]> (client_states s) |}
    /\ query_handler_current_client_count (query_handler_store_connection c s)
         = query_handler_current_client_count s + 1.
Proof.
  intros (Hlen & _ & Hfds) Hc Hcount.
  unfold query_handler_store_connection, query_handler_current_client_count in *.
  destruct (free_slot (conn_poll_fds s) 0) as [i|] eqn:Hfree.
  - destruct (free_slot_Some _ _ _ Hfree) as (k & pfd & -> & Hk & Hfd).
    exists k, pfd. cbn [Nat.add conn_poll_fds]. split_and!; try done.
    rewrite (count_clients_insert _ _ pfd) by done. cbn [fd]. rewrite Hfd.
    destruct (Z.leb_spec 0 c); [|lia]. simpl. lia.
  - exfalso. apply free_slot_None in Hfree.
    assert (Hall : Forall (fun pfd => 0 <= fd pfd) (conn_poll_fds s)).
    { apply Forall_forall. intros pfd Hin.
      rewrite Forall_forall in Hfds. rewrite Forall_forall in Hfree.
      specialize (Hfds pfd Hin). specialize (Hfree pfd Hin). simpl in *. lia. }
    assert (count_clients (conn_poll_fds s) 0 = Z.of_nat (length (conn_poll_fds s))).
    { clear -Hall. induction Hall as [|pfd fds Hp _ IH]; [done|].
      rewrite count_clients_cons, IH. cbn [length].
      destruct (Z.leb_spec 0 (fd pfd)); lia. }
    lia.
Qed.

Lemma alter_as_insert {A} (f : A -> A) (l : list A) i x :
  l !! i = Some x -> alter f i l = <[i := f x]> l.
Proof.
  revert i. induction l as [|y l IH]; intros i Hi; [done|].
  destruct i as [|i]; cbn in Hi.
  - by injection Hi as ->.
  - cbn. f_equal. by apply IH.
Qed.

Lemma init_server_ok :
  table_ok init_server /\ query_handler_current_client_count init_server = 0.
Proof.
  split; [|reflexivity]. split; [reflexivity|]. split; [reflexivity|].
  unfold init_server. cbn [conn_poll_fds]. apply Forall_replicate. simpl. lia.
Qed.

(** A connection that is closed gives its slot back. *)
Lemma close_slot_count s i pfd :
  conn_poll_fds s !! i = Some pfd -> 0 <= fd pfd ->
  query_handler_current_client_count (close_slot i s)
    = query_handler_current_client_count s - 1.
Proof.
  intros Hi Hfd. unfold query_handler_current_client_count, close_slot.
  cbn [conn_poll_fds].
  rewrite (alter_as_insert _ _ _ _ Hi).
  erewrite count_clients_insert by done. cbn [fd].
  destruct (Z.leb_spec 0 (fd pfd)); [|lia]. simpl. lia.
Qed.

(** The closing of a slot is what the loop does when [read] returns 0. *)
Lemma receive_incoming_closed pfd cs :
  client_sized cs -> 0 <= in_len cs <= QUERY_HANDLER_MAX_CLIENT_BUFFER ->
  flag_set (revents pfd) POLLIN = true ->
  exists cs',
    receive_incoming pfd cs (sock_data []) =
      Some (Next ({| fd := -1; events := events pfd;
                     revents := clear_flag (revents pfd) POLLIN |}, cs'))
    /\ in_len cs' = 0.
Proof.
  intros [Hin Hout] Hlen Hflag. unfold receive_incoming. rewrite Hflag.
  cbn [sys_read]. rewrite take_nil.
  unfold QUERY_HANDLER_MAX_CLIENT_BUFFER in *.
  rewrite store_bytes_Some by (simpl; lia). cbn [mbind option_bind length].
  eexists. split; [done|]. done.
Qed.

(** *** A whole tick *)

(** No stage opens a descriptor: the loop body leaves the descriptor of
    the slot as it was or at [-1]. *)
Lemma receive_incoming_fd pfd cs rd r :
  receive_incoming pfd cs rd = Some r ->
  fd (payload r).1 = fd pfd \/ fd (payload r).1 = -1.
Proof.
  unfold receive_incoming. destruct (flag_set (revents pfd) POLLIN).
  2:{ intros [= <-]. by left. }
  destruct (sys_read _ _ _ rd) as [[buf' read_count]|]; [|done].
  cbn [mbind option_bind].
  destruct (read_count =? 0); [intros [= <-]; by right|].
  destruct (read_count =? -1); intros [= <-]; by left.
Qed.

Lemma send_outgoing_fd pfd cs wr r :
  send_outgoing pfd cs wr = Some r -> fd (payload r).1 = fd pfd.
Proof.
  unfold send_outgoing. destruct (flag_set (revents pfd) POLLOUT).
  2:{ by intros [= <-]. }
  destruct (sys_write (out_len cs) wr =? -1); [by intros [= <-]|].
  destruct (sys_write (out_len cs) wr =? out_len cs); [by intros [= <-]|].
  destruct (sys_write (out_len cs) wr <? out_len cs); [|by intros [= <-]].
  destruct (memmove _ _ _ _); [|done]. by intros [= <-].
Qed.

Lemma handle_complete_fd ps pfd cs r :
  handle_complete ps pfd cs = Some r -> fd r.1 = fd pfd.
Proof.
  unfold handle_complete. destruct (query_handler_message_ready cs).
  2:{ by intros [= <-]. }
  destruct (handle_ready_messages _ _ _) as [cs'|]; [|done].
  cbn [mbind option_bind]. intros [= <-].
  by destruct (0 <? out_len cs').
Qed.

Lemma serve_client_fd ps pfd cs rd wr r :
  serve_client ps pfd cs rd wr = Some r ->
  fd r.1 = fd pfd \/ fd r.1 = -1.
Proof.
  unfold serve_client.
  destruct (flag_set (revents pfd) (Z.lor POLLIN POLLOUT)); cbn [negb].
  2:{ intros [= <-]. by left. }
  destruct (receive_incoming pfd cs rd) as [r1|] eqn:E1; [|done].
  apply receive_incoming_fd in E1. cbn [mbind option_bind].
  destruct r1 as [[pfd1 cs1]|[pfd1 cs1]]; cbn [payload fst] in E1.
  2:{ by intros [= <-]. }
  destruct (send_outgoing pfd1 cs1 wr) as [r2|] eqn:E2; [|done].
  apply send_outgoing_fd in E2. cbn [mbind option_bind].
  destruct r2 as [[pfd2 cs2]|[pfd2 cs2]]; cbn [payload fst] in E2.
  - intros E3%handle_complete_fd. rewrite E3, E2. done.
  - intros [= <-]. cbn [fst]. by rewrite E2.
Qed.

(** The loop over the clients keeps the table in order and takes no new
    connection. *)
Lemma serve_clients_table ps io n : forall from s s',
  table_ok s ->
  serve_clients ps io from n s = Some s' ->
  table_ok s'
  /\ query_handler_current_client_count s'
     <= query_handler_current_client_count s.
Proof.
  induction n as [|n IH]; intros from s s' Hok; cbn [serve_clients].
  { intros [= <-]. split; [done|lia]. }
  destruct (conn_poll_fds s !! from) as [pfd|] eqn:Hpfd; [|done].
  destruct (client_states s !! from) as [cs|] eqn:Hcs; [|done].
  cbn [mbind option_bind].
  destruct (serve_client ps pfd cs _ _) as [[pfd' cs']|] eqn:E; [|done].
  cbn [mbind option_bind]. apply serve_client_fd in E. cbn [fst] in E.
  destruct Hok as (Hlen & Hlen' & Hfds).
  assert (Hpfd_ok : -1 <= fd pfd).
  { rewrite Forall_forall in Hfds. apply Hfds. by eapply list_elem_of_lookup_2. }
  intros Hrest. apply IH in Hrest as [Hok' Hle].
  - split; [done|]. etrans; [exact Hle|].
    unfold query_handler_current_client_count. cbn [conn_poll_fds].
    rewrite (count_clients_insert _ _ pfd) by done.
    destruct E as [-> | ->]; destruct (0 <=? fd pfd); simpl; lia.
  - split; [|split]; cbn [conn_poll_fds client_states].
    + by rewrite length_insert.
    + by rewrite length_insert.
    + apply Forall_insert; [done|]. destruct E as [-> | ->]; lia.
Qed.

Lemma sys_poll_fd fds io : map fd (sys_poll fds io) = map fd fds.
Proof.
  unfold sys_poll. apply list_eq. intros i.
  rewrite !list_lookup_fmap, list_lookup_imap.
  by destruct (fds !! i).
Qed.

Lemma count_clients_fd fds fds' :
  map fd fds = map fd fds' -> count_clients fds 0 = count_clients fds' 0.
Proof.
  revert fds'. induction fds as [|pfd fds IH]; intros [|pfd' fds'] E;
    try discriminate; [done|].
  injection E as Ep E. rewrite !count_clients_cons, Ep, (IH fds' E). done.
Qed.

Lemma accept_incoming_table s waiting :
  table_ok s -> Forall (fun c => -1 <= c) waiting ->
  table_ok (accept_incoming s waiting).1.
Proof.
  intros Hok Hwait. unfold accept_incoming. destruct waiting as [|c rest]; [done|].
  apply Forall_cons in Hwait as [Hc _].
  destruct (Z.ltb_spec (query_handler_current_client_count s)
              (Z.of_nat QUERY_HANDLER_MAX_CLIENTS)) as [Hlt|Hge]; [|done].
  destruct (Z.eqb_spec c (-1)) as [->|Hne]; [done|]. cbn [fst].
  destruct (store_connection_below s c Hok) as (j & free & Hj & _ & -> & _);
    [lia|done|].
  destruct Hok as (Hlen & Hlen' & Hfds).
  split; [|split]; cbn [conn_poll_fds client_states].
  - by rewrite length_insert.
  - by rewrite length_insert.
  - apply Forall_insert; [done|]. cbn [fd]. lia.
Qed.

(** One call of [query_handler_run]: the table stays in order with at
    most sixteen connections, at most one connection is taken from the
    backlog, and none unless fewer than sixteen slots were taken. *)
Lemma query_handler_run_table ps s waiting io s' waiting' :
  table_ok s -> Forall (fun c => -1 <= c) waiting ->
  query_handler_run ps s waiting io = Some (s', waiting') ->
  table_ok s'
  /\ 0 <= query_handler_current_client_count s'
       <= Z.of_nat QUERY_HANDLER_MAX_CLIENTS
  /\ (waiting' = waiting
      \/ (query_handler_current_client_count s
            < Z.of_nat QUERY_HANDLER_MAX_CLIENTS
          /\ exists c, waiting = c :: waiting')).
Proof.
  intros Hok Hwait. unfold query_handler_run.
  destruct (accept_incoming s waiting) as [s1 waiting1] eqn:Hacc.
  assert (Hok1 : table_ok s1 /\
            (waiting1 = waiting
             \/ (query_handler_current_client_count s
                   < Z.of_nat QUERY_HANDLER_MAX_CLIENTS
                 /\ exists c, waiting = c :: waiting1))).
  { revert Hacc. unfold accept_incoming. destruct waiting as [|c rest].
    { intros [= <- <-]. split; [done|by left]. }
    apply Forall_cons in Hwait as [Hc _].
    destruct (Z.ltb_spec (query_handler_current_client_count s)
                (Z.of_nat QUERY_HANDLER_MAX_CLIENTS)) as [Hlt|Hge].
    2:{ intros [= <- <-]. split; [done|by left]. }
    destruct (Z.eqb_spec c (-1)) as [->|Hne]; intros [= <- <-].
    { split; [done|]. right. eauto. }
    split; [|right; eauto].
    destruct (store_connection_below s c Hok) as (j & free & Hj & _ & -> & _);
      [lia|done|].
    destruct Hok as (Hlen & Hlen' & Hfds).
    split; [|split]; cbn [conn_poll_fds client_states].
    - by rewrite length_insert.
    - by rewrite length_insert.
    - apply Forall_insert; [done|]. cbn [fd]. lia. }
  destruct Hok1 as [Hok1 Hwaiting].
  set (s2 := {| conn_poll_fds := sys_poll (conn_poll_fds s1) io;
                client_states := client_states s1 |}).
  assert (Hok2 : table_ok s2).
  { destruct Hok1 as (Hlen & Hlen' & Hfds).
    split; [|split]; cbn [s2 conn_poll_fds client_states].
    - rewrite <- Hlen, <- (length_map fd), sys_poll_fd. by rewrite length_map.
    - done.
    - apply Forall_fmap in Hfds. apply (Forall_fmap fd (fun z => -1 <= z)).
      by rewrite sys_poll_fd. }
  assert (Hbound : forall t, table_ok t ->
            0 <= query_handler_current_client_count t
              <= Z.of_nat QUERY_HANDLER_MAX_CLIENTS).
  { intros t (Ht & _). unfold query_handler_current_client_count.
    rewrite <- Ht. apply count_clients_bounds. }
  destruct (existsb _ _).
  - destruct (serve_clients ps io 0 QUERY_HANDLER_MAX_CLIENTS s2) as [s3|] eqn:E;
      [|done].
    cbn [mbind option_bind]. intros [= <- <-].
    apply serve_clients_table in E as [Hok3 _]; [|done].
    split; [done|]. split; [by apply Hbound|done].
  - intros [= <- <-]. split; [done|]. split; [by apply Hbound|done].
Qed.

End QueryHandlerFacts.

(** * The tracker: resets and accumulation *)

Import CInt Text SafetyTracker QueryHandler Spec States.
Import CIntFacts TextFacts SafetyTrackerFacts QueryHandlerFacts.

(** C1: one call of [tracker_provide_idle_seconds] treats every window
    on its own, whatever the other windows hold.  For a window whose
    accumulator is not negative: the accumulator becomes 0 when the
    early reset applies ([0 < active_seconds < limit_seconds],
    [0 < reset_seconds < idle_seconds]); otherwise it becomes 0 when
    [break_seconds < idle_seconds], over the limit or not; otherwise it
    stays.  The configuration of the window is never touched. *)
Theorem idle_reset_priority (idle_seconds : Z) (ps : list tracking_period)
    (i : nat) (p : tracking_period) :
  0 <= idle_seconds ->
  ps !! i = Some p ->
  0 <= active_seconds p ->
  exists p',
    tracker_provide_idle_seconds idle_seconds ps !! i = Some p'
    /\ config p' = config p
    /\ (early_reset idle_seconds p -> active_seconds p' = 0)
    /\ (~ early_reset idle_seconds p -> break_reset idle_seconds p ->
        active_seconds p' = 0)
    /\ (~ early_reset idle_seconds p -> ~ break_reset idle_seconds p ->
        active_seconds p' = active_seconds p).
Proof.
  intros _ Hi Hnn. exists (idle_period idle_seconds p).
  rewrite provide_idle_lookup, Hi. split; [done|].
  split; [apply idle_period_config|].
  destruct (idle_period_cases idle_seconds p)
    as [(E & Hpos & Hwhy)|(E & Hne & Hnb)].
  - split_and!; intros; [done|done|]. destruct Hwhy; done.
  - rewrite E. split_and!; intros; [done| |done].
    destruct (decide (active_seconds p = 0)) as [->|]; [done|].
    exfalso. apply Hnb; [lia|done].
Qed.

(** The three cases of the micro window (reset 15, break 30, limit 180):
    50 active seconds and 16 idle seconds give 0; 200 and 16 stay 200;
    200 and 31 give 0. *)
Lemma idle_reset_priority_witness :
  (exists p', tracker_provide_idle_seconds 16 (windows 50 50 50) !! 0%nat = Some p'
              /\ active_seconds p' = 0)
  /\ (exists p', tracker_provide_idle_seconds 16 (windows 200 200 200) !! 0%nat = Some p'
                 /\ active_seconds p' = 200)
  /\ (exists p', tracker_provide_idle_seconds 31 (windows 200 200 200) !! 0%nat = Some p'
                 /\ active_seconds p' = 0).
Proof.
  split; [|split].
  - destruct (idle_reset_priority 16 (windows 50 50 50) 0
                {| config := micro_config; active_seconds := 50 |})
      as (p' & E & _ & Hearly & _); [lia|reflexivity|simpl; lia|].
    exists p'. split; [exact E|]. apply Hearly.
    unfold early_reset. simpl. lia.
  - destruct (idle_reset_priority 16 (windows 200 200 200) 0
                {| config := micro_config; active_seconds := 200 |})
      as (p' & E & _ & _ & _ & Hstay); [lia|reflexivity|simpl; lia|].
    exists p'. split; [exact E|]. apply Hstay.
    + unfold early_reset. simpl. lia.
    + unfold break_reset. simpl. lia.
  - destruct (idle_reset_priority 31 (windows 200 200 200) 0
                {| config := micro_config; active_seconds := 200 |})
      as (p' & E & _ & _ & Hbreak & _); [lia|reflexivity|simpl; lia|].
    exists p'. split; [exact E|]. apply Hbreak.
    + unfold early_reset. simpl. lia.
    + unfold break_reset. simpl. lia.
Defined.

(** C3: in a run of calls of [tracker_provide_active_seconds] with
    positive deltas, every call adds exactly its delta to the
    accumulator of every window, so no accumulator ever goes down; this
    while the totals stay within [int]. *)
Theorem active_seconds_accumulate (deltas : list Z) (ps : list tracking_period) :
  Forall (fun n => 0 < n) deltas ->
  Forall (fun p => in_range (active_seconds p)
                   /\ active_seconds p + sum_list deltas <= INT_MAX) ps ->
  forall before n after, deltas = before ++ n :: after ->
  let earlier := provide_active_run before ps in
  let later := tracker_provide_active_seconds n earlier in
  later = provide_active_run (before ++ [n]) ps
  /\ length later = length earlier
  /\ forall i p, earlier !! i = Some p ->
       exists p', later !! i = Some p'
         /\ config p' = config p
         /\ active_seconds p' = active_seconds p + n
         /\ active_seconds p < active_seconds p'.
Proof.
  intros Hpos Hps before n after -> earlier later.
  apply Forall_app in Hpos as [Hbefore Hrest].
  apply Forall_cons in Hrest as [Hn Hafter].
  pose proof (sum_list_nonneg _ Hbefore) as Hsb.
  pose proof (sum_list_nonneg _ Hafter) as Hsa.
  assert (Hsum : sum_list (before ++ n :: after)
                 = sum_list before + n + sum_list after).
  { rewrite sum_list_app. unfold sum_list at 2. cbn [fold_right].
    fold (sum_list after). lia. }
  rewrite Hsum in Hps.
  assert (Hearlier : earlier =
            map (fun p => set_active_seconds p (active_seconds p + sum_list before)) ps).
  { apply provide_active_run_exact; [done|].
    eapply Forall_impl; [exact Hps|]. intros p [Hr Hmax]. split; [done|]. lia. }
  split; [by rewrite provide_active_run_snoc|].
  subst later. rewrite provide_active_map. split; [by rewrite length_map|].
  intros i p Hi. exists (active_period n p).
  rewrite list_lookup_fmap, Hi. split; [done|]. split; [done|].
  rewrite Hearlier, list_lookup_fmap in Hi.
  destruct (ps !! i) as [p0|] eqn:Hp0; [|done]. injection Hi as <-.
  rewrite Forall_forall in Hps.
  destruct (Hps p0) as [[Hlo Hhi] Hmax]; [by eapply list_elem_of_lookup_2|].
  unfold INT_MIN, INT_MAX in *.
  rewrite active_period_exact.
  - unfold set_active_seconds. cbn [active_seconds]. lia.
  - unfold in_range, INT_MIN, INT_MAX, set_active_seconds. cbn [active_seconds]. lia.
Qed.

(** Three calls with 1, 2 and 3 seconds from the start: the second call
    takes every window from 1 to 3. *)
Lemma active_seconds_accumulate_witness :
  let earlier := provide_active_run [1] periods in
  let later := tracker_provide_active_seconds 2 earlier in
  later = provide_active_run ([1] ++ [2]) periods
  /\ length later = length earlier
  /\ forall i p, earlier !! i = Some p ->
       exists p', later !! i = Some p'
         /\ config p' = config p
         /\ active_seconds p' = active_seconds p + 2
         /\ active_seconds p < active_seconds p'.
Proof.
  apply (active_seconds_accumulate [1; 2; 3] periods) with (after := [3]).
  - repeat (apply Forall_cons_2; [lia|]). apply Forall_nil_2.
  - repeat (apply Forall_cons_2;
            [unfold in_range, INT_MIN, INT_MAX; simpl; lia|]).
    apply Forall_nil_2.
  - reflexivity.
Defined.

(** C7: in a run of calls of [tracker_provide_idle_seconds] with idle
    times that are not negative and never go down, every call leaves
    the accumulator of every window as it was or at 0, and never higher
    than it was. *)
Theorem idle_never_increases (idles : list Z) (ps : list tracking_period) :
  non_decreasing idles ->
  Forall (fun s => 0 <= s) idles ->
  forall before s after, idles = before ++ s :: after ->
  let earlier := provide_idle_run before ps in
  let later := tracker_provide_idle_seconds s earlier in
  later = provide_idle_run (before ++ [s]) ps
  /\ length later = length earlier
  /\ forall i p, earlier !! i = Some p ->
       exists p', later !! i = Some p'
         /\ config p' = config p
         /\ (active_seconds p' = active_seconds p \/ active_seconds p' = 0)
         /\ active_seconds p' <= active_seconds p.
Proof.
  intros _ _ before s after _ earlier later.
  split; [by rewrite provide_idle_run_snoc|].
  subst later. rewrite provide_idle_map. split; [by rewrite length_map|].
  intros i p Hi. exists (idle_period s p).
  rewrite list_lookup_fmap, Hi. split; [done|].
  split; [apply idle_period_config|]. apply idle_period_never_up.
Qed.

(** Idle times 10, 16 and 31 on windows that hold 50 seconds: the call
    with 16 follows the call with 10. *)
Lemma idle_never_increases_witness :
  let earlier := provide_idle_run [10] (windows 50 50 50) in
  let later := tracker_provide_idle_seconds 16 earlier in
  later = provide_idle_run ([10] ++ [16]) (windows 50 50 50)
  /\ length later = length earlier
  /\ forall i p, earlier !! i = Some p ->
       exists p', later !! i = Some p'
         /\ config p' = config p
         /\ (active_seconds p' = active_seconds p \/ active_seconds p' = 0)
         /\ active_seconds p' <= active_seconds p.
Proof.
  apply (idle_never_increases [10; 16; 31] (windows 50 50 50)) with (after := [31]).
  - simpl. lia.
  - repeat (apply Forall_cons_2; [lia|]). apply Forall_nil_2.
  - reflexivity.
Defined.

(** C10, as the code has it: the tracker does not look at the sign of
    its argument.  A negative idle time resets nothing, since no
    threshold that is not negative lies below it; a negative number of
    active seconds is added like any other, so every accumulator goes
    down by it. *)
Theorem negative_seconds_unchecked (n : Z) (ps : list tracking_period) :
  n < 0 ->
  Forall (fun p => 0 <= break_seconds (config p)) ps ->
  Forall (fun p => in_range (active_seconds p)
                   /\ INT_MIN <= active_seconds p + n) ps ->
  tracker_provide_idle_seconds n ps = ps
  /\ tracker_provide_active_seconds n ps =
       map (fun p => set_active_seconds p (active_seconds p + n)) ps
  /\ forall i p, ps !! i = Some p ->
       exists p', tracker_provide_active_seconds n ps !! i = Some p'
         /\ active_seconds p' = active_seconds p + n
         /\ active_seconds p' < active_seconds p.
Proof.
  intros Hn Hbreak Hps.
  assert (Hactive : tracker_provide_active_seconds n ps =
            map (fun p => set_active_seconds p (active_seconds p + n)) ps).
  { rewrite provide_active_map. apply map_ext_Forall.
    eapply Forall_impl; [exact Hps|]. intros p [[Hlo Hhi] Hmin].
    apply active_period_exact. unfold in_range, INT_MIN, INT_MAX in *. lia. }
  split; [|split; [done|]].
  - rewrite provide_idle_map. etrans; [|apply map_id]. apply map_ext_Forall.
    eapply Forall_impl; [exact Hbreak|]. intros p Hb.
    destruct (idle_period_cases n p) as [(_ & _ & [He|Hb'])|(E & _)]; [| |done].
    + exfalso. unfold early_reset in He. lia.
    + exfalso. unfold break_reset in Hb'. cbv beta in Hb. lia.
  - intros i p Hi. rewrite Hactive, list_lookup_fmap, Hi.
    eexists. split; [done|]. unfold set_active_seconds. cbn [active_seconds]. lia.
Qed.

Lemma negative_seconds_unchecked_witness :
  tracker_provide_idle_seconds (-5) (windows 10 10 10) = windows 10 10 10
  /\ tracker_provide_active_seconds (-5) (windows 10 10 10) =
       map (fun p => set_active_seconds p (active_seconds p + -5)) (windows 10 10 10)
  /\ forall i p, windows 10 10 10 !! i = Some p ->
       exists p', tracker_provide_active_seconds (-5) (windows 10 10 10) !! i = Some p'
         /\ active_seconds p' = active_seconds p + -5
         /\ active_seconds p' < active_seconds p.
Proof.
  apply (negative_seconds_unchecked (-5) (windows 10 10 10)).
  - lia.
  - repeat (apply Forall_cons_2; [simpl; lia|]). apply Forall_nil_2.
  - repeat (apply Forall_cons_2;
            [unfold in_range, INT_MIN, INT_MAX; simpl; lia|]).
    apply Forall_nil_2.
Defined.

(** C10 as it is stated does not hold: minus five active seconds are not
    turned away; they take every accumulator from 10 to 5. *)
Lemma negative_active_seconds_accepted :
  map active_seconds (tracker_provide_active_seconds (-5) (windows 10 10 10))
    = [5; 5; 5]
  /\ map active_seconds (tracker_provide_active_seconds (-5) (windows 10 10 10))
       <> map active_seconds (windows 10 10 10).
Proof. split; [reflexivity|]. vm_compute. discriminate. Qed.

(** * The status line *)

(** C2: in every state of the tracker [tracker_get_status_json] returns
    the wire line of the snapshot: one line, ended by the only line
    feed in it, with one entry per window in the order micro, normal,
    workday; the entry of a window carries its accumulated seconds and
    its limit, whose readouts denote these numbers, and it is safe
    exactly when the accumulated seconds are at most the limit. *)
Theorem status_json_reports_snapshot (ps : list tracking_period) :
  tracker_state ps ->
  let entries := get_status_snapshot ps in
  tracker_get_status_json ps = Some (wire_object entries +:+ nl)
  /\ (newline ∉ bytes_of (wire_object entries))
  /\ map snap_name entries = ["micro"; "normal"; "workday"]
  /\ Forall2 (fun p e =>
                snap_name e = name (config p)
                /\ snap_active_seconds e = active_seconds p
                /\ snap_limit_seconds e = limit_seconds (config p)
                /\ (snap_is_safe e = true
                    <-> active_seconds p <= limit_seconds (config p))
                /\ read_int (sprintf_i (snap_active_seconds e)) = active_seconds p
                /\ read_int (sprintf_i (snap_limit_seconds e))
                   = limit_seconds (config p))
             ps entries.
Proof.
  intros Hps entries. split; [by apply tracker_get_status_json_state|].
  split; [by apply wire_object_one_line|].
  destruct (tracker_state_windows ps Hps) as (a & b & c & -> & Ha & Hb & Hc).
  split; [done|]. subst entries. unfold windows.
  cbn [get_status_snapshot map].
  repeat (apply Forall2_cons_2;
          [cbn [snap_name snap_active_seconds snap_limit_seconds snap_is_safe
                config active_seconds];
           split_and!; [done|done|done|apply Z.leb_le|by apply read_sprintf_i|done]
          |]).
  apply Forall2_nil_2.
Qed.

(** After 200 active seconds from the start: micro is over its limit of
    180, normal and workday are not, and each reports 200. *)
Lemma status_json_reports_snapshot_witness :
  tracker_get_status_json (tracker_provide_active_seconds 200 periods) =
    Some (lit ("{'periods':["
               +:+ "{'name':'micro','safe':false,'accumulated_seconds':200,'break_at':180},"
               +:+ "{'name':'normal','safe':true,'accumulated_seconds':200,'break_at':2700},"
               +:+ "{'name':'workday','safe':true,'accumulated_seconds':200,'break_at':14400}"
               +:+ "]}")
          +:+ nl).
Proof.
  destruct (status_json_reports_snapshot (tracker_provide_active_seconds 200 periods))
    as [E _].
  - apply (windows_state 200 200 200);
      unfold in_range, INT_MIN, INT_MAX; lia.
  - rewrite E. reflexivity.
Defined.

(** * The query handler: buffers and connections *)

(** C6: when the filled part of the input buffer is a message of [L]
    bytes, its line feed and [K] more bytes, the handling of the message
    leaves these [K] bytes at the indices [0 .. K - 1] of the buffer, in
    their order, and [in_len] is [K]. *)
Theorem handled_message_shifts_input (ps : list tracking_period)
    (cs : client_state) (msg rest : list ascii) :
  tracker_state ps ->
  client_sized cs ->
  newline ∉ msg ->
  in_len cs = Z.of_nat (length msg) + 1 + Z.of_nat (length rest) ->
  filled cs = msg ++ newline :: rest ->
  exists cs',
    query_handler_handle_message ps cs = Some cs'
    /\ in_len cs' = Z.of_nat (length rest)
    /\ filled cs' = rest
    /\ (forall k, (k < length rest)%nat ->
          in_buf cs' !! k = in_buf cs !! (length msg + 1 + k)%nat)
    /\ length (in_buf cs') = length (in_buf cs).
Proof.
  intros Hps Hsz Hno Hlen Hfilled.
  assert (Hmax : in_len cs <= QUERY_HANDLER_MAX_CLIENT_BUFFER).
  { pose proof (f_equal length Hfilled) as Hl. unfold filled in Hl.
    rewrite length_take, length_app in Hl. cbn [length] in Hl.
    destruct Hsz as [Hin _]. unfold QUERY_HANDLER_MAX_CLIENT_BUFFER in *. lia. }
  destruct (handle_message_framed ps cs msg rest Hps Hsz Hmax Hfilled Hno)
    as (cs' & E & Hl' & Hb' & _ & [Hin' _] & _).
  exists cs'. split; [done|]. split; [done|].
  assert (Hf' : filled cs' = rest).
  { unfold filled. rewrite Hb'. by apply filled_front. }
  split; [done|]. split; [|destruct Hsz as [Hin _]; congruence].
  intros k Hk. rewrite Hb', lookup_app_l by done.
  assert (Hrest : filled cs !! (length msg + 1 + k)%nat = rest !! k).
  { rewrite Hfilled, (cons_middle newline msg rest), (assoc_L app).
    rewrite lookup_app_r by (rewrite length_app; simpl; lia).
    f_equal. rewrite length_app. simpl. lia. }
  rewrite <- Hrest. unfold filled. rewrite lookup_take_lt by lia. done.
Qed.

(** The buffer ["info\nsta"]: after the message [info] the bytes ["sta"]
    are at the front. *)
Lemma handled_message_shifts_input_witness :
  exists cs',
    query_handler_handle_message periods
      (client_holding ("info" +:+ nl +:+ "sta")) = Some cs'
    /\ in_len cs' = 3
    /\ filled cs' = bytes_of "sta"
    /\ (forall k, (k < 3)%nat ->
          in_buf cs' !! k
          = in_buf (client_holding ("info" +:+ nl +:+ "sta")) !! (4 + 1 + k)%nat)
    /\ length (in_buf cs')
       = length (in_buf (client_holding ("info" +:+ nl +:+ "sta"))).
Proof.
  apply (handled_message_shifts_input periods
           (client_holding ("info" +:+ nl +:+ "sta"))
           (bytes_of "info") (bytes_of "sta")).
  - apply (windows_state 0 0 0); unfold in_range, INT_MIN, INT_MAX; lia.
  - split; reflexivity.
  - vm_compute. intros H.
    repeat (apply elem_of_cons in H as [H|H]; [discriminate H|]).
    by apply elem_of_nil in H.
  - reflexivity.
  - reflexivity.
Defined.

(** C8: a connection that waits is taken only while fewer than sixteen
    slots hold a descriptor.  With sixteen the table and the backlog
    stay as they are: the connection is neither taken nor turned away.
    Once the closing of a connection has freed a slot, the oldest
    connection that waits is taken into a free slot.  The count of
    connections never passes sixteen. *)
Theorem accept_below_capacity (s : server) (waiting : backlog) :
  table_ok s ->
  Forall (fun c => -1 <= c) waiting ->
  let after := accept_incoming s waiting in
  table_ok after.1
  /\ 0 <= query_handler_current_client_count after.1
       <= Z.of_nat QUERY_HANDLER_MAX_CLIENTS
  /\ (after <> (s, waiting) ->
      query_handler_current_client_count s < Z.of_nat QUERY_HANDLER_MAX_CLIENTS)
  /\ (query_handler_current_client_count s = Z.of_nat QUERY_HANDLER_MAX_CLIENTS ->
      after = (s, waiting)
      /\ forall i pfd c rest,
           conn_poll_fds s !! i = Some pfd -> waiting = c :: rest -> 0 <= c ->
           exists j free,
             conn_poll_fds (close_slot i s) !! j = Some free /\ fd free = -1
             /\ accept_incoming (close_slot i s) waiting =
                  ({| conn_poll_fds :=
                        <[j := {| fd := c; events := POLLIN; revents := 0 |}]>
                          (conn_poll_fds (close_slot i s));
                      client_states :=
                        <[j := zero_client]> (client_states (close_slot i s)) |},
                   rest))
  /\ (forall c rest,
        waiting = c :: rest -> 0 <= c ->
        query_handler_current_client_count s < Z.of_nat QUERY_HANDLER_MAX_CLIENTS ->
        after.2 = rest
        /\ query_handler_current_client_count after.1
           = query_handler_current_client_count s + 1).
Proof.
  intros Hok Hwait after.
  pose proof Hok as (Hlen & Hlen' & Hfds).
  assert (Hcount : forall t, length (conn_poll_fds t) = QUERY_HANDLER_MAX_CLIENTS ->
            0 <= query_handler_current_client_count t
              <= Z.of_nat QUERY_HANDLER_MAX_CLIENTS).
  { intros t Ht. unfold query_handler_current_client_count.
    rewrite <- Ht. apply count_clients_bounds. }
  assert (Hstore : forall c, 0 <= c ->
            query_handler_current_client_count s
              < Z.of_nat QUERY_HANDLER_MAX_CLIENTS ->
            table_ok (query_handler_store_connection c s)).
  { intros c Hc Hlt.
    destruct (store_connection_below s c Hok Hc Hlt) as (j & free & Hj & Hfree & -> & _).
    split; [|split]; cbn [conn_poll_fds client_states].
    - by rewrite length_insert.
    - by rewrite length_insert.
    - apply Forall_insert; [done|]. cbn [fd]. lia. }
  subst after. unfold accept_incoming.
  destruct waiting as [|c rest].
  { cbn [fst snd]. refine (conj Hok (conj (Hcount s Hlen) (conj _ (conj _ _)))).
    - intros H. exfalso. by apply H.
    - intros _. split; [done|]. intros; discriminate.
    - intros; discriminate. }
  apply Forall_cons in Hwait as [Hc Hrest].
  destruct (Z.ltb_spec (query_handler_current_client_count s)
              (Z.of_nat QUERY_HANDLER_MAX_CLIENTS)) as [Hlt|Hge].
  - destruct (Z.eqb_spec c (-1)) as [->|Hne]; cbn [fst snd].
    + refine (conj Hok (conj (Hcount s Hlen) (conj _ (conj _ _)))).
      * done.
      * intros Hfull. exfalso. lia.
      * intros c' rest' [= <- <-] Hc'. exfalso. lia.
    + assert (Hc0 : 0 <= c) by lia.
      pose proof (Hstore c Hc0 Hlt) as Hok'.
      refine (conj Hok' (conj (Hcount _ (proj1 Hok')) (conj _ (conj _ _)))).
      * done.
      * intros Hfull. exfalso. lia.
      * intros c' rest' [= <- <-] _ _. split; [done|].
        by destruct (store_connection_below s c Hok Hc0 Hlt)
          as (? & ? & _ & _ & _ & ?).
  - cbn [fst snd]. refine (conj Hok (conj (Hcount s Hlen) (conj _ (conj _ _)))).
    + intros H. exfalso. by apply H.
    + intros Hfull. split; [done|].
      intros i pfd c' rest' Hi [= <- <-] Hc'.
      assert (Hall : Forall (fun pfd => 0 <= fd pfd) (conn_poll_fds s)).
      { apply count_clients_full; [done|].
        unfold query_handler_current_client_count in Hfull. by rewrite Hlen. }
      assert (Hpfd : 0 <= fd pfd).
      { rewrite Forall_forall in Hall. apply Hall. by eapply list_elem_of_lookup_2. }
      assert (Hok' : table_ok (close_slot i s)).
      { unfold close_slot. split; [|split]; cbn [conn_poll_fds client_states].
        - by rewrite length_alter.
        - done.
        - rewrite (alter_as_insert _ _ _ _ Hi). apply Forall_insert; [done|].
          cbn [fd]. lia. }
      assert (Hlt' : query_handler_current_client_count (close_slot i s)
                     < Z.of_nat QUERY_HANDLER_MAX_CLIENTS).
      { rewrite (close_slot_count s i pfd) by done. lia. }
      destruct (store_connection_below (close_slot i s) c Hok' Hc' Hlt')
        as (j & free & Hj & Hfree & Hstored & _).
      exists j, free. split; [done|]. split; [done|].
      unfold accept_incoming.
      destruct (Z.ltb_spec (query_handler_current_client_count (close_slot i s))
                  (Z.of_nat QUERY_HANDLER_MAX_CLIENTS)); [|lia].
      destruct (Z.eqb_spec c (-1)); [lia|]. by rewrite Hstored.
    + intros c' rest' _ _ Hlt. exfalso. lia.
Qed.

(** The full table and a seventeenth connection with descriptor 20. *)
Lemma accept_below_capacity_witness :
  accept_incoming full_table [20] = (full_table, [20])
  /\ accept_incoming (close_slot 2 full_table) [20] =
       ({| conn_poll_fds :=
             <[2%nat := {| fd := 20; events := POLLIN; revents := 0 |}]>
               (conn_poll_fds full_table);
           client_states := client_states full_table |}, []).
Proof.
  assert (Hok : table_ok full_table).
  { split; [reflexivity|]. split; [reflexivity|].
    unfold full_table. cbn [conn_poll_fds]. apply Forall_fmap, Forall_forall.
    intros n _. simpl. lia. }
  assert (Hwait : Forall (fun c => -1 <= c) [20]).
  { apply Forall_cons_2; [lia|]. apply Forall_nil_2. }
  destruct (accept_below_capacity full_table [20] Hok Hwait)
    as (_ & _ & _ & Hfull & _).
  destruct (Hfull eq_refl) as [Hstay _].
  split; [exact Hstay|]. reflexivity.
Defined.

(** C5 on the code: a client has buffered ["sta"] and its socket then
    delivers ["tus\n"].  The four bytes are copied after the three that
    were there, so the buffer starts with ["status\n"]; but [in_len]
    becomes 4, the count of this [read], not 3 + 4, and the scan for a
    line feed stops before the one that arrived: the loop body ends
    with the request unanswered. *)
Theorem read_replaces_input_length :
  exists pfd' cs',
    receive_incoming readable_pfd (client_holding "sta")
      (sock_data (bytes_of ("tus" +:+ nl))) = Some (Next (pfd', cs'))
    /\ take 7 (in_buf cs') = bytes_of ("status" +:+ nl)
    /\ in_len (client_holding "sta") = 3
    /\ in_len cs' = 4
    /\ in_len cs' <> in_len (client_holding "sta") + 4
    /\ filled cs' = bytes_of "stat"
    /\ query_handler_message_ready cs' = false
    /\ serve_client (windows 200 200 200) readable_pfd (client_holding "sta")
         (sock_data (bytes_of ("tus" +:+ nl))) (sock_takes 0)
       = Some (pfd', cs')
    /\ out_len cs' = 0.
Proof.
  do 2 eexists. split; [vm_compute; reflexivity|].
  cbn [in_len in_buf out_len].
  split; [reflexivity|]. split; [reflexivity|]. split; [reflexivity|].
  split; [vm_compute; discriminate|]. split; [reflexivity|].
  split; [reflexivity|]. split; [vm_compute; reflexivity|reflexivity].
Qed.

(** C9 on the code: when the [read] of a client fails, the loop body
    ends with [-1] in [in_len], whatever the client held; the bound
    [0 <= in_len] is lost, and the next [read] of this client is aimed
    one byte before the buffer, which has no defined result. *)
Theorem failed_read_leaves_negative_length (ps : list tracking_period)
    (cs : client_state) (wr : socket_output) :
  exists cs',
    serve_client ps readable_pfd cs sock_error wr = Some (readable_pfd, cs')
    /\ in_len cs' = -1
    /\ ~ lengths_bounded cs'
    /\ forall avail, receive_incoming readable_pfd cs' (sock_data avail) = None.
Proof.
  eexists. split; [reflexivity|]. cbn [in_len]. split; [reflexivity|]. split.
  - intros [[H _] _]. cbn [in_len] in H. lia.
  - intros avail. reflexivity.
Qed.

(** C4 on the code: the input buffer holds two requests for the status.
    Both are handled and the input buffer is left empty, but the second
    response is copied over the first: the output buffer holds one
    status line, not two in the order of the requests. *)
Theorem second_status_overwrites_first :
  let ps := windows 200 200 200 in
  exists status pfd' cs',
    tracker_get_status_json ps = Some status
    /\ handle_complete ps readable_pfd
         (client_holding ("status" +:+ nl +:+ "status" +:+ nl))
       = Some (pfd', cs')
    /\ in_len cs' = 0
    /\ query_handler_message_ready cs' = false
    /\ flag_set (events pfd') POLLOUT = true
    /\ out_len cs' = strlen status
    /\ queued cs' = bytes_of status
    /\ queued cs' <> bytes_of (status +:+ status).
Proof.
  intros ps. do 3 eexists. split; [vm_compute; reflexivity|].
  split; [vm_compute; reflexivity|].
  cbn [in_len out_len events]. repeat split; try reflexivity.
  vm_compute. discriminate.
Qed.

(** The framing example: ["status\ninfo\n"] in one buffer.  Both
    requests are handled; the output buffer holds the one status line
    and [info] adds nothing to it. *)
Example status_then_info :
  let ps := windows 200 200 200 in
  exists status pfd' cs',
    tracker_get_status_json ps = Some status
    /\ handle_complete ps readable_pfd
         (client_holding ("status" +:+ nl +:+ "info" +:+ nl))
       = Some (pfd', cs')
    /\ in_len cs' = 0
    /\ out_len cs' = strlen status
    /\ queued cs' = bytes_of status.
Proof.
  intros ps. do 3 eexists. split; [vm_compute; reflexivity|].
  split; [vm_compute; reflexivity|]. repeat split.
Qed.

(** * Further properties of the tracker *)

Module MoreTrackerFacts.
Import CInt Text SafetyTracker Spec States.
Import CIntFacts TextFacts SafetyTrackerFacts.

(** The idle rule in one test. *)
Lemma idle_period_decide idle p :
  idle_period idle p =
    if bool_decide (0 < active_seconds p
                    /\ ((active_seconds p < limit_seconds (config p)
                         /\ 0 < reset_seconds (config p)
                         /\ reset_seconds (config p) < idle)
                        \/ break_seconds (config p) < idle))
    then set_active_seconds p 0 else p.
Proof.
  unfold idle_period.
  destruct (Z.ltb_spec 0 (active_seconds p));
    destruct (Z.ltb_spec (active_seconds p) (limit_seconds (config p)));
    destruct (Z.ltb_spec 0 (reset_seconds (config p)));
    destruct (Z.ltb_spec (reset_seconds (config p)) idle);
    destruct (Z.ltb_spec (break_seconds (config p)) idle);
    cbn [andb]; case_bool_decide; (done || (exfalso; lia)).
Qed.

(** A later report that is no shorter makes an earlier one redundant. *)
Lemma idle_period_absorb s s' p :
  s <= s' -> idle_period s' (idle_period s p) = idle_period s' p.
Proof.
  intros Hle. rewrite (idle_period_decide s p).
  case_bool_decide as Hs; [|done].
  rewrite !idle_period_decide. cbn [set_active_seconds active_seconds config].
  rewrite bool_decide_eq_false_2 by lia.
  rewrite bool_decide_eq_true_2 by lia. done.
Qed.

Lemma provide_idle_absorb s s' ps :
  s <= s' ->
  tracker_provide_idle_seconds s' (tracker_provide_idle_seconds s ps)
    = tracker_provide_idle_seconds s' ps.
Proof.
  intros Hle. rewrite !provide_idle_map, map_map.
  apply map_ext. intros p. by apply idle_period_absorb.
Qed.

Lemma non_decreasing_app_last l x y :
  non_decreasing ((l ++ [x]) ++ [y]) -> non_decreasing (l ++ [x]) /\ x <= y.
Proof.
  induction l as [|z l IH]; cbn [app non_decreasing].
  - intros [H _]. done.
  - destruct l as [|w l]; cbn [app] in *.
    + intros [Hzx [Hxy _]]. done.
    + intros [Hzw Hrest]. destruct (IH Hrest) as [H1 H2]. done.
Qed.

End MoreTrackerFacts.

Import MoreTrackerFacts.

(** X1: a run of idle reports whose values never go down leaves the
    windows as its last report alone would: how often the idle time is
    reported while it grows makes no difference. *)
Theorem idle_run_is_last_report (idles : list Z) (last : Z)
    (ps : list tracking_period) :
  non_decreasing (idles ++ [last]) ->
  provide_idle_run (idles ++ [last]) ps = tracker_provide_idle_seconds last ps.
Proof.
  revert last. induction idles as [|s idles IH] using rev_ind; intros last Hnd.
  - reflexivity.
  - apply non_decreasing_app_last in Hnd as [Hnd Hle].
    rewrite provide_idle_run_snoc, (IH s Hnd).
    by apply provide_idle_absorb.
Qed.

Lemma idle_run_is_last_report_witness :
  provide_idle_run ([2; 9; 16] ++ [31]) (windows 50 200 200)
    = tracker_provide_idle_seconds 31 (windows 50 200 200).
Proof.
  apply (idle_run_is_last_report [2; 9; 16] 31 (windows 50 200 200)).
  simpl. lia.
Defined.

(** X2: what an idle report does to the three configured windows.  The
    micro window is cleared by more than 15 idle seconds while it is
    under its limit of 180 and by more than 30 in any case; the normal
    and workday windows have no early reset and are cleared only by
    more than 600 and more than 28800 idle seconds; a window that holds
    nothing, or less, is left alone. *)
Theorem configured_idle_thresholds (idle micro normal workday : Z) :
  tracker_provide_idle_seconds idle (windows micro normal workday) =
    windows
      (if bool_decide (0 < micro /\ ((micro < 180 /\ 15 < idle) \/ 30 < idle))
       then 0 else micro)
      (if bool_decide (0 < normal /\ 600 < idle) then 0 else normal)
      (if bool_decide (0 < workday /\ 28800 < idle) then 0 else workday).
Proof.
  rewrite provide_idle_map. unfold windows. cbn [map].
  rewrite !idle_period_decide.
  cbn [config active_seconds limit_seconds reset_seconds break_seconds
       micro_config normal_config workday_config].
  repeat f_equal.
  - do 2 case_bool_decide; (done || (exfalso; lia)).
  - do 2 case_bool_decide; (done || (exfalso; lia)).
  - do 2 case_bool_decide; (done || (exfalso; lia)).
Qed.



(** * Further properties of the query handler *)

Module MoreQueryHandlerFacts.
Import CInt Text SafetyTracker QueryHandler Spec States.
Import CIntFacts TextFacts SafetyTrackerFacts QueryHandlerFacts.

Lemma newline_index_absent l : newline ∉ l -> newline_index l = None.
Proof.
  intros Hno. destruct (newline_index l) as [i|] eqn:E; [|done].
  destruct (newline_index_split _ _ E) as (msg & rest & -> & _).
  exfalso. apply Hno, elem_of_app. right. apply elem_of_cons. by left.
Qed.

(** What the loop over the ready messages takes away is nothing, or
    bytes that end with a line feed; what it leaves has none. *)
Lemma handle_ready_messages_tail ps fuel : forall cs,
  tracker_state ps -> client_sized cs ->
  0 <= in_len cs <= QUERY_HANDLER_MAX_CLIENT_BUFFER ->
  (Z.to_nat (in_len cs) <= fuel)%nat ->
  exists cs' handled,
    handle_ready_messages fuel ps cs = Some cs'
    /\ filled cs = handled ++ filled cs'
    /\ (handled = [] \/ exists h, handled = h ++ [newline])
    /\ in_len cs' = Z.of_nat (length (filled cs')).
Proof.
  induction fuel as [|fuel IH]; intros cs Hps Hsz Hlen Hfuel;
    cbn [handle_ready_messages];
    destruct (query_handler_message_ready cs) eqn:Hready.
  - apply message_ready_true in Hready as (msg & rest & Hf & _).
    apply (f_equal length) in Hf. unfold filled in Hf.
    rewrite length_take, length_app in Hf. simpl in Hf. exfalso. lia.
  - exists cs, []. split; [done|]. split; [done|]. split; [by left|].
    unfold filled. rewrite length_take. destruct Hsz as [Hin _].
    unfold QUERY_HANDLER_MAX_CLIENT_BUFFER in *. lia.
  - apply message_ready_true in Hready as (msg & rest & Hf & Hno).
    destruct (handle_message_framed ps cs msg rest Hps Hsz (proj2 Hlen) Hf Hno)
      as (cs1 & E1 & Hlen1 & Hbuf1 & _ & Hsz1 & _).
    rewrite E1. cbn [mbind option_bind].
    assert (Hin : in_len cs = Z.of_nat (length msg) + 1 + Z.of_nat (length rest)).
    { pose proof (f_equal length Hf) as Hl. unfold filled in Hl.
      rewrite length_take, length_app in Hl. simpl in Hl.
      destruct Hsz as [Hsz _]. unfold QUERY_HANDLER_MAX_CLIENT_BUFFER in *. lia. }
    assert (Hf1 : filled cs1 = rest).
    { unfold filled. rewrite Hbuf1. by apply filled_front. }
    destruct (IH cs1 Hps Hsz1) as (cs' & h & E & Hh & Hend & Hl'); [lia|lia|].
    exists cs', (msg ++ newline :: h). split; [done|]. split.
    { rewrite Hf, <- Hf1, Hh. by rewrite <- (assoc_L app), <- app_comm_cons. }
    split; [|done]. right. destruct Hend as [->|[h' ->]].
    + by exists msg.
    + exists (msg ++ newline :: h').
      by rewrite <- (assoc_L app), <- app_comm_cons.
  - exists cs, []. split; [done|]. split; [done|]. split; [by left|].
    unfold filled. rewrite length_take. destruct Hsz as [Hin _].
    unfold QUERY_HANDLER_MAX_CLIENT_BUFFER in *. lia.
Qed.


Lemma free_slot_first fds : forall from i,
  free_slot fds from = Some i ->
  (from <= i)%nat
  /\ forall j pfd, (j < i - from)%nat -> fds !! j = Some pfd -> fd pfd <> -1.
Proof.
  induction fds as [|p fds IH]; intros from i; [done|]. cbn [free_slot].
  destruct (Z.eqb_spec (fd p) (-1)) as [E|Hne].
  - intros [= <-]. split; [lia|]. intros j pfd Hj. lia.
  - intros H. destruct (IH _ _ H) as [Hle Hbefore]. split; [lia|].
    intros [|j] pfd Hj; cbn.
    + by intros [= <-].
    + apply Hbefore. lia.
Qed.

End MoreQueryHandlerFacts.

Import MoreQueryHandlerFacts.

(** X4: the loop over the ready messages ends within [in_len] passes
    and handles every complete message: the bytes it takes away end
    with the last line feed of the buffer, the bytes after that line
    feed are left at the front with [in_len] counting them, and the
    output buffer is as before or holds a single status line. *)
Theorem ready_messages_all_handled (ps : list tracking_period)
    (cs : client_state) :
  tracker_state ps ->
  client_sized cs ->
  0 <= in_len cs <= QUERY_HANDLER_MAX_CLIENT_BUFFER ->
  exists cs' handled,
    handle_ready_messages (handle_fuel cs) ps cs = Some cs'
    /\ filled cs = handled ++ filled cs'
    /\ (handled = [] \/ exists h, handled = h ++ [newline])
    /\ (newline ∉ filled cs')
    /\ in_len cs' = Z.of_nat (length (filled cs'))
    /\ client_sized cs'
    /\ ((out_len cs' = out_len cs /\ out cs' = out cs)
        \/ exists status,
             tracker_get_status_json ps = Some status
             /\ out_len cs' = strlen status
             /\ queued cs' = bytes_of status).
Proof.
  intros Hps Hsz Hlen.
  destruct (handle_ready_messages_tail ps (handle_fuel cs) cs Hps Hsz Hlen)
    as (cs' & handled & E & Hsplit & Hend & Hl); [done|].
  destruct (handle_ready_messages_drains ps (handle_fuel cs) cs Hps Hsz)
    as (cs2 & E2 & Hnr & Hsz' & _ & _ & _ & Hout); [lia|done|].
  rewrite E in E2. injection E2 as <-.
  exists cs', handled. split; [done|]. split; [done|]. split; [done|].
  split; [by apply message_ready_false|]. split; [done|]. split; [done|].
  destruct Hout as [?|(status & Hjson & Hol & Hob)]; [by left|].
  right. exists status. split; [done|]. split; [done|].
  unfold queued. rewrite Hol, Hob. unfold strlen. rewrite Nat2Z.id.
  rewrite <- (length_bytes_of status). apply take_app_length.
Qed.

Lemma ready_messages_all_handled_witness :
  exists cs' handled,
    handle_ready_messages
      (handle_fuel (client_holding ("info" +:+ nl +:+ "status" +:+ nl +:+ "st")))
      periods (client_holding ("info" +:+ nl +:+ "status" +:+ nl +:+ "st"))
    = Some cs'
    /\ filled (client_holding ("info" +:+ nl +:+ "status" +:+ nl +:+ "st"))
       = handled ++ filled cs'
    /\ (handled = [] \/ exists h, handled = h ++ [newline])
    /\ (newline ∉ filled cs')
    /\ in_len cs' = Z.of_nat (length (filled cs'))
    /\ client_sized cs'
    /\ ((out_len cs' = out_len (client_holding ("info" +:+ nl +:+ "status" +:+ nl +:+ "st"))
         /\ out cs' = out (client_holding ("info" +:+ nl +:+ "status" +:+ nl +:+ "st")))
        \/ exists status,
             tracker_get_status_json periods = Some status
             /\ out_len cs' = strlen status
             /\ queued cs' = bytes_of status).
Proof.
  apply (ready_messages_all_handled periods
           (client_holding ("info" +:+ nl +:+ "status" +:+ nl +:+ "st"))).
  - apply (windows_state 0 0 0); unfold in_range, INT_MIN, INT_MAX; lia.
  - split; reflexivity.
  - change (0 <= 14 <= 1024). lia.
Defined.

(** X5: a message is told by the C string at its start.  When the
    bytes before its first NUL, or all of them, are [status], the status
    line is put at the start of the output buffer, whatever follows the
    NUL; any other message, such as [info], [STATUS] or an empty line,
    leaves the output buffer as it is.  The message is taken out of the
    input buffer either way. *)
Theorem message_dispatched_by_c_string (ps : list tracking_period)
    (cs : client_state) (msg rest : list ascii) :
  tracker_state ps ->
  client_sized cs ->
  in_len cs <= QUERY_HANDLER_MAX_CLIENT_BUFFER ->
  newline ∉ msg ->
  filled cs = msg ++ newline :: rest ->
  exists cs',
    query_handler_handle_message ps cs = Some cs'
    /\ filled cs' = rest
    /\ (c_str msg = bytes_of "status" ->
        exists status,
          tracker_get_status_json ps = Some status
          /\ out_len cs' = strlen status
          /\ queued cs' = bytes_of status)
    /\ (c_str msg <> bytes_of "status" ->
        out_len cs' = out_len cs /\ out cs' = out cs).
Proof.
  intros Hps Hsz Hmax Hno Hf.
  destruct (handle_message_framed ps cs msg rest Hps Hsz Hmax Hf Hno)
    as (cs' & E & Hl & Hb & _ & _ & Hout).
  exists cs'. split; [done|]. split.
  { unfold filled. rewrite Hb. by apply filled_front. }
  unfold strcmp_eq in Hout.
  change (c_str (bytes_of "status")) with (bytes_of "status") in Hout.
  case_bool_decide as Hs.
  - split; [|done]. intros _.
    destruct Hout as (status & Hjson & Hol & Hob). exists status.
    split; [done|]. split; [done|].
    unfold queued. rewrite Hol, Hob. unfold strlen. rewrite Nat2Z.id.
    rewrite <- (length_bytes_of status). apply take_app_length.
  - split; [done|]. intros _. done.
Qed.

(** The line [status], a NUL and three more bytes is answered; the line
    [STATUS] is not. *)
Lemma message_dispatched_by_c_string_witness :
  (exists cs',
     query_handler_handle_message periods
       (client_holding ("status" +:+ String NUL "xyz" +:+ nl)) = Some cs'
     /\ exists status,
          tracker_get_status_json periods = Some status
          /\ out_len cs' = strlen status
          /\ queued cs' = bytes_of status)
  /\ (exists cs',
        query_handler_handle_message periods
          (client_holding ("STATUS" +:+ nl)) = Some cs'
        /\ out_len cs' = 0).
Proof.
  assert (Hps : tracker_state periods)
    by (apply (windows_state 0 0 0); unfold in_range, INT_MIN, INT_MAX; lia).
  assert (Hno : forall s : list ascii,
             forallb (fun c => negb (Ascii.eqb c newline)) s = true ->
             newline ∉ s).
  { intros s. induction s as [|c s IH]; cbn [forallb].
    - intros _. apply not_elem_of_nil.
    - intros [Hc Hs]%andb_prop. apply not_elem_of_cons. split; [|by apply IH].
      intros <-. by rewrite Ascii.eqb_refl in Hc. }
  split.
  - destruct (message_dispatched_by_c_string periods
                (client_holding ("status" +:+ String NUL "xyz" +:+ nl))
                (bytes_of ("status" +:+ String NUL "xyz")) [])
      as (cs' & E & _ & Hyes & _).
    + exact Hps.
    + split; reflexivity.
    + change (11 <= 1024). lia.
    + apply Hno. reflexivity.
    + reflexivity.
    + exists cs'. split; [exact E|]. apply Hyes. reflexivity.
  - destruct (message_dispatched_by_c_string periods
                (client_holding ("STATUS" +:+ nl)) (bytes_of "STATUS") [])
      as (cs' & E & _ & _ & Hnot).
    + exact Hps.
    + split; reflexivity.
    + change (7 <= 1024). lia.
    + apply Hno. reflexivity.
    + reflexivity.
    + exists cs'. split; [exact E|].
      destruct Hnot as [Hol _]; [|exact Hol]. vm_compute. discriminate.
Defined.

(** X6: [query_handler_handle_message] called on a buffer without a
    line feed takes the message to be empty: it answers nothing and
    removes the first byte of the buffer, the other bytes moving one
    place to the front.  On an empty buffer the length given to
    [memmove] is negative and the call has no defined result. *)
Theorem message_without_line_feed (ps : list tracking_period)
    (cs : client_state) :
  client_sized cs ->
  in_len cs <= QUERY_HANDLER_MAX_CLIENT_BUFFER ->
  newline ∉ filled cs ->
  (in_len cs <= 0 -> query_handler_handle_message ps cs = None)
  /\ (1 <= in_len cs ->
      exists cs',
        query_handler_handle_message ps cs = Some cs'
        /\ in_len cs' = in_len cs - 1
        /\ filled cs' = drop 1 (filled cs)
        /\ out cs' = out cs /\ out_len cs' = out_len cs).
Proof.
  intros [Hin Hout] Hmax Hno. unfold QUERY_HANDLER_MAX_CLIENT_BUFFER in *.
  unfold query_handler_handle_message.
  rewrite (newline_index_absent _ Hno).
  rewrite load_bytes_Some by lia. change (Z.to_nat 0) with O.
  rewrite drop_0, take_0. cbn [mbind option_bind].
  change (strcmp_eq [] "status") with false.
  change (strcmp_eq [] "info") with false. cbn [mbind option_bind].
  split.
  - intros Hle. unfold memmove, load_bytes.
    destruct (Z.leb_spec 0 (in_len cs - (0 + 1))); [lia|]. done.
  - intros Hge. unfold memmove. rewrite load_bytes_Some by lia.
    cbn [mbind option_bind].
    rewrite store_bytes_Some by (rewrite ?length_take, ?length_drop; lia).
    eexists. split; [done|]. cbn [in_len out out_len].
    split; [lia|]. split; [|done].
    unfold filled. cbn [in_len in_buf Z.to_nat take app].
    replace (Z.to_nat (in_len cs - (0 + 1))) with (Z.to_nat (in_len cs) - 1)%nat by lia.
    change (Z.to_nat (0 + 1)) with 1%nat.
    change (Z.to_nat 0) with O. rewrite take_0. cbn [app].
    rewrite take_app_length' by (rewrite length_take, length_drop; lia).
    rewrite take_drop_commute. f_equal. f_equal. lia.
Qed.

Lemma message_without_line_feed_witness :
  (in_len zero_client <= 0 ->
   query_handler_handle_message periods zero_client = None)
  /\ (1 <= in_len (client_holding "abc") ->
      exists cs',
        query_handler_handle_message periods (client_holding "abc") = Some cs'
        /\ in_len cs' = in_len (client_holding "abc") - 1
        /\ filled cs' = drop 1 (filled (client_holding "abc"))
        /\ out cs' = out (client_holding "abc")
        /\ out_len cs' = out_len (client_holding "abc")).
Proof.
  split.
  - apply (message_without_line_feed periods zero_client).
    + split; reflexivity.
    + change (0 <= 1024). lia.
    + change (newline ∉ @nil ascii). apply not_elem_of_nil.
  - apply (message_without_line_feed periods (client_holding "abc")).
    + split; reflexivity.
    + change (3 <= 1024). lia.
    + change (newline ∉ bytes_of "abc"). intros H.
      repeat (apply elem_of_cons in H as [H|H]; [discriminate H|]).
      by apply elem_of_nil in H.
Defined.

(** X7: a [read] never writes outside the input buffer.  Whatever waits
    on the socket, at most [1024 - in_len] bytes of it are taken; they
    are copied behind the bytes that were filled, which stay, as do the
    bytes behind the copy, and the buffer keeps its size. *)
Theorem read_stays_inside_buffer (pfd : pollfd) (cs : client_state)
    (avail : list ascii) :
  client_sized cs ->
  0 <= in_len cs <= QUERY_HANDLER_MAX_CLIENT_BUFFER ->
  flag_set (revents pfd) POLLIN = true ->
  exists pfd' cs' got,
    receive_incoming pfd cs (sock_data avail) = Some (Next (pfd', cs'))
    /\ got = take (Z.to_nat (QUERY_HANDLER_MAX_CLIENT_BUFFER - in_len cs)) avail
    /\ Z.of_nat (length got) <= QUERY_HANDLER_MAX_CLIENT_BUFFER - in_len cs
    /\ in_buf cs' = filled cs ++ got
                      ++ drop (Z.to_nat (in_len cs) + length got) (in_buf cs)
    /\ length (in_buf cs') = length (in_buf cs)
    /\ out cs' = out cs /\ out_len cs' = out_len cs.
Proof.
  intros Hsz Hlen Hflag.
  destruct (receive_incoming_data pfd cs avail Hsz Hlen Hflag)
    as (pfd' & cs' & E & _ & Hb & Ho & Hol & [Hin' _] & _).
  exists pfd', cs', (take (Z.to_nat (QUERY_HANDLER_MAX_CLIENT_BUFFER - in_len cs)) avail).
  split; [done|]. split; [done|]. split; [rewrite length_take; lia|].
  split; [done|]. split; [|done]. destruct Hsz as [Hin _]. congruence.
Qed.

Lemma read_stays_inside_buffer_witness :
  exists pfd' cs' got,
    receive_incoming readable_pfd (client_holding "sta")
      (sock_data (bytes_of "tus")) = Some (Next (pfd', cs'))
    /\ got = take (Z.to_nat (QUERY_HANDLER_MAX_CLIENT_BUFFER
                             - in_len (client_holding "sta")))
                  (bytes_of "tus")
    /\ Z.of_nat (length got)
       <= QUERY_HANDLER_MAX_CLIENT_BUFFER - in_len (client_holding "sta")
    /\ in_buf cs' = filled (client_holding "sta") ++ got
                      ++ drop (Z.to_nat (in_len (client_holding "sta")) + length got)
                              (in_buf (client_holding "sta"))
    /\ length (in_buf cs') = length (in_buf (client_holding "sta"))
    /\ out cs' = out (client_holding "sta")
    /\ out_len cs' = out_len (client_holding "sta").
Proof.
  apply (read_stays_inside_buffer readable_pfd (client_holding "sta")
           (bytes_of "tus")).
  - split; reflexivity.
  - change (0 <= 3 <= 1024). lia.
  - reflexivity.
Defined.



(** X9: writing loses and repeats nothing.  When the socket takes
    [room] bytes, the bytes sent are the first [min out_len room] of the
    queue and the rest of the queue is left at the front of the output
    buffer, in order; interest in writing is dropped exactly when the
    whole queue went out.  This is stated where the rest is no longer
    than what was sent, so that the ranges given to [memcpy] do not
    overlap.  When [write] fails, nothing changes and the loop body
    goes on to the next client. *)
Theorem write_keeps_the_unsent (pfd : pollfd) (cs : client_state)
    (wr : socket_output) :
  client_sized cs ->
  0 <= out_len cs <= QUERY_HANDLER_MAX_CLIENT_BUFFER ->
  flag_set (revents pfd) POLLOUT = true ->
  match wr with
  | sock_refuses => send_outgoing pfd cs wr = Some (Continue (pfd, cs))
  | sock_takes room =>
      let sent := Z.min (out_len cs) (Z.of_nat room) in
      out_len cs - sent <= sent ->
      exists pfd' cs',
        send_outgoing pfd cs wr = Some (Next (pfd', cs'))
        /\ out_len cs' = out_len cs - sent
        /\ queued cs = take (Z.to_nat sent) (queued cs) ++ queued cs'
        /\ events pfd' = (if sent =? out_len cs
                          then clear_flag (events pfd) POLLOUT
                          else events pfd)
        /\ fd pfd' = fd pfd
        /\ in_buf cs' = in_buf cs /\ in_len cs' = in_len cs
        /\ length (out cs') = length (out cs)
  end.
Proof.
  intros [Hin Hout] Hlen Hflag. unfold QUERY_HANDLER_MAX_CLIENT_BUFFER in *.
  unfold send_outgoing. rewrite Hflag.
  destruct wr as [|room]; cbn [sys_write]; [done|]. cbv zeta.
  set (sent := Z.min (out_len cs) (Z.of_nat room)). intros _. assert (Hsent : 0 <= sent <= out_len cs) by (subst sent; lia).
  destruct (Z.eqb_spec sent (-1)); [lia|].
  assert (Hq : forall k, queued cs = take k (queued cs) ++ drop k (queued cs))
    by (intros k; by rewrite take_drop).
  destruct (Z.eqb_spec sent (out_len cs)) as [Hall|Hpart].
  - do 2 eexists. split; [done|]. cbn [out_len events fd in_buf in_len out].
    split; [lia|]. split; [|done].
    unfold queued at 3. cbn [out_len Z.to_nat take].
    rewrite app_nil_r, take_ge; [done|].
    unfold queued. rewrite length_take. lia.
  - destruct (Z.ltb_spec sent (out_len cs)); [|lia].
    unfold memmove. rewrite load_bytes_Some by lia. cbn [mbind option_bind].
    rewrite store_bytes_Some by (rewrite ?length_take, ?length_drop; lia).
    cbn [mbind option_bind].
    do 2 eexists. split; [done|]. cbn [out_len events fd in_buf in_len out].
    split; [done|]. split.
    + rewrite (Hq (Z.to_nat sent)) at 1. f_equal.
      unfold queued. cbn [out_len out]. change (Z.to_nat 0) with O.
      rewrite take_0. cbn [app].
      rewrite take_app_length' by (rewrite length_take, length_drop; lia).
      rewrite take_drop_commute. f_equal. f_equal. lia.
    + split; [done|]. split; [done|]. split; [done|]. split; [done|].
      rewrite !length_app, !length_take, !length_drop. lia.
Qed.

(** A queue of six bytes and room for four: [o] and a line feed stay. *)
Lemma write_keeps_the_unsent_witness :
  let cs := {| in_buf := in_buf zero_client; in_len := 0; in_ready := 0;
               out := bytes_of ("hello" +:+ nl) ++ drop 6 (out zero_client);
               out_len := 6 |} in
  let pfd := {| fd := 7; events := Z.lor POLLIN POLLOUT; revents := POLLOUT |} in
  let sent := Z.min (out_len cs) (Z.of_nat 4) in
  exists pfd' cs',
    send_outgoing pfd cs (sock_takes 4) = Some (Next (pfd', cs'))
    /\ out_len cs' = out_len cs - sent
    /\ queued cs = take (Z.to_nat sent) (queued cs) ++ queued cs'
    /\ events pfd' = (if sent =? out_len cs
                      then clear_flag (events pfd) POLLOUT
                      else events pfd)
    /\ fd pfd' = fd pfd
    /\ in_buf cs' = in_buf cs /\ in_len cs' = in_len cs
    /\ length (out cs') = length (out cs).
Proof.
  intros cs pfd.
  apply (write_keeps_the_unsent pfd cs (sock_takes 4)).
  - split; reflexivity.
  - change (0 <= 6 <= 1024). lia.
  - reflexivity.
  - change (6 - 4 <= 4). lia.
Defined.

(** X10: one pass of the loop body over a client never leaves the
    buffers.  From buffers of their declared size and lengths within
    0 .. 1024, whatever [poll] reports and the sockets deliver, short
    of a failing [read] and of a partial [write] that leaves more than
    it sent (where the ranges of the [memcpy] overlap), the pass has a
    defined result with the same sizes and bounds, and the descriptor
    of the slot is as it was or [-1]. *)
Theorem loop_body_keeps_bounds (ps : list tracking_period) (pfd : pollfd)
    (cs : client_state) (rd : socket_input) (wr : socket_output) :
  tracker_state ps ->
  client_sized cs ->
  lengths_bounded cs ->
  rd <> sock_error ->
  match wr with
  | sock_refuses => True
  | sock_takes room =>
      out_len cs - Z.min (out_len cs) (Z.of_nat room)
      <= Z.min (out_len cs) (Z.of_nat room)
  end ->
  exists pfd' cs',
    serve_client ps pfd cs rd wr = Some (pfd', cs')
    /\ client_sized cs'
    /\ lengths_bounded cs'
    /\ (fd pfd' = fd pfd \/ fd pfd' = -1).
Proof. intros Hps Hsz Hlen Hrd _. by apply serve_client_bounds. Qed.

Lemma loop_body_keeps_bounds_witness :
  exists pfd' cs',
    serve_client periods readable_pfd (client_holding "sta")
      (sock_data (bytes_of ("tus" +:+ nl +:+ "status" +:+ nl))) (sock_takes 3)
    = Some (pfd', cs')
    /\ client_sized cs'
    /\ lengths_bounded cs'
    /\ (fd pfd' = fd readable_pfd \/ fd pfd' = -1).
Proof.
  apply (loop_body_keeps_bounds periods readable_pfd (client_holding "sta")).
  - apply (windows_state 0 0 0); unfold in_range, INT_MIN, INT_MAX; lia.
  - split; reflexivity.
  - split; [change (0 <= 3 <= 1024)|change (0 <= 0 <= 1024)]; lia.
  - discriminate.
  - change (0 - Z.min 0 3 <= Z.min 0 3). lia.
Defined.

(** X11: [query_handler_store_connection] puts the descriptor into the
    free slot of lowest index, with interest in reading only and a
    zeroed client state, and touches no other slot.  When no slot is
    free it changes nothing: the descriptor is not recorded. *)
Theorem store_takes_first_free_slot (new_fd : Z) (s : server) :
  match free_slot (conn_poll_fds s) 0 with
  | Some i =>
      (exists pfd, conn_poll_fds s !! i = Some pfd /\ fd pfd = -1)
      /\ (forall j pfd, (j < i)%nat -> conn_poll_fds s !! j = Some pfd ->
            fd pfd <> -1)
      /\ conn_poll_fds (query_handler_store_connection new_fd s) !! i
         = Some {| fd := new_fd; events := POLLIN; revents := 0 |}
      /\ ((i < length (client_states s))%nat ->
          client_states (query_handler_store_connection new_fd s) !! i
          = Some zero_client)
      /\ (forall j, j <> i ->
            conn_poll_fds (query_handler_store_connection new_fd s) !! j
            = conn_poll_fds s !! j
            /\ client_states (query_handler_store_connection new_fd s) !! j
               = client_states s !! j)
  | None =>
      Forall (fun pfd => fd pfd <> -1) (conn_poll_fds s)
      /\ query_handler_store_connection new_fd s = s
  end.
Proof.
  unfold query_handler_store_connection.
  destruct (free_slot (conn_poll_fds s) 0) as [i|] eqn:Hfree.
  - destruct (free_slot_Some _ _ _ Hfree) as (k & pfd & -> & Hk & Hfd).
    destruct (free_slot_first _ _ _ Hfree) as [_ Hbefore].
    cbn [Nat.add] in *. cbn [conn_poll_fds client_states].
    split; [eauto|]. split.
    { intros j q Hj. apply Hbefore. lia. }
    split.
    { apply list_lookup_insert_eq. by eapply lookup_lt_Some. }
    split.
    { intros Hlt. by apply list_lookup_insert_eq. }
    intros j Hj. split; by apply list_lookup_insert_ne.
  - split; [by eapply free_slot_None|done].
Qed.

(** * Further properties: whole ticks *)

Module TickFacts.
Import CInt Text SafetyTracker QueryHandler Spec States Ticks.
Import CIntFacts TextFacts SafetyTrackerFacts QueryHandlerFacts.
Import MoreQueryHandlerFacts.

(** A client that is not readable is not read. *)
Lemma serve_client_unread ps pfd cs rd rd' wr :
  flag_set (revents pfd) POLLIN = false ->
  serve_client ps pfd cs rd wr = serve_client ps pfd cs rd' wr.
Proof.
  intros Hflag. unfold serve_client.
  by rewrite !(receive_incoming_skipped _ _ _ Hflag).
Qed.

Lemma serve_client_ok ps pfd cs rd wr :
  tracker_state ps -> client_sized cs -> lengths_bounded cs ->
  (flag_set (revents pfd) POLLIN = true -> rd <> sock_error) ->
  exists pfd' cs',
    serve_client ps pfd cs rd wr = Some (pfd', cs')
    /\ client_sized cs' /\ lengths_bounded cs'
    /\ (fd pfd' = fd pfd \/ fd pfd' = -1).
Proof.
  intros Hps Hsz Hb Hrd.
  destruct (flag_set (revents pfd) POLLIN) eqn:Hflag.
  - apply serve_client_bounds; auto.
  - rewrite (serve_client_unread ps pfd cs rd (sock_data []) wr Hflag).
    by apply serve_client_bounds.
Qed.

Lemma clients_ok_insert s i cs pfds :
  clients_ok s -> client_sized cs -> lengths_bounded cs ->
  clients_ok {| conn_poll_fds := pfds;
                client_states := <[i := cs]> (client_states s) |}.
Proof.
  unfold clients_ok. cbn [client_states]. intros Hok Hsz Hb.
  apply Forall_insert; [done|]. done.
Qed.

(** The loop over the clients has a defined result and keeps every
    client in order. *)
Lemma serve_clients_ok ps io n : forall from s,
  tracker_state ps -> table_ok s -> clients_ok s ->
  Forall (fun e => incoming e <> sock_error) io ->
  length io = QUERY_HANDLER_MAX_CLIENTS ->
  (from + n <= QUERY_HANDLER_MAX_CLIENTS)%nat ->
  exists s', serve_clients ps io from n s = Some s' /\ clients_ok s'.
Proof.
  induction n as [|n IH]; intros from s Hps Hok Hcl Hio Hiolen Hn;
    cbn [serve_clients]; [eauto|].
  pose proof Hok as (Hlen & Hlen' & Hfds).
  destruct (lookup_lt_is_Some_2 (conn_poll_fds s) from) as [pfd Hpfd]; [lia|].
  destruct (lookup_lt_is_Some_2 (client_states s) from) as [cs Hcs]; [lia|].
  rewrite Hpfd, Hcs. cbn [mbind option_bind].
  assert (Hcs_ok : client_sized cs /\ lengths_bounded cs).
  { unfold clients_ok in Hcl. rewrite Forall_forall in Hcl.
    apply Hcl. by eapply list_elem_of_lookup_2. }
  destruct Hcs_ok as [Hsz Hb].
  destruct (serve_client_ok ps pfd cs
              (from_option incoming sock_error (io !! from))
              (from_option outgoing sock_refuses (io !! from)) Hps Hsz Hb)
    as (pfd' & cs' & E & Hsz' & Hb' & Hfd').
  { intros _. destruct (lookup_lt_is_Some_2 io from) as [e He]; [lia|].
    rewrite He. cbn [from_option].
    rewrite Forall_forall in Hio. apply Hio. by eapply list_elem_of_lookup_2. }
  rewrite E. cbn [mbind option_bind]. apply IH; try done.
  - split; [|split]; cbn [conn_poll_fds client_states].
    + by rewrite length_insert.
    + by rewrite length_insert.
    + apply Forall_insert; [done|].
      assert (-1 <= fd pfd).
      { rewrite Forall_forall in Hfds. apply Hfds. by eapply list_elem_of_lookup_2. }
      destruct Hfd' as [-> | ->]; lia.
  - by apply clients_ok_insert.
  - lia.
Qed.

Lemma zero_client_ok : client_sized zero_client /\ lengths_bounded zero_client.
Proof.
  split; [split; reflexivity|].
  split; cbn [zero_client in_len out_len];
    unfold QUERY_HANDLER_MAX_CLIENT_BUFFER; lia.
Qed.

Lemma init_clients_ok : clients_ok init_server.
Proof.
  unfold clients_ok, init_server. cbn [client_states].
  apply Forall_replicate. exact zero_client_ok.
Qed.

Lemma accept_incoming_clients_ok s waiting :
  clients_ok s -> clients_ok (accept_incoming s waiting).1.
Proof.
  intros Hcl. unfold accept_incoming. destruct waiting as [|c rest]; [done|].
  destruct (_ <? _); [|done]. destruct (c =? -1); [done|]. cbn [fst].
  unfold query_handler_store_connection.
  destruct (free_slot (conn_poll_fds s) 0) as [i|]; [|done].
  apply clients_ok_insert; [done|apply zero_client_ok..].
Qed.

(** One call of [query_handler_run] has a defined result while no
    [read] fails, and leaves the table and the clients in order. *)
Lemma query_handler_run_ok ps s waiting io :
  tracker_state ps -> table_ok s -> clients_ok s ->
  Forall (fun c => -1 <= c) waiting ->
  length io = QUERY_HANDLER_MAX_CLIENTS ->
  Forall (fun e => incoming e <> sock_error) io ->
  exists s' waiting',
    query_handler_run ps s waiting io = Some (s', waiting')
    /\ table_ok s' /\ clients_ok s'
    /\ (waiting' = waiting \/ exists c, waiting = c :: waiting').
Proof.
  intros Hps Hok Hcl Hwait Hiolen Hio.
  assert (Hsome : exists r, query_handler_run ps s waiting io = Some r
                            /\ clients_ok r.1).
  { unfold query_handler_run.
    pose proof (accept_incoming_clients_ok s waiting Hcl) as Hcl1.
    pose proof (accept_incoming_table s waiting Hok Hwait) as Hok1.
    destruct (accept_incoming s waiting) as [s1 w1]. cbn [fst] in *.
    set (s2 := {| conn_poll_fds := sys_poll (conn_poll_fds s1) io;
                  client_states := client_states s1 |}).
    assert (Hok2 : table_ok s2).
    { destruct Hok1 as (Hlen & Hlen' & Hfds).
      split; [|split]; cbn [s2 conn_poll_fds client_states].
      - rewrite <- Hlen, <- (length_map fd), sys_poll_fd. by rewrite length_map.
      - done.
      - apply Forall_fmap in Hfds. apply (Forall_fmap fd (fun z => -1 <= z)).
        by rewrite sys_poll_fd. }
    destruct (existsb _ _); [|by eexists].
    destruct (serve_clients_ok ps io QUERY_HANDLER_MAX_CLIENTS 0 s2)
      as (s3 & E & Hcl3); try done.
    rewrite E. cbn [mbind option_bind]. by eexists. }
  destruct Hsome as ([s' waiting'] & E & Hcl').
  destruct (query_handler_run_table ps s waiting io s' waiting' Hok Hwait E)
    as (Hok' & _ & Hw).
  exists s', waiting'. split; [done|]. split; [done|]. split; [done|].
  destruct Hw as [?|[_ ?]]; [by left|by right].
Qed.

End TickFacts.

Import Ticks TickFacts.

(** X12: the server stays in order over any number of ticks.  From a
    table in order, with clients whose buffers and lengths are in
    order, and while no [read] fails and every [write] fails or has
    room for half a buffer, every call of
    [query_handler_run] has a defined result; the table keeps its
    sixteen slots, no client ever gets a length outside 0 .. 1024, and
    the connections are taken from the backlog oldest first, at most one
    in each tick. *)
Theorem ticks_keep_server_in_order (ticks : list tick) (s : server)
    (waiting : backlog) :
  table_ok s ->
  clients_ok s ->
  Forall (fun c => -1 <= c) waiting ->
  Forall (fun t => tracker_state (tick_periods t)
                   /\ reads_succeed t
                   /\ writes_apart t
                   /\ Forall (fun c => -1 <= c) (arrivals t)) ticks ->
  exists s' waiting' taken,
    run_ticks ticks s waiting = Some (s', waiting')
    /\ table_ok s'
    /\ clients_ok s'
    /\ 0 <= query_handler_current_client_count s'
         <= Z.of_nat QUERY_HANDLER_MAX_CLIENTS
    /\ waiting ++ concat (map arrivals ticks) = taken ++ waiting'
    /\ (length taken <= length ticks)%nat.
Proof.
  revert s waiting. induction ticks as [|t ticks IH];
    intros s waiting Hok Hcl Hwait Hticks.
  - exists s, waiting, []. cbn [run_ticks map concat length app].
    split; [done|]. split; [done|]. split; [done|].
    split; [|split; [by rewrite app_nil_r|lia]].
    destruct Hok as (Hlen & _). unfold query_handler_current_client_count.
    rewrite <- Hlen. apply count_clients_bounds.
  - apply Forall_cons in Hticks as [(Hps & [Hiolen Hio] & _ & Harr) Hticks].
    assert (Hwait' : Forall (fun c => -1 <= c) (waiting ++ arrivals t))
      by (by apply Forall_app).
    destruct (query_handler_run_ok (tick_periods t) s (waiting ++ arrivals t)
                (tick_io t) Hps Hok Hcl Hwait' Hiolen Hio)
      as (s1 & w1 & E & Hok1 & Hcl1 & Hw1).
    assert (Hwait1 : Forall (fun c => -1 <= c) w1).
    { destruct Hw1 as [->|[c Hc]]; [done|].
      rewrite Hc in Hwait'. by apply Forall_cons in Hwait' as [_ ?]. }
    destruct (IH s1 w1 Hok1 Hcl1 Hwait1 Hticks)
      as (s' & w' & taken & Erun & Hok' & Hcl' & Hcount & Hsplit & Htaken).
    cbn [run_ticks]. rewrite E. cbn [mbind option_bind].
    cbn [map concat length]. rewrite (assoc_L app).
    destruct Hw1 as [->|[c Hc]].
    + exists s', w', taken. rewrite Hsplit.
      split; [done|]. split; [done|]. split; [done|]. split; [done|].
      split; [done|lia].
    + exists s', w', (c :: taken). rewrite Hc, <- app_comm_cons, Hsplit.
      split; [done|]. split; [done|]. split; [done|]. split; [done|].
      split; [done|cbn [length]; lia].
Qed.

(** The server after start-up, one tick in which a connection arrives
    and no client is ready. *)
Lemma ticks_keep_server_in_order_witness :
  let quiet := {| polled := 0; incoming := sock_data [];
                  outgoing := sock_refuses |} in
  let ticks := [ {| tick_periods := periods; arrivals := [20];
                    tick_io := replicate QUERY_HANDLER_MAX_CLIENTS quiet |} ] in
  exists s' waiting' taken,
    run_ticks ticks init_server [] = Some (s', waiting')
    /\ table_ok s'
    /\ clients_ok s'
    /\ 0 <= query_handler_current_client_count s'
         <= Z.of_nat QUERY_HANDLER_MAX_CLIENTS
    /\ [] ++ concat (map arrivals ticks) = taken ++ waiting'
    /\ (length taken <= length ticks)%nat.
Proof.
  intros quiet ticks.
  apply (ticks_keep_server_in_order ticks init_server []).
  - apply init_server_ok.
  - apply init_clients_ok.
  - apply Forall_nil_2.
  - apply Forall_cons_2; [|apply Forall_nil_2]. cbn [tick_periods tick_io arrivals].
    split; [|split; [|split]].
    + apply (windows_state 0 0 0); unfold in_range, INT_MIN, INT_MAX; lia.
    + split; [reflexivity|]. apply Forall_replicate. discriminate.
    + apply Forall_replicate. exact I.
    + apply Forall_cons_2; [lia|apply Forall_nil_2].
Defined.

(** * Further properties: the socket path, start-up and shutdown *)

Module LifecycleFacts.
Import Text QueryHandler States Lifecycle.
Import TextFacts QueryHandlerFacts.

Lemma prefix_str_length n : forall s,
  String.length (prefix_str n s) = (n `min` String.length s)%nat.
Proof.
  induction n as [|n IH]; intros [|c s]; cbn [prefix_str String.length]; try done.
  rewrite IH. lia.
Qed.

Lemma prefix_str_all n : forall s,
  (String.length s <= n)%nat -> prefix_str n s = s.
Proof.
  induction n as [|n IH]; intros [|c s]; cbn [prefix_str String.length];
    try done; [lia|].
  intros H. rewrite IH; [done|lia].
Qed.

Lemma prefix_str_app n : forall a b,
  (String.length a <= n)%nat ->
  prefix_str n (a +:+ b) = a +:+ prefix_str (n - String.length a) b.
Proof.
  induction n as [|n IH]; intros [|c a] b; cbn [String.length]; intros H.
  - done.
  - lia.
  - rewrite append_empty_l. by rewrite Nat.sub_0_r.
  - rewrite !append_cons. cbn [prefix_str]. rewrite IH by lia. done.
Qed.

Lemma prefix_str_twice n : forall m s,
  (n <= m)%nat -> prefix_str n (prefix_str m s) = prefix_str n s.
Proof.
  induction n as [|n IH]; intros [|m] [|c s] H; cbn [prefix_str]; try done; [lia|].
  rewrite IH; [done|lia].
Qed.

(** Cutting a string before more is appended changes nothing within the
    cut. *)
Lemma prefix_str_app_cut n : forall a b,
  prefix_str n (prefix_str n a +:+ b) = prefix_str n (a +:+ b).
Proof.
  induction n as [|n IH]; intros [|c a] b.
  - done.
  - done.
  - done.
  - cbn [prefix_str]. rewrite !append_cons. cbn [prefix_str]. by rewrite IH.
Qed.

(** [strncat] into an array of [PATH_MAX] bytes, with the room that is
    left given as its bound, is the cut of the whole at [PATH_MAX - 1]. *)
Lemma strncat_bounded dst src :
  (String.length dst <= PATH_MAX - 1)%nat ->
  strncat dst src (PATH_MAX - 1 - String.length dst)
    = prefix_str (PATH_MAX - 1) (dst +:+ src).
Proof. intros H. unfold strncat. by rewrite prefix_str_app. Qed.

Lemma get_socket_folder_fresh p st :
  socket_folder st = EmptyString -> (String.length p < PATH_MAX)%nat ->
  query_handler_get_socket_folder (Some p) st =
    Some (Some (prefix_str (PATH_MAX - 1) (p +:+ "/norsi")),
          {| socket_folder := prefix_str (PATH_MAX - 1) (p +:+ "/norsi");
             socket_path_full := socket_path_full st |}).
Proof.
  intros Hfresh Hlen. unfold query_handler_get_socket_folder, strncpy.
  rewrite Hfresh. destruct (Nat.ltb_spec (String.length p) PATH_MAX); [|lia].
  cbn [mbind option_bind]. rewrite strncat_bounded by lia. done.
Qed.

Lemma get_full_socket_path_fresh p :
  (String.length p < PATH_MAX)%nat ->
  query_handler_get_full_socket_path (Some p) no_paths =
    Some (Some (prefix_str (PATH_MAX - 1) (p +:+ "/norsi/socket.sock")),
          {| socket_folder := prefix_str (PATH_MAX - 1) (p +:+ "/norsi");
             socket_path_full :=
               prefix_str (PATH_MAX - 1) (p +:+ "/norsi/socket.sock") |}).
Proof.
  intros Hlen. unfold query_handler_get_full_socket_path.
  cbn [no_paths socket_path_full].
  rewrite get_socket_folder_fresh by done. cbn [mbind option_bind].
  set (folder := prefix_str (PATH_MAX - 1) (p +:+ "/norsi")).
  assert (Hf : (String.length folder <= PATH_MAX - 1)%nat).
  { subst folder. rewrite prefix_str_length. lia. }
  unfold strncpy. destruct (Nat.ltb_spec (String.length folder) PATH_MAX);
    [|unfold PATH_MAX in *; lia].
  cbn [mbind option_bind socket_folder]. rewrite strncat_bounded by done.
  subst folder. rewrite prefix_str_app_cut, append_assoc. done.
Qed.

(** With the folder already in its array the environment is not read. *)
Lemma get_full_socket_path_folder_known env st c r :
  socket_path_full st = EmptyString ->
  socket_folder st = String c r ->
  (String.length (socket_folder st) <= PATH_MAX - 1)%nat ->
  query_handler_get_full_socket_path env st =
    Some (Some (prefix_str (PATH_MAX - 1) (socket_folder st +:+ "/socket.sock")),
          {| socket_folder := socket_folder st;
             socket_path_full :=
               prefix_str (PATH_MAX - 1) (socket_folder st +:+ "/socket.sock") |}).
Proof.
  intros Hpath Hfolder Hlen.
  unfold query_handler_get_full_socket_path, query_handler_get_socket_folder.
  rewrite Hpath. rewrite Hfolder at 1. cbn [mbind option_bind].
  unfold strncpy.
  destruct (Nat.ltb_spec (String.length (socket_folder st)) PATH_MAX);
    [|unfold PATH_MAX in *; lia].
  cbn [mbind option_bind]. rewrite strncat_bounded by done. done.
Qed.

Lemma cleanup_fds_closed fds :
  Forall (fun pfd => fd pfd = -1)
    (map (fun pfd => if fd pfd =? -1 then pfd
                     else {| fd := -1; events := events pfd;
                             revents := revents pfd |}) fds).
Proof.
  apply Forall_fmap, Forall_forall. intros pfd _. cbn.
  destruct (Z.eqb_spec (fd pfd) (-1)); done.
Qed.

Lemma count_clients_none fds :
  Forall (fun pfd => fd pfd = -1) fds -> count_clients fds 0 = 0.
Proof.
  induction 1 as [|pfd fds Hp _ IH]; [done|].
  rewrite count_clients_cons, IH, Hp. done.
Qed.

End LifecycleFacts.

Import Lifecycle LifecycleFacts.

(** X13: the socket path is the value of [XDG_RUNTIME_DIR] followed by
    [/norsi/socket.sock], cut to [PATH_MAX - 1] characters, and the
    folder is the value followed by [/norsi], cut likewise; nothing is
    cut while the value has at most 4077 characters.  A value of
    [PATH_MAX] characters or more fills the array without a NUL, and
    the length then taken of it is not defined. *)
Theorem socket_path_from_environment (p : string) :
  ((String.length p < PATH_MAX)%nat ->
   exists folder path,
     query_handler_get_full_socket_path (Some p) no_paths =
       Some (Some path, {| socket_folder := folder; socket_path_full := path |})
     /\ folder = prefix_str (PATH_MAX - 1) (p +:+ "/norsi")
     /\ path = prefix_str (PATH_MAX - 1) (p +:+ "/norsi/socket.sock")
     /\ (String.length path <= PATH_MAX - 1)%nat
     /\ ((String.length p <= 4077)%nat ->
         folder = p +:+ "/norsi" /\ path = p +:+ "/norsi/socket.sock"))
  /\ ((PATH_MAX <= String.length p)%nat ->
      query_handler_get_full_socket_path (Some p) no_paths = None
      /\ query_handler_get_socket_folder (Some p) no_paths = None).
Proof.
  split.
  - intros Hlen. do 2 eexists. split; [by apply get_full_socket_path_fresh|].
    split; [done|]. split; [done|]. split.
    + rewrite prefix_str_length. lia.
    + intros Hshort. split; apply prefix_str_all; rewrite length_append;
        cbn [String.length]; unfold PATH_MAX; lia.
  - intros Hlong.
    assert (Hf : query_handler_get_socket_folder (Some p) no_paths = None).
    { unfold query_handler_get_socket_folder, strncpy. cbn [no_paths socket_folder].
      destruct (Nat.ltb_spec (String.length p) PATH_MAX); [lia|done]. }
    split; [|done]. unfold query_handler_get_full_socket_path.
    cbn [no_paths socket_path_full]. fold no_paths. by rewrite Hf.
Qed.

(** X14: the environment is read until a path is found, and never
    again.  After a call that found [XDG_RUNTIME_DIR], a later call
    returns the same path and folder whatever the variable has become,
    set to another value or unset; a call that finds the variable unset
    returns [NULL] and remembers nothing, so that a later call with the
    variable set succeeds. *)
Theorem socket_path_is_remembered (p : string) (later : option string) :
  (String.length p < PATH_MAX)%nat ->
  exists path folder st,
    query_handler_get_full_socket_path (Some p) no_paths = Some (Some path, st)
    /\ query_handler_get_full_socket_path later st = Some (Some path, st)
    /\ query_handler_get_socket_folder later st = Some (Some folder, st)
    /\ socket_folder st = folder
    /\ query_handler_get_full_socket_path None no_paths = Some (None, no_paths)
    /\ query_handler_get_socket_folder None no_paths = Some (None, no_paths).
Proof.
  intros Hlen.
  exists (prefix_str (PATH_MAX - 1) (p +:+ "/norsi/socket.sock")),
         (prefix_str (PATH_MAX - 1) (p +:+ "/norsi")).
  eexists. split; [by apply get_full_socket_path_fresh|].
  assert (Hne : forall q, exists c r,
             prefix_str (PATH_MAX - 1) (p +:+ String "/" q) = String c r).
  { intros q. destruct p as [|c p]; cbn; eauto. }
  unfold query_handler_get_full_socket_path, query_handler_get_socket_folder.
  cbn [socket_path_full socket_folder no_paths].
  destruct (Hne "norsi/socket.sock") as (c1 & r1 & ->).
  destruct (Hne "norsi") as (c2 & r2 & ->).
  split; [done|]. split; [done|]. split; [done|]. split; done.
Qed.

Lemma socket_path_is_remembered_witness :
  exists path folder st,
    query_handler_get_full_socket_path (Some "/run/user/1000") no_paths
      = Some (Some path, st)
    /\ query_handler_get_full_socket_path (Some "/tmp") st = Some (Some path, st)
    /\ query_handler_get_socket_folder (Some "/tmp") st = Some (Some folder, st)
    /\ socket_folder st = folder
    /\ query_handler_get_full_socket_path None no_paths = Some (None, no_paths)
    /\ query_handler_get_socket_folder None no_paths = Some (None, no_paths).
Proof.
  apply (socket_path_is_remembered "/run/user/1000" (Some "/tmp")).
  unfold PATH_MAX. simpl. lia.
Defined.

(** The value [/run/user/1000], and a value of 4096 characters. *)
Lemma socket_path_from_environment_witness :
  (exists folder path,
     query_handler_get_full_socket_path (Some "/run/user/1000") no_paths =
       Some (Some path, {| socket_folder := folder; socket_path_full := path |})
     /\ folder = "/run/user/1000/norsi"
     /\ path = "/run/user/1000/norsi/socket.sock")
  /\ query_handler_get_full_socket_path
       (Some (string_of_list_ascii (replicate 4096 "a"%char))) no_paths = None.
Proof.
  split.
  - destruct (proj1 (socket_path_from_environment "/run/user/1000"))
      as (folder & path & E & _ & _ & _ & Hshort).
    + unfold PATH_MAX. simpl. lia.
    + exists folder, path. split; [exact E|]. apply Hshort. simpl. lia.
  - apply (proj2 (socket_path_from_environment
                    (string_of_list_ascii (replicate 4096 "a"%char)))).
    apply Nat.leb_le. vm_compute. reflexivity.
Defined.

(** X15: [query_handler_cleanup] leaves no client connected: every slot
    of the table holds [-1] and the count of clients is 0, whatever the
    table held; the client states are not touched, and a second cleanup
    changes nothing more in the table.  The socket file is unlinked
    exactly when there is a listening descriptor. *)
Theorem cleanup_closes_every_client (st : paths) (listener_fd : Z) (s : server) :
  let after := query_handler_cleanup st listener_fd s in
  Forall (fun pfd => fd pfd = -1) (conn_poll_fds (stopped_table after))
  /\ query_handler_current_client_count (stopped_table after) = 0
  /\ length (conn_poll_fds (stopped_table after)) = length (conn_poll_fds s)
  /\ client_states (stopped_table after) = client_states s
  /\ stopped_table (query_handler_cleanup st listener_fd (stopped_table after))
     = stopped_table after
  /\ (unlinked_path after = None <-> listener_fd = -1)
  /\ removed_folder after = socket_folder st.
Proof.
  intros after. subst after. unfold query_handler_cleanup.
  cbn [stopped_table conn_poll_fds client_states unlinked_path removed_folder].
  pose proof (cleanup_fds_closed (conn_poll_fds s)) as Hclosed.
  split; [done|]. split.
  { unfold query_handler_current_client_count. cbn [conn_poll_fds].
    by apply count_clients_none. }
  split; [by rewrite length_map|]. split; [done|]. split.
  { f_equal. rewrite <- (map_id (map _ (conn_poll_fds s))) at 2.
    apply map_ext_Forall. eapply Forall_impl; [exact Hclosed|].
    intros pfd Hfd. cbv beta in *. rewrite Hfd. done. }
  split; [|done].
  destruct (Z.eqb_spec listener_fd (-1)); split; (done || congruence).
Qed.

(** X16: what [query_handler_init_server] sets up when
    [XDG_RUNTIME_DIR] is set to [p] with fewer than [PATH_MAX]
    characters.  Every slot of the table is free, so the count of
    clients is 0; the folder made is [p/norsi], cut as the path is; and
    the address given to [bind] is the socket path cut to the 107
    characters that [sun_path] holds.  The path that the cleanup
    unlinks is the uncut one: the two are the same exactly while [p]
    has at most 89 characters. *)
Theorem init_binds_cut_path (p : string) (socket_fd : Z) (s : server) :
  (String.length p < PATH_MAX)%nat ->
  socket_fd <> -1 ->
  exists started,
    query_handler_init_server (Some p) socket_fd no_paths s = Some started
    /\ Forall (fun pfd => pfd = {| fd := -1; events := 0; revents := 0 |})
              (conn_poll_fds (started_table started))
    /\ query_handler_current_client_count (started_table started) = 0
    /\ client_states (started_table started) = client_states s
    /\ made_folder started
       = Some (prefix_str (PATH_MAX - 1) (p +:+ "/norsi"))
    /\ bound_path started
       = prefix_str (SUN_PATH_SIZE - 1) (p +:+ "/norsi/socket.sock")
    /\ unlinked_path (query_handler_cleanup (started_paths started)
                        (socket_listener_fd started) (started_table started))
       = Some (prefix_str (PATH_MAX - 1) (p +:+ "/norsi/socket.sock"))
    /\ (unlinked_path (query_handler_cleanup (started_paths started)
                         (socket_listener_fd started) (started_table started))
        = Some (bound_path started)
        <-> (String.length p <= 89)%nat).
Proof.
  intros Hlen Hfd. unfold query_handler_init_server.
  pose proof (get_socket_folder_fresh p no_paths eq_refl Hlen) as Hfolder.
  rewrite Hfolder. cbn [mbind option_bind no_paths socket_path_full].
  set (folder := prefix_str (PATH_MAX - 1) (p +:+ "/norsi")).
  set (path := prefix_str (PATH_MAX - 1) (p +:+ "/norsi/socket.sock")).
  assert (Hpath : query_handler_get_full_socket_path (Some p)
                    {| socket_folder := folder; socket_path_full := EmptyString |}
                  = Some (Some path,
                          {| socket_folder := folder; socket_path_full := path |})).
  { assert (Hne : exists c r, folder = String c r).
    { subst folder. destruct p as [|c p]; cbn; eauto. }
    destruct Hne as (c & r & Hcr).
    rewrite (get_full_socket_path_folder_known _ _ c r); cbn [socket_folder];
      [|done|done|subst folder; rewrite prefix_str_length; lia].
    subst folder path. by rewrite prefix_str_app_cut, append_assoc. }
  rewrite Hpath. cbn [mbind option_bind].
  eexists. split; [done|].
  cbn [started_table started_paths socket_listener_fd made_folder bound_path
       conn_poll_fds client_states].
  assert (Hfree : Forall (fun pfd => pfd = {| fd := -1; events := 0; revents := 0 |})
                    (map (fun _ : pollfd => {| fd := -1; events := 0; revents := 0 |})
                         (conn_poll_fds s))).
  { apply Forall_fmap, Forall_forall. done. }
  split; [done|]. split.
  { unfold query_handler_current_client_count. cbn [conn_poll_fds].
    apply count_clients_none. eapply Forall_impl; [exact Hfree|].
    by intros pfd ->. }
  split; [done|]. split; [done|]. split.
  { subst path. apply prefix_str_twice. unfold SUN_PATH_SIZE, PATH_MAX. lia. }
  unfold query_handler_cleanup. cbn [unlinked_path socket_path_full].
  destruct (Z.eqb_spec socket_fd (-1)); [done|]. split; [done|].
  assert (Hlp : String.length path = (4095 `min` (String.length p + 18))%nat).
  { subst path. rewrite prefix_str_length, length_append. done. }
  assert (Hlb : String.length (prefix_str (SUN_PATH_SIZE - 1) path)
                = (107 `min` String.length path)%nat)
    by apply prefix_str_length.
  split.
  - intros E.
    assert (E' : String.length path
                 = String.length (prefix_str (SUN_PATH_SIZE - 1) path))
      by congruence.
    rewrite Hlb in E'. lia.
  - intros Hshort. f_equal. symmetry. apply prefix_str_all.
    unfold SUN_PATH_SIZE. lia.
Qed.

Lemma init_binds_cut_path_witness :
  exists started,
    query_handler_init_server (Some "/run/user/1000") 3 no_paths init_server
      = Some started
    /\ Forall (fun pfd => pfd = {| fd := -1; events := 0; revents := 0 |})
              (conn_poll_fds (started_table started))
    /\ query_handler_current_client_count (started_table started) = 0
    /\ client_states (started_table started) = client_states init_server
    /\ made_folder started
       = Some (prefix_str (PATH_MAX - 1) ("/run/user/1000" +:+ "/norsi"))
    /\ bound_path started
       = prefix_str (SUN_PATH_SIZE - 1) ("/run/user/1000" +:+ "/norsi/socket.sock")
    /\ unlinked_path (query_handler_cleanup (started_paths started)
                        (socket_listener_fd started) (started_table started))
       = Some (prefix_str (PATH_MAX - 1) ("/run/user/1000" +:+ "/norsi/socket.sock"))
    /\ (unlinked_path (query_handler_cleanup (started_paths started)
                         (socket_listener_fd started) (started_table started))
        = Some (bound_path started)
        <-> (String.length "/run/user/1000" <= 89)%nat).
Proof.
  apply (init_binds_cut_path "/run/user/1000" 3 init_server).
  - unfold PATH_MAX. simpl. lia.
  - lia.
Defined.

(** * Further properties: the main loop *)

Module MainLoopFacts.
Import CInt SafetyTracker States MainLoop.
Import CIntFacts SafetyTrackerFacts MoreTrackerFacts.

(** The handlers overwrite the state: the last event decides. *)
Lemma dispatch_events_last events e st :
  dispatch_events (events ++ [e]) st =
    match e with
    | idle_at t => idle_timer_idle t (dispatch_events events st)
    | resumed_at t => idle_timer_resumed t (dispatch_events events st)
    end.
Proof. unfold dispatch_events. by rewrite fold_left_app. Qed.

Lemma non_decreasing_cons x y l :
  non_decreasing (x :: y :: l) <-> x <= y /\ non_decreasing (y :: l).
Proof. done. Qed.

Lemma non_decreasing_last l : forall x,
  non_decreasing (x :: l) -> x <= last_reading x l.
Proof.
  induction l as [|y l IH]; intros x; cbn [last_reading]; [lia|].
  intros [Hxy Hrest]%non_decreasing_cons. specialize (IH y Hrest). lia.
Qed.

(** Passes without events while the user is active.  [prev] is the
    clock of the pass before, or the time of the change when there was
    none; each pass whose clock has moved on reports the seconds since
    [prev]. *)
Lemma active_passes t0 nows : forall prev l,
  user_state (state l) = USER_ACTIVE ->
  check_user_state (state l) = 0 ->
  user_state_timestamp (state l) = t0 ->
  (last_active_update l = -1 /\ prev = t0
   \/ last_active_update l = prev /\ t0 < prev) ->
  0 <= t0 <= prev ->
  non_decreasing (prev :: nows) ->
  last_reading prev nows <= INT_MAX ->
  exists l' deltas,
    loop_passes (map (fun n => ([], n)) nows) l = (l', map call_active deltas)
    /\ Forall (fun n => 0 < n) deltas
    /\ sum_list deltas = last_reading prev nows - prev
    /\ tracked l' = provide_active_run deltas (tracked l)
    /\ state l' = state l.
Proof.
  induction nows as [|now nows IH]; intros prev l Hact Hchk Hts Hinv Ht0 Hnd Hmax.
  - exists l, []. cbn. split; [done|]. split; [constructor|].
    split; [cbn; lia|done].
  - apply non_decreasing_cons in Hnd as [Hle Hnd].
    cbn [last_reading] in *.
    pose proof (non_decreasing_last _ _ Hnd) as Hlast.
    unfold INT_MAX in *.
    assert (Hw : forall z, 0 <= z <= 2147483647 -> wrap z = z).
    { intros z Hz. apply wrap_in_range. unfold in_range, INT_MIN, INT_MAX. lia. }
    cbn [map loop_passes]. unfold loop_pass.
    cbn [dispatch_events fold_left]. unfold note_change. rewrite Hchk.
    cbn [Z.eqb]. unfold report. rewrite Hact, Hts.
    rewrite (Hw (0 + now - t0)) by lia.
    destruct (decide (prev < now)) as [Hmoved|Hstill].
    + assert (Hcond : (0 <? 0 + now - t0) && (last_active_update l <? now) = true).
      { destruct Hinv as [[-> _]|[-> _]];
          apply andb_true_intro; split; apply Z.ltb_lt; lia. }
      rewrite Hcond.
      assert (Hdelta : wrap (now - (if last_active_update l =? -1
                                    then wrap t0 else last_active_update l))
                       = now - prev).
      { destruct Hinv as [[-> ->]|[-> Hlt]].
        - cbn [Z.eqb]. rewrite (Hw t0) by lia. apply Hw. lia.
        - destruct (Z.eqb_spec prev (-1)); [lia|]. apply Hw. lia. }
      rewrite Hdelta, (Hw now) by lia.
      set (l1 := {| state := state l; last_active_update := now;
                    tracked := apply_call (Some (call_active (now - prev)))
                                 (tracked l) |}).
      destruct (IH now l1) as (l' & deltas & E & Hpos & Hsum & Htr & Hst);
        try done; [right; split; [done|lia]|lia|].
      rewrite E. exists l', ((now - prev) :: deltas).
      split; [done|]. split; [apply Forall_cons_2; [lia|done]|].
      split; [cbn [sum_list fold_right]; fold (sum_list deltas); lia|].
      split; [|done]. rewrite Htr. done.
    + assert (now = prev) as -> by lia.
      assert (Hcond : (0 <? 0 + prev - t0) && (last_active_update l <? prev) = false).
      { destruct Hinv as [[_ ->]|[-> _]].
        - apply andb_false_intro1, Z.ltb_ge. lia.
        - apply andb_false_intro2, Z.ltb_ge. lia. }
      rewrite Hcond.
      set (l1 := {| state := state l; last_active_update := last_active_update l;
                    tracked := apply_call None (tracked l) |}).
      destruct (IH prev l1) as (l' & deltas & E & Hpos & Hsum & Htr & Hst);
        try done.
      rewrite E. exists l', deltas. done.
Qed.

(** Passes without events while the user is idle: every pass reports
    the whole idle time so far, and together they do what the last
    report does. *)
Lemma idle_passes t nows : forall prev l,
  user_state (state l) = USER_IDLE ->
  check_user_state (state l) = 0 ->
  user_state_timestamp (state l) = t ->
  0 <= t <= prev ->
  non_decreasing (prev :: nows) ->
  last_reading prev nows < INT_MAX ->
  exists l',
    loop_passes (map (fun n => ([], n)) nows) l
      = (l', map (fun n => call_idle (1 + n - t)) nows)
    /\ tracked l' = provide_idle_run (map (fun n => 1 + n - t) nows) (tracked l)
    /\ state l' = state l
    /\ last_active_update l' = last_active_update l.
Proof.
  induction nows as [|now nows IH]; intros prev l Hidle Hchk Hts Ht Hnd Hmax.
  - exists l. cbn. done.
  - apply non_decreasing_cons in Hnd as [Hle Hnd].
    cbn [last_reading] in *.
    pose proof (non_decreasing_last _ _ Hnd) as Hlast.
    unfold INT_MAX in *.
    cbn [map loop_passes]. unfold loop_pass.
    cbn [dispatch_events fold_left]. unfold note_change. rewrite Hchk.
    cbn [Z.eqb]. unfold report. rewrite Hidle, Hts.
    rewrite (wrap_in_range (1 + now - t))
      by (unfold in_range, INT_MIN, INT_MAX; lia).
    set (l1 := {| state := state l; last_active_update := last_active_update l;
                  tracked := apply_call (Some (call_idle (1 + now - t)))
                               (tracked l) |}).
    destruct (IH now l1) as (l' & E & Htr & Hst & Hlau); try done; [lia|].
    rewrite E. exists l'. split; [done|].
    split; [|done]. rewrite Htr. done.
Qed.

(** The first pass after an event behaves as a pass without events from
    the state that the handler and the note of the change leave. *)
Lemma loop_pass_resumed events t0 now l :
  loop_pass (events ++ [resumed_at t0]) now l =
    loop_pass [] now
      {| state := {| check_user_state := 0; user_state := USER_ACTIVE;
                     user_state_timestamp := t0 |};
         last_active_update := -1; tracked := tracked l |}.
Proof. unfold loop_pass. by rewrite dispatch_events_last. Qed.

Lemma loop_pass_idle events t now l :
  loop_pass (events ++ [idle_at t]) now l =
    loop_pass [] now
      {| state := {| check_user_state := 0; user_state := USER_IDLE;
                     user_state_timestamp := t |};
         last_active_update := last_active_update l; tracked := tracked l |}.
Proof. unfold loop_pass. by rewrite dispatch_events_last. Qed.

(** Idle reports that never go down do what the last of them does. *)
Lemma provide_idle_run_last idles : forall s ps,
  non_decreasing (s :: idles) ->
  provide_idle_run idles (tracker_provide_idle_seconds s ps)
    = tracker_provide_idle_seconds (last_reading s idles) ps.
Proof.
  induction idles as [|y idles IH]; intros s ps; [done|].
  intros [Hsy Hrest]%non_decreasing_cons.
  change (provide_idle_run (y :: idles) (tracker_provide_idle_seconds s ps))
    with (provide_idle_run idles
            (tracker_provide_idle_seconds y (tracker_provide_idle_seconds s ps))).
  rewrite provide_idle_absorb by done. by apply IH.
Qed.

Lemma non_decreasing_shift (f : Z -> Z) l : forall x,
  (forall a b, a <= b -> f a <= f b) ->
  non_decreasing (x :: l) -> non_decreasing (f x :: map f l).
Proof.
  induction l as [|y l IH]; intros x Hf; [done|].
  intros [Hxy Hrest]%non_decreasing_cons.
  change (map f (y :: l)) with (f y :: map f l).
  apply non_decreasing_cons. split; [by apply Hf|by apply IH].
Qed.

Lemma last_reading_map (f : Z -> Z) l : forall x,
  last_reading (f x) (map f l) = f (last_reading x l).
Proof. induction l as [|y l IH]; intros x; [done|]. apply IH. Qed.

End MainLoopFacts.

Import MainLoop MainLoopFacts.

(** X17: active time is counted once.  From the pass that sees the user
    resume at [t0], however often the loop runs and whatever second its
    clock shows each time, the calls made to the tracker are calls of
    [tracker_provide_active_seconds] with positive arguments whose sum
    is the clock of the last pass minus [t0]; so every window has
    gained exactly that many seconds, while it stays an [int]. *)
Theorem active_time_counted_once (l : loop_state) (events : list idle_event)
    (t0 now : Z) (later : list Z) :
  0 <= t0 ->
  non_decreasing (t0 :: now :: later) ->
  last_reading now later <= INT_MAX ->
  let passes :=
    (events ++ [resumed_at t0], now) :: map (fun n => ([], n)) later in
  let elapsed := last_reading now later - t0 in
  exists l' deltas,
    loop_passes passes l = (l', map call_active deltas)
    /\ Forall (fun n => 0 < n) deltas
    /\ sum_list deltas = elapsed
    /\ tracked l' = provide_active_run deltas (tracked l)
    /\ user_state (state l') = USER_ACTIVE
    /\ (Forall (fun p => in_range (active_seconds p)
                         /\ active_seconds p + elapsed <= INT_MAX) (tracked l) ->
        tracked l' =
          map (fun p => set_active_seconds p (active_seconds p + elapsed))
              (tracked l)).
Proof.
  intros Ht0 Hnd Hmax passes elapsed. subst passes elapsed.
  set (l0 := {| state := {| check_user_state := 0; user_state := USER_ACTIVE;
                            user_state_timestamp := t0 |};
                last_active_update := -1; tracked := tracked l |}).
  assert (Hsame : loop_passes ((events ++ [resumed_at t0], now)
                               :: map (fun n => ([], n)) later) l
                  = loop_passes (map (fun n => ([], n)) (now :: later)) l0).
  { cbn [map loop_passes]. by rewrite loop_pass_resumed. }
  rewrite Hsame.
  destruct (active_passes t0 (now :: later) t0 l0)
    as (l' & deltas & E & Hpos & Hsum & Htr & Hst);
    [done|done|done|by left|lia|exact Hnd|exact Hmax|].
  cbn [last_reading] in Hsum.
  exists l', deltas. split; [done|]. split; [done|]. split; [done|].
  split; [done|]. split; [by rewrite Hst|].
  intros Hps. rewrite Htr. cbn [l0 tracked]. rewrite <- Hsum.
  apply provide_active_run_exact; [done|]. by rewrite Hsum.
Qed.

(** The user resumes at second 100; the loop runs at 100, 100, 101, 101
    and 104. *)
Lemma active_time_counted_once_witness :
  exists l' deltas,
    loop_passes (([idle_at 40; resumed_at 100], 100)
                 :: map (fun n => ([], n)) [100; 101; 101; 104]) loop_start
      = (l', map call_active deltas)
    /\ Forall (fun n => 0 < n) deltas
    /\ sum_list deltas = 4
    /\ tracked l' = provide_active_run deltas periods
    /\ user_state (state l') = USER_ACTIVE
    /\ (Forall (fun p => in_range (active_seconds p)
                         /\ active_seconds p + 4 <= INT_MAX) periods ->
        tracked l' = map (fun p => set_active_seconds p (active_seconds p + 4))
                         periods).
Proof.
  apply (active_time_counted_once loop_start [idle_at 40] 100 100
           [100; 101; 101; 104]).
  - lia.
  - simpl. lia.
  - unfold INT_MAX. simpl. lia.
Defined.

(** X18: idle time is reported whole.  From the pass that sees the user
    go idle at [t], every pass calls [tracker_provide_idle_seconds] with
    one second more than its clock minus [t], never less than 1; and
    the passes together leave the windows as one report of the last
    idle time would.  [last_active_update] is not touched. *)
Theorem idle_time_reported_whole (l : loop_state) (events : list idle_event)
    (t now : Z) (later : list Z) :
  0 <= t ->
  non_decreasing (t :: now :: later) ->
  last_reading now later < INT_MAX ->
  let passes :=
    (events ++ [idle_at t], now) :: map (fun n => ([], n)) later in
  exists l',
    loop_passes passes l
      = (l', map (fun n => call_idle (1 + n - t)) (now :: later))
    /\ Forall (fun n => 1 <= 1 + n - t) (now :: later)
    /\ tracked l' = tracker_provide_idle_seconds
                      (1 + last_reading now later - t) (tracked l)
    /\ user_state (state l') = USER_IDLE
    /\ last_active_update l' = last_active_update l.
Proof.
  intros Ht Hnd Hmax passes. subst passes.
  set (l0 := {| state := {| check_user_state := 0; user_state := USER_IDLE;
                            user_state_timestamp := t |};
                last_active_update := last_active_update l;
                tracked := tracked l |}).
  assert (Hsame : loop_passes ((events ++ [idle_at t], now)
                               :: map (fun n => ([], n)) later) l
                  = loop_passes (map (fun n => ([], n)) (now :: later)) l0).
  { cbn [map loop_passes]. by rewrite loop_pass_idle. }
  rewrite Hsame.
  destruct (idle_passes t (now :: later) t l0)
    as (l' & E & Htr & Hst & Hlau);
    [done|done|done|lia|exact Hnd|exact Hmax|].
  exists l'. split; [done|]. split.
  { clear -Hnd. apply non_decreasing_cons in Hnd as [Hle Hnd].
    revert Hle Hnd. generalize now. induction later as [|y later IH];
      intros x Hle Hnd.
    - apply Forall_cons_2; [lia|constructor].
    - apply non_decreasing_cons in Hnd as [Hxy Hnd].
      apply Forall_cons_2; [lia|]. apply IH; [lia|done]. }
  split; [|by rewrite Hst, Hlau].
  rewrite Htr. cbn [l0 tracked]. apply non_decreasing_cons in Hnd as [_ Hnd].
  assert (Hlast : last_reading (1 + now - t) (map (fun n => 1 + n - t) later)
                  = 1 + last_reading now later - t)
    by apply (last_reading_map (fun n => 1 + n - t)).
  assert (Hup : non_decreasing ((1 + now - t) :: map (fun n => 1 + n - t) later)).
  { apply (non_decreasing_shift (fun n => 1 + n - t)); [intros; lia|done]. }
  rewrite <- Hlast.
  rewrite <- (provide_idle_run_last (map (fun n => 1 + n - t) later)
                (1 + now - t) (tracked l) Hup).
  done.
Qed.

(** The user goes idle at second 200 with 50 seconds in every window;
    the loop runs at 200, 207, 215 and 230. *)
Lemma idle_time_reported_whole_witness :
  let l := {| state := main_state; last_active_update := 180;
              tracked := windows 50 50 50 |} in
  exists l',
    loop_passes (([idle_at 200], 200) :: map (fun n => ([], n)) [207; 215; 230]) l
      = (l', map (fun n => call_idle (1 + n - 200)) (200 :: [207; 215; 230]))
    /\ Forall (fun n => 1 <= 1 + n - 200) (200 :: [207; 215; 230])
    /\ tracked l' = tracker_provide_idle_seconds
                      (1 + last_reading 200 [207; 215; 230] - 200) (tracked l)
    /\ user_state (state l') = USER_IDLE
    /\ last_active_update l' = last_active_update l.
Proof.
  intros l.
  apply (idle_time_reported_whole l [] 200 200 [207; 215; 230]).
  - lia.
  - simpl. lia.
  - unfold INT_MAX. simpl. lia.
Defined.

(** X19: until the first event of the idle timeout arrives the tracker
    is told nothing: from the start of [main], passes that dispatch no
    event make no call and leave every window at 0, whatever the clock
    shows and however long that lasts. *)
Theorem nothing_reported_before_first_event (nows : list Z) :
  exists l',
    loop_passes (map (fun n => ([], n)) nows) loop_start = (l', [])
    /\ tracked l' = periods
    /\ user_state (state l') = USER_UNKNOWN.
Proof.
  assert (Hgen : forall l, user_state (state l) = USER_UNKNOWN ->
            exists l', loop_passes (map (fun n => ([], n)) nows) l = (l', [])
                       /\ tracked l' = tracked l
                       /\ user_state (state l') = USER_UNKNOWN).
  { induction nows as [|now nows IH]; intros l Hun; [by exists l|].
    cbn [map loop_passes]. unfold loop_pass. cbn [dispatch_events fold_left].
    unfold note_change.
    destruct (check_user_state (state l) =? 0);
      unfold report; cbn [user_state]; rewrite Hun.
    - destruct (IH {| state := state l; last_active_update := last_active_update l;
                      tracked := apply_call None (tracked l) |} Hun)
        as (l' & E & Htr & Hst).
      rewrite E. by exists l'.
    - destruct (IH {| state := {| check_user_state := 0;
                                  user_state := USER_UNKNOWN;
                                  user_state_timestamp :=
                                    user_state_timestamp (state l) |};
                      last_active_update := last_active_update l;
                      tracked := apply_call None (tracked l) |} eq_refl)
        as (l' & E & Htr & Hst).
      rewrite E. by exists l'. }
  apply (Hgen loop_start). reflexivity.
Qed.

(** * Further properties: a request and its response *)

Module ExchangeFacts.
Import CInt Text SafetyTracker QueryHandler Spec States.
Import CIntFacts TextFacts SafetyTrackerFacts QueryHandlerFacts.
Import MoreQueryHandlerFacts.

Lemma flag_set_after_lor w : flag_set (Z.lor w POLLOUT) POLLOUT = true.
Proof.
  unfold flag_set. rewrite Z.land_lor_distr_l.
  destruct (Z.eqb_spec (Z.lor (Z.land w POLLOUT) (Z.land POLLOUT POLLOUT)) 0)
    as [E|_]; [|done].
  apply Z.lor_eq_0_iff in E as [_ E]. done.
Qed.

Lemma flag_set_after_clear w : flag_set (clear_flag w POLLOUT) POLLOUT = false.
Proof.
  unfold flag_set, clear_flag. rewrite <- Z.land_assoc.
  change (Z.land (Z.lnot POLLOUT) POLLOUT) with 0. by rewrite Z.land_0_r.
Qed.

(** The pass that reads the request [status] into an empty buffer. *)
Lemma request_pass ps pfd cs wr :
  tracker_state ps -> client_sized cs ->
  in_len cs = 0 -> out_len cs = 0 -> revents pfd = POLLIN ->
  exists status cs1,
    tracker_get_status_json ps = Some status
    /\ serve_client ps pfd cs (sock_data (bytes_of ("status" +:+ nl))) wr
       = Some ({| fd := fd pfd; events := Z.lor (events pfd) POLLOUT;
                  revents := clear_flag POLLIN POLLIN |}, cs1)
    /\ in_len cs1 = 0
    /\ out_len cs1 = strlen status
    /\ out cs1 = bytes_of status ++ drop (String.length status) (out cs)
    /\ client_sized cs1.
Proof.
  intros Hps Hsz Hil Hol Hrev. pose proof Hsz as [Hin Hout].
  unfold QUERY_HANDLER_MAX_CLIENT_BUFFER in *.
  destruct (status_response_fits ps Hps) as (status & Hjson & _ & Hslen).
  unfold serve_client, receive_incoming. rewrite Hrev.
  change (flag_set POLLIN (Z.lor POLLIN POLLOUT)) with true.
  change (flag_set POLLIN POLLIN) with true. cbn [negb sys_read].
  rewrite Hil. unfold QUERY_HANDLER_MAX_CLIENT_BUFFER.
  change (take (Z.to_nat (1024 - 0)) (bytes_of ("status" +:+ nl)))
    with (bytes_of ("status" +:+ nl)).
  rewrite store_bytes_Some by (change (length (bytes_of _)) with 7%nat; lia).
  cbn [mbind option_bind].
  change (Z.of_nat (length (bytes_of ("status" +:+ nl)))) with 7.
  cbn [Z.eqb Pos.eqb]. change (Z.to_nat 0) with O. rewrite take_0. cbn [app].
  change (0 + length (bytes_of ("status" +:+ nl)))%nat with 7%nat.
  set (buf := bytes_of ("status" +:+ nl) ++ drop 7 (in_buf cs)).
  set (cs0 := {| in_buf := buf; in_len := 7; in_ready := in_ready cs;
                 out := out cs; out_len := out_len cs |}).
  assert (Hf0 : forall r, filled {| in_buf := buf; in_len := 7; in_ready := r;
                                    out := out cs; out_len := out_len cs |}
                          = bytes_of "status" ++ newline :: []).
  { intros r. unfold filled. cbn [in_len in_buf]. reflexivity. }
  assert (Hready : query_handler_message_ready cs0 = true).
  { unfold query_handler_message_ready, cs0. by rewrite Hf0. }
  rewrite Hready. subst cs0. cbn [in_buf in_len out out_len mbind option_bind].
  set (cs1 := {| in_buf := buf; in_len := 7; in_ready := 1;
                 out := out cs; out_len := out_len cs |}).
  unfold send_outgoing.
  assert (Hnw : flag_set (revents {| fd := fd pfd; events := events pfd;
                                     revents := clear_flag POLLIN POLLIN |})
                  POLLOUT = false) by reflexivity.
  rewrite Hnw.
  cbn [mbind option_bind]. unfold handle_complete.
  assert (Hready1 : query_handler_message_ready cs1 = true).
  { unfold query_handler_message_ready, cs1. by rewrite Hf0. }
  rewrite Hready1. unfold handle_fuel. cbn [in_len cs1].
  change (Z.to_nat 7) with 7%nat. cbn [handle_ready_messages]. rewrite Hready1.
  assert (Hsz1 : client_sized cs1).
  { split; cbn [cs1 in_buf out]; [|done]. subst buf.
    rewrite length_app, length_drop.
    change (length (bytes_of ("status" +:+ nl))) with 7%nat.
    unfold QUERY_HANDLER_MAX_CLIENT_BUFFER. lia. }
  destruct (handle_message_framed ps cs1 (bytes_of "status") [] Hps Hsz1)
    as (cs2 & E2 & Hl2 & Hb2 & _ & Hsz2 & Hout2).
  { cbn [cs1 in_len]. unfold QUERY_HANDLER_MAX_CLIENT_BUFFER. lia. }
  { apply Hf0. }
  { intros H. repeat (apply elem_of_cons in H as [H|H]; [discriminate H|]).
    by apply elem_of_nil in H. }
  change (strcmp_eq (bytes_of "status") "status") with true in Hout2.
  destruct Hout2 as (status' & Hjson' & Hol2 & Hob2).
  rewrite Hjson in Hjson'. injection Hjson' as <-.
  rewrite E2. cbn [mbind option_bind].
  assert (Hnr : query_handler_message_ready cs2 = false).
  { apply message_ready_false. unfold filled. rewrite Hl2.
    cbn. apply not_elem_of_nil. }
  rewrite Hnr. cbn [mbind option_bind].
  assert (Hpos : (0 <? out_len cs2) = true).
  { apply Z.ltb_lt. rewrite Hol2. unfold strlen. lia. }
  rewrite Hpos. cbn [fd events revents].
  exists status, cs2. split; [done|]. split; [done|].
  split; [done|]. split; [done|]. split; [done|done].
Qed.

End ExchangeFacts.

Import ExchangeFacts.

(** X20: a request and its response.  A client with nothing buffered
    sends [status] and a line feed.  The pass that reads the request
    leaves the input buffer empty and the status line of the tracker's
    state in the output buffer, and asks [poll] for writability.  The
    next pass that finds the socket writable, with room for the line,
    sends the whole line: the output buffer is empty again and the
    interest in writing is dropped. *)
Theorem status_request_is_answered (ps : list tracking_period) (pfd : pollfd)
    (cs : client_state) (wr : socket_output) (rd : socket_input) (room : nat) :
  tracker_state ps ->
  client_sized cs ->
  in_len cs = 0 ->
  out_len cs = 0 ->
  revents pfd = POLLIN ->
  exists status pfd1 cs1,
    tracker_get_status_json ps = Some status
    /\ serve_client ps pfd cs (sock_data (bytes_of ("status" +:+ nl))) wr
       = Some (pfd1, cs1)
    /\ fd pfd1 = fd pfd
    /\ in_len cs1 = 0
    /\ queued cs1 = bytes_of status
    /\ flag_set (events pfd1) POLLOUT = true
    /\ (strlen status <= Z.of_nat room ->
        exists pfd2 cs2,
          serve_client ps
            {| fd := fd pfd1; events := events pfd1; revents := POLLOUT |}
            cs1 rd (sock_takes room) = Some (pfd2, cs2)
          /\ fd pfd2 = fd pfd
          /\ out_len cs2 = 0
          /\ in_len cs2 = 0
          /\ flag_set (events pfd2) POLLOUT = false).
Proof.
  intros Hps Hsz Hil Hol Hrev.
  destruct (request_pass ps pfd cs wr Hps Hsz Hil Hol Hrev)
    as (status & cs1 & Hjson & E1 & Hil1 & Hol1 & Hob1 & Hsz1).
  exists status. eexists. exists cs1. split; [done|]. split; [exact E1|].
  cbn [fd events]. split; [done|]. split; [done|]. split.
  { unfold queued. rewrite Hol1, Hob1. unfold strlen. rewrite Nat2Z.id.
    rewrite <- (length_bytes_of status). apply take_app_length. }
  split; [apply flag_set_after_lor|].
  intros Hroom. unfold serve_client. cbn [revents].
  change (flag_set POLLOUT (Z.lor POLLIN POLLOUT)) with true. cbn [negb].
  rewrite receive_incoming_skipped by done. cbn [mbind option_bind].
  unfold send_outgoing. cbn [revents].
  change (flag_set POLLOUT POLLOUT) with true. cbn [sys_write].
  assert (Hmin : Z.min (out_len cs1) (Z.of_nat room) = out_len cs1) by lia.
  rewrite Hmin.
  assert (Hnn : 0 <= out_len cs1) by (rewrite Hol1; unfold strlen; lia).
  destruct (Z.eqb_spec (out_len cs1) (-1)); [lia|].
  rewrite Z.eqb_refl. cbn [mbind option_bind]. unfold handle_complete.
  assert (Hnr : query_handler_message_ready
                  {| in_buf := in_buf cs1; in_len := in_len cs1;
                     in_ready := in_ready cs1; out := out cs1; out_len := 0 |}
                = false).
  { apply message_ready_false. unfold filled. cbn [in_len in_buf].
    rewrite Hil1. cbn. apply not_elem_of_nil. }
  rewrite Hnr. do 2 eexists. split; [done|]. cbn [fd events out_len in_len].
  split; [done|]. split; [done|]. split; [done|].
  apply flag_set_after_clear.
Qed.

(** A fresh client asks for the status while the windows are at 0. *)
Lemma status_request_is_answered_witness :
  exists status pfd1 cs1,
    tracker_get_status_json periods = Some status
    /\ serve_client periods readable_pfd zero_client
         (sock_data (bytes_of ("status" +:+ nl))) sock_refuses
       = Some (pfd1, cs1)
    /\ fd pfd1 = fd readable_pfd
    /\ in_len cs1 = 0
    /\ queued cs1 = bytes_of status
    /\ flag_set (events pfd1) POLLOUT = true
    /\ (strlen status <= Z.of_nat 1024 ->
        exists pfd2 cs2,
          serve_client periods
            {| fd := fd pfd1; events := events pfd1; revents := POLLOUT |}
            cs1 sock_error (sock_takes 1024) = Some (pfd2, cs2)
          /\ fd pfd2 = fd readable_pfd
          /\ out_len cs2 = 0
          /\ in_len cs2 = 0
          /\ flag_set (events pfd2) POLLOUT = false).
Proof.
  apply (status_request_is_answered periods readable_pfd zero_client
           sock_refuses sock_error 1024).
  - apply (windows_state 0 0 0); unfold in_range, INT_MIN, INT_MAX; lia.
  - split; reflexivity.
  - reflexivity.
  - reflexivity.
  - reflexivity.
Defined.
